(** * portcheck: port-declaration normalisation and conflict analysis

    A shallow embedding of the scanner package
    ([internal/scanner/scanner.go]), of the profile overlay
    ([internal/profiles]) and of the part of [cmd/scan.go] that turns
    profile conflicts into issues, together with the properties the
    specification states about them.

    Conventions.
    - Go [int] is rendered as [Z]; the code only compares and copies
      ports, so no wrap-around arises.  The one place where the width
      matters, [strconv.Atoi], saturates at the 64-bit bounds.
    - Go [string] is rendered as [string]; all characters the code
      inspects are ASCII.
    - Go maps are [gmap]s.  Where the code ranges over a map the model
      enumerates it with [map_to_list]; the properties below only use
      that every key is visited exactly once.
    - [sort.Slice] is rendered by stdpp's [merge_sort]; the properties
      below only use that its result is an ordered permutation. *)

From Stdlib Require Import ZArith Ascii String List Sorting.Sorted Lia.
From stdpp Require Import base decidable option list sorting gmap strings pretty fin_maps.

Local Open Scope Z_scope.

(** ** Values handed over by the YAML decoder

    [port interface{}] holds whatever yaml.v3 decoded: a string, an
    [int], a mapping with string keys, or anything else (booleans,
    floats, sequences, null, integers that do not fit [int]). *)

#[warnings="-register-all"]
Inductive value : Type :=
  | VString (s : string)
  | VInt (n : Z)
  | VMap (m : list (string * value))
  | VOther.

(** [v[key]] on a decoded mapping; yaml.v3 refuses duplicate keys, so
    the first entry is the entry. *)
Fixpoint mapIndex (m : list (string * value)) (key : string) : option value :=
  match m with
  | [] => None
  | (k, v) :: m' => if bool_decide (k = key) then Some v else mapIndex m' key
  end.

(** [v[key].(int)] *)
Definition assertInt (o : option value) : option Z :=
  match o with Some (VInt n) => Some n | _ => None end.

(** [v[key].(string)] *)
Definition assertString (o : option value) : option string :=
  match o with Some (VString s) => Some s | _ => None end.

(** ** Library functions used by the scanner *)

Module strconv.

Inductive error : Type := ErrSyntax | ErrRange.

Definition maxInt : Z := 2 ^ 63 - 1.
Definition minInt : Z := - 2 ^ 63.

Definition isDigit (c : ascii) : bool :=
  (48 <=? nat_of_ascii c)%nat && (nat_of_ascii c <=? 57)%nat.

Fixpoint allDigits (s : string) : bool :=
  match s with
  | EmptyString => true
  | String c s' => isDigit c && allDigits s'
  end.

Definition digitVal (c : ascii) : Z := Z.of_nat (nat_of_ascii c) - 48.

Fixpoint decimalValue (acc : Z) (s : string) : Z :=
  match s with
  | EmptyString => acc
  | String c s' => decimalValue (10 * acc + digitVal c) s'
  end.

(** [strconv.Atoi]: an optional sign followed by one or more decimal
    digits.  A syntax error yields 0; a value outside the 64-bit range
    yields the nearest bound together with a range error. *)
Definition Atoi (s : string) : Z * option error :=
  let '(neg, ds) :=
    match s with
    | String "-"%char r => (true, r)
    | String "+"%char r => (false, r)
    | _ => (false, s)
    end in
  if bool_decide (ds = "") || negb (allDigits ds) then (0, Some ErrSyntax)
  else
    let n := decimalValue 0 ds in
    if neg then
      if bool_decide (n ≤ 2 ^ 63)%Z then (- n, None) else (minInt, Some ErrRange)
    else
      if bool_decide (n ≤ maxInt)%Z then (n, None) else (maxInt, Some ErrRange).

End strconv.

Module strings.

(** [strings.Split(s, sep)] for a one-character separator: the pieces
    between the separators, never an empty slice. *)
Fixpoint Split (s : string) (sep : ascii) : list string :=
  match s with
  | EmptyString => [EmptyString]
  | String c s' =>
      if bool_decide (c = sep) then EmptyString :: Split s' sep
      else
        match Split s' sep with
        | [] => [String c EmptyString]
        | p :: ps => String c p :: ps
        end
  end.

(** [strings.Join(elems, sep)] for a one-character separator. *)
Fixpoint Join (elems : list string) (sep : ascii) : string :=
  match elems with
  | [] => EmptyString
  | [a] => a
  | a :: rest => a +:+ String sep (Join rest sep)
  end.

(** [strings.IndexByte(s, c) >= 0] *)
Fixpoint hasByte (s : string) (c : ascii) : bool :=
  match s with
  | EmptyString => false
  | String c' s' => bool_decide (c' = c) || hasByte s' c
  end.

(** [strings.SplitN(s, sep, n)] for a one-character separator and
    [n >= 0]: at most [n] pieces, the last one the unsplit rest. *)
Fixpoint SplitN (s : string) (sep : ascii) (n : nat) {struct s}
  : list string :=
  match n with
  | O => []
  | S O => [s]
  | S (S _ as n') =>
      match s with
      | EmptyString => [EmptyString]
      | String c s' =>
          if bool_decide (c = sep) then EmptyString :: SplitN s' sep n'
          else
            match SplitN s' sep n with
            | [] => [String c EmptyString]
            | p :: ps => String c p :: ps
            end
      end
  end.

End strings.

Module fmt.

(** The [%d] verb. *)
Definition d (n : Z) : string := pretty n.

End fmt.

(** ** The regular expression of [parsePort]

    [^(?:(\d{1,3}\.\d{1,3}\.\d{1,3}\.\d{1,3}):)?(\d+)(?::(\d+))?(?:/(tcp|udp))?$] *)

(** [\d+] *)
Definition digits (s : string) : bool :=
  negb (bool_decide (s = "")) && strconv.allDigits s.

(** [\d{1,3}] *)
Definition digits13 (s : string) : bool :=
  digits s && bool_decide (String.length s ≤ 3)%nat.

(** [\d{1,3}\.\d{1,3}\.\d{1,3}\.\d{1,3}] *)
Definition dottedQuad (s : string) : bool :=
  match strings.Split s "."%char with
  | [a; b; c; d] => digits13 a && digits13 b && digits13 c && digits13 d
  | _ => false
  end.

(** The four capture groups of a match; a group that took no part in the
    match is the empty string, as in [FindStringSubmatch]. *)
Record submatch : Type := Submatch {
  grpIP : string;
  grpPort : string;
  grpContainer : string;
  grpProto : string
}.

(** The part of the expression before the protocol suffix.  Neither a
    digit run nor a dotted quad contains [:], so the pieces between the
    colons are the groups. *)
Definition matchBody (body proto : string) : option submatch :=
  match strings.Split body ":"%char with
  | [p] =>
      if digits p then Some (Submatch "" p "" proto) else None
  | [a; b] =>
      if digits a && digits b then Some (Submatch "" a b proto)
      else if dottedQuad a && digits b then Some (Submatch a b "" proto)
      else None
  | [a; b; c] =>
      if dottedQuad a && digits b && digits c then Some (Submatch a b c proto)
      else None
  | _ => None
  end.

(** [portRegex.FindStringSubmatch]: the expression is anchored at both
    ends, and [/] occurs in it only in front of the protocol. *)
Definition portRegex (s : string) : option submatch :=
  match strings.Split s "/"%char with
  | [body] => matchBody body ""
  | [body; proto] =>
      if bool_decide (proto = "tcp") || bool_decide (proto = "udp")
      then matchBody body proto
      else None
  | _ => None
  end.

(** ** Data model of the scanner *)

Record PortBinding : Type := mkPortBinding {
  HostPort : Z;
  ContainerPort : Z;
  Protocol : string;
  HostIP : string;
  Service : string;
  File : string;
  Original : string
}.

Record Issue : Type := mkIssue {
  Severity : string;
  Type_ : string;
  Port : Z;
  Description : string;
  Bindings : list PortBinding
}.

Record Result : Type := mkResult {
  Path : string;
  ComposeFiles : list string;
  PortBindings : list PortBinding;
  PortMap : gmap Z (list PortBinding);
  Issues : list Issue
}.

Global Instance PortBinding_eq_dec : EqDecision PortBinding.
Proof. solve_decision. Defined.

Global Instance Issue_eq_dec : EqDecision Issue.
Proof. solve_decision. Defined.

(** [HasIssues] *)
Definition HasIssues (r : Result) : bool :=
  bool_decide (0 < length (Issues r))%nat.

(** ** [parsePort] *)

(** The [switch] of [parsePort]: the binding as filled in by the branch
    for the dynamic type of [port], or [None] where a branch returns
    [nil]. *)
Definition parsePortSwitch (port : value) (service file : string)
  : option PortBinding :=
  match port with
  | VString v =>
      match portRegex v with
      | None => None
      | Some m =>
          let hostPort := fst (strconv.Atoi (grpPort m)) in
          let containerPort :=
            if bool_decide (grpContainer m ≠ "")
            then fst (strconv.Atoi (grpContainer m))
            else hostPort in
          let protocol :=
            if bool_decide (grpProto m ≠ "") then grpProto m else "tcp" in
          Some (mkPortBinding hostPort containerPort protocol (grpIP m)
                  service file v)
      end
  | VInt v =>
      Some (mkPortBinding v v "tcp" "" service file (fmt.d v))
  | VMap v =>
      let containerPort :=
        match assertInt (mapIndex v "target") with
        | Some target => target
        | None => 0
        end in
      let hostPort :=
        match assertInt (mapIndex v "published") with
        | Some published => published
        | None =>
            match assertString (mapIndex v "published") with
            | Some published => fst (strconv.Atoi published)
            | None => 0
            end
        end in
      let protocol :=
        match assertString (mapIndex v "protocol") with
        | Some protocol => protocol
        | None => "tcp"
        end in
      let hostIP :=
        match assertString (mapIndex v "host_ip") with
        | Some hostIP => hostIP
        | None => ""
        end in
      Some (mkPortBinding hostPort containerPort protocol hostIP service file
              (fmt.d hostPort +:+ ":" +:+ fmt.d containerPort))
  | VOther => None
  end.

Definition parsePort (port : value) (service file : string)
  : option PortBinding :=
  match parsePortSwitch port service file with
  | None => None
  | Some binding =>
      if bool_decide (HostPort binding = 0) then None else Some binding
  end.

(** ** [parseComposeFile] and [Scan]

    What [os.ReadFile] followed by [yaml.Unmarshal] yields for one path:
    an error of either step, or the decoded [composeFile].  The decoded
    services are listed in the order in which the [range] statement
    visits them, each with its [Ports]. *)

Inductive loaded : Type :=
  | ReadError (err : string)
  | UnmarshalError (err : string)
  | Decoded (Services : list (string * list value)).

(** The two [append]s done for an accepted declaration. *)
Definition appendBinding (r : Result) (binding : PortBinding) : Result :=
  mkResult (Path r) (ComposeFiles r)
    (PortBindings r ++ [binding])
    (<[HostPort binding :=
         default [] (PortMap r !! HostPort binding) ++ [binding]]> (PortMap r))
    (Issues r).

Definition parsePorts (serviceName path : string) (r : Result)
    (ports : list value) : Result :=
  foldl (λ r port,
           match parsePort port serviceName path with
           | Some binding => appendBinding r binding
           | None => r
           end) r ports.

Definition parseComposeFile (fs : string → loaded) (r : Result) (path : string)
  : Result * option string :=
  match fs path with
  | ReadError err => (r, Some err)
  | UnmarshalError err => (r, Some err)
  | Decoded Services =>
      (foldl (λ r svc, parsePorts (fst svc) path r (snd svc)) r Services, None)
  end.

Definition withIssues (r : Result) (issues : list Issue) : Result :=
  mkResult (Path r) (ComposeFiles r) (PortBindings r) (PortMap r) issues.

(** ** [analyze] *)

(** [b.HostIP == "" || b.HostIP == "0.0.0.0"] *)
Definition isWildcard (b : PortBinding) : bool :=
  bool_decide (HostIP b = "") || bool_decide (HostIP b = "0.0.0.0").

(** The inner loop of the collision check: [directCollisions] and
    [potentialCollisions]. *)
Definition bySpecificity (bindings : list PortBinding)
  : list PortBinding * list PortBinding :=
  foldl (λ acc b,
           if isWildcard b then (fst acc ++ [b], snd acc)
           else (fst acc, snd acc ++ [b]))
        ([], []) bindings.

(** The body of the loop over [r.PortMap]. *)
Definition checkGroup (issues : list Issue) (port : Z)
    (bindings : list PortBinding) : list Issue :=
  if bool_decide (1 < length bindings)%nat then
    let directCollisions := fst (bySpecificity bindings) in
    let potentialCollisions := snd (bySpecificity bindings) in
    if bool_decide (1 < length directCollisions)%nat
       || (bool_decide (0 < length directCollisions)%nat
           && bool_decide (0 < length potentialCollisions)%nat)
    then
      issues ++ [mkIssue "error" "collision" port
                   ("Port " +:+ fmt.d port +:+ " bound by multiple services")
                   bindings]
    else if bool_decide (1 < length potentialCollisions)%nat then
      issues ++ [mkIssue "warning" "potential_collision" port
                   ("Port " +:+ fmt.d port
                    +:+ " bound multiple times with specific IPs")
                   bindings]
    else issues
  else issues.

Definition checkCollisions (issues : list Issue)
    (groups : list (Z * list PortBinding)) : list Issue :=
  foldl (λ issues g, checkGroup issues (fst g) (snd g)) issues groups.

Definition privilegedIssue (binding : PortBinding) : Issue :=
  mkIssue "warning" "privileged" (HostPort binding)
    ("Port " +:+ fmt.d (HostPort binding)
     +:+ " is privileged (requires root/sudo)")
    [binding].

Definition checkPrivileged (issues : list Issue)
    (bindings : list PortBinding) : list Issue :=
  foldl (λ issues binding,
           if bool_decide (HostPort binding > 0)
              && bool_decide (HostPort binding < 1024)
           then issues ++ [privilegedIssue binding]
           else issues) issues bindings.

Definition commonPorts : gmap Z string :=
  list_to_map
    [ (22, "SSH"); (25, "SMTP"); (53, "DNS"); (80, "HTTP"); (443, "HTTPS");
      (3306, "MySQL"); (5432, "PostgreSQL"); (6379, "Redis");
      (8080, "HTTP Alternate"); (27017, "MongoDB") ].

(** The search through [r.Issues] that sets [alreadyWarned]. *)
Definition alreadyWarned (issues : list Issue) (binding : PortBinding) : bool :=
  existsb (λ issue,
             bool_decide (Port issue = HostPort binding)
             && bool_decide (Type_ issue = "collision")) issues.

Definition commonPortIssue (binding : PortBinding) (svc : string) : Issue :=
  mkIssue "info" "common_port" (HostPort binding)
    ("Port " +:+ fmt.d (HostPort binding) +:+ " is commonly used by " +:+ svc)
    [binding].

Definition checkCommon (issues : list Issue)
    (bindings : list PortBinding) : list Issue :=
  foldl (λ issues binding,
           match commonPorts !! HostPort binding with
           | Some svc =>
               if isWildcard binding then
                 if alreadyWarned issues binding then issues
                 else issues ++ [commonPortIssue binding svc]
               else issues
           | None => issues
           end) issues bindings.

(** [severityOrder[s]]; a key that is not in a Go map reads as zero. *)
Definition severityOrder (s : string) : Z :=
  if bool_decide (s = "error") then 0
  else if bool_decide (s = "warning") then 1
  else if bool_decide (s = "info") then 2
  else 0.

(** The [less] function handed to [sort.Slice]. *)
Definition less (a b : Issue) : bool :=
  if bool_decide (severityOrder (Severity a) ≠ severityOrder (Severity b))
  then bool_decide (severityOrder (Severity a) < severityOrder (Severity b))
  else bool_decide (Port a < Port b).

(** [a] may stand in front of [b]. *)
Definition notAfter (a b : Issue) : Prop := less b a = false.

Global Instance notAfter_dec a b : Decision (notAfter a b).
Proof. unfold notAfter. apply _. Defined.

Definition sortSlice (issues : list Issue) : list Issue :=
  merge_sort notAfter issues.

(** The issue list just before it is sorted, [groups] being the entries
    of [r.PortMap] in the order in which the [range] statement visits
    them. *)
Definition collectIssuesIn (groups : list (Z * list PortBinding))
    (r : Result) : list Issue :=
  checkCommon
    (checkPrivileged (checkCollisions (Issues r) groups) (PortBindings r))
    (PortBindings r).

Definition collectIssues (r : Result) : list Issue :=
  collectIssuesIn (map_to_list (PortMap r)) r.

Definition analyze (r : Result) : Result :=
  withIssues r (sortSlice (collectIssues r)).

(** ** [Scan]

    File discovery is left to the caller: [found] is the content of
    [r.ComposeFiles] once the glob patterns and the subdirectories have
    been walked. *)

Definition parseErrorIssue (file err : string) : Issue :=
  mkIssue "warning" "parse_error" 0
    ("Failed to parse " +:+ file +:+ ": " +:+ err) [].

Definition parseFiles (fs : string → loaded) (r : Result)
    (files : list string) : Result :=
  foldl (λ r file,
           match parseComposeFile fs r file with
           | (r', Some err) =>
               withIssues r' (Issues r' ++ [parseErrorIssue file err])
           | (r', None) => r'
           end) r files.

Definition Scan (fs : string → loaded) (basePath : string)
    (found : list string) : Result * option string :=
  let r := mkResult basePath found [] ∅ [] in
  (analyze (parseFiles fs r (ComposeFiles r)), None).

(** ** The profile overlay ([internal/profiles])

    Several structs of the package share field names; the fields carry
    the initials of their struct here. *)

Module profiles.

Record ProfileService : Type := mkProfileService {
  psName : string;
  psPorts : list string;
  psEnvFiles : list string;
  psFile : string
}.

Record Profile : Type := mkProfile {
  pName : string;
  pServices : list ProfileService
}.

Record ProfilesConfig : Type := mkProfilesConfig {
  Profiles : gmap string Profile;
  Files : list string
}.

Record ServiceInfo : Type := mkServiceInfo {
  siService : string;
  siProfile : string;
  siPort : string
}.

Record PortConflict : Type := mkPortConflict {
  pcPort : string;
  pcServices : list ServiceInfo
}.

(** The configuration [LoadProfiles] starts from: there is always a
    "default" profile. *)
Definition initialConfig : ProfilesConfig :=
  mkProfilesConfig {[ "default" := mkProfile "default" [] ]} [].

(** [config.Profiles[name].Services = append(..., ps)] through the
    stored pointer. *)
Definition appendService (name : string) (ps : ProfileService)
    (config : ProfilesConfig) : ProfilesConfig :=
  mkProfilesConfig
    (alter (λ p, mkProfile (pName p) (pServices p ++ [ps])) name
       (Profiles config))
    (Files config).

(** "Add to appropriate profiles" in [parseComposeProfiles]:
    [svcProfiles] is the [profiles:] list of the service. *)
Definition addToProfiles (config : ProfilesConfig) (ps : ProfileService)
    (svcProfiles : list string) : ProfilesConfig :=
  if bool_decide (length svcProfiles = 0)%nat then
    appendService "default" ps config
  else
    foldl (λ config profileName,
             let config :=
               match Profiles config !! profileName with
               | Some _ => config
               | None =>
                   mkProfilesConfig
                     (<[profileName := mkProfile profileName []]>
                        (Profiles config))
                     (Files config)
               end in
             appendService profileName ps config)
          config svcProfiles.

(** [strings.Split(s, "/")[0]] *)
Definition beforeSlash (s : string) : string :=
  match strings.Split s "/"%char with
  | p :: _ => p
  | [] => ""
  end.

Definition extractHostPort (portSpec : string) : string :=
  match strings.Split portSpec ":"%char with
  | [p0] => beforeSlash p0
  | [p0; _] => beforeSlash p0
  | [_; p1; _] => beforeSlash p1
  | _ => portSpec
  end.

(** The innermost loop body of [DetectPortConflicts]. *)
Definition claimPort (profileName : string) (svc : ProfileService)
    (portServices : gmap string (list ServiceInfo)) (port : string)
  : gmap string (list ServiceInfo) :=
  let hostPort := extractHostPort port in
  if bool_decide (hostPort ≠ "") then
    <[hostPort :=
        default [] (portServices !! hostPort)
        ++ [mkServiceInfo (psName svc) profileName port]]> portServices
  else portServices.

(** The loop over the profiles that fills [portServices]. *)
Definition collectPortServices (c : ProfilesConfig) (profiles : list string)
  : gmap string (list ServiceInfo) :=
  foldl (λ portServices profileName,
           match Profiles c !! profileName with
           | Some profile =>
               foldl (λ portServices svc,
                        foldl (claimPort profileName svc) portServices
                          (psPorts svc))
                     portServices (pServices profile)
           | None => portServices
           end) ∅ profiles.

(** "Find conflicts" *)
Definition findConflicts (groups : list (string * list ServiceInfo))
  : list PortConflict :=
  foldl (λ conflicts g,
           if bool_decide (1 < length (snd g))%nat
           then conflicts ++ [mkPortConflict (fst g) (snd g)]
           else conflicts) [] groups.

Definition DetectPortConflicts (c : ProfilesConfig)
    (activeProfiles : list string) : list PortConflict :=
  let portServices := collectPortServices c ("default" :: activeProfiles) in
  findConflicts (map_to_list portServices).

End profiles.

(** ** Profile-aware scanning in [runScan] ([cmd/scan.go])

    [loadedProfiles] is what [profiles.LoadProfiles] returned, [None]
    standing for its error. *)

Definition profileCollisionIssue (c : profiles.PortConflict) : Issue :=
  mkIssue "error" "profile_collision" 0
    ("Profile conflict on port " +:+ profiles.pcPort c
     +:+ ": multiple services") [].

Definition profileScan (result : Result)
    (loadedProfiles : option profiles.ProfilesConfig)
    (activeProfiles : list string) : Result :=
  if bool_decide (0 < length activeProfiles)%nat then
    match loadedProfiles with
    | None => result
    | Some profileConfig =>
        foldl (λ result c,
                 withIssues result (Issues result ++ [profileCollisionIssue c]))
              result
              (profiles.DetectPortConflicts profileConfig activeProfiles)
    end
  else result.

(** ** Vocabulary of the statements *)

(** The issues one entry of [r.PortMap] gives rise to. *)
Definition groupIssues (g : Z * list PortBinding) : list Issue :=
  checkGroup [] (fst g) (snd g).

(** The issues of the privileged-port pass. *)
Definition privilegedIssues (bindings : list PortBinding) : list Issue :=
  privilegedIssue <$> filter (λ b, 0 < HostPort b < 1024) bindings.

(** The issues of the common-port pass, [base] being the issue list the
    pass starts from. *)
Definition commonIssues (base : list Issue) (bindings : list PortBinding)
  : list Issue :=
  bindings ≫= λ b,
    match commonPorts !! HostPort b with
    | Some svc =>
        if isWildcard b && negb (alreadyWarned base b)
        then [commonPortIssue b svc] else []
    | None => []
    end.

Definition isWild (b : PortBinding) : Prop := isWildcard b = true.
Definition isSpecific (b : PortBinding) : Prop := isWildcard b = false.

Global Instance isWild_dec b : Decision (isWild b).
Proof. unfold isWild. apply _. Defined.
Global Instance isSpecific_dec b : Decision (isSpecific b).
Proof. unfold isSpecific. apply _. Defined.

(** An issue of kind [kind] for host port [port]. *)
Definition issueOn (kind : string) (port : Z) (i : Issue) : Prop :=
  Type_ i = kind ∧ Port i = port.

Global Instance issueOn_dec kind port i : Decision (issueOn kind port i).
Proof. unfold issueOn. apply _. Defined.

(** The issue list as the parsing loop of [Scan] can leave it: parse
    errors only. *)
Definition parseErrorsOnly (issues : list Issue) : Prop :=
  Forall (λ i, Type_ i = "parse_error") issues.

(** The order [sort.Slice] is asked to establish. *)
Definition rank (i : Issue) : Z := severityOrder (Severity i).

Definition keyLe (a b : Issue) : Prop :=
  rank a < rank b ∨ (rank a = rank b ∧ Port a ≤ Port b).

(** What a file contributes to [r.PortBindings]: the accepted
    declarations of its services, in order. *)
Definition fileBindings (fs : string → loaded) (path : string)
  : list PortBinding :=
  match fs path with
  | Decoded Services =>
      Services ≫= λ svc, omap (λ port, parsePort port svc.1 path) svc.2
  | _ => []
  end.

(** What a file contributes to [r.Issues] while it is parsed. *)
Definition fileErrors (fs : string → loaded) (path : string) : list Issue :=
  match fs path with
  | ReadError err | UnmarshalError err => [parseErrorIssue path err]
  | Decoded _ => []
  end.

(** The file can be read and decoded. *)
Definition loads (fs : string → loaded) (path : string) : Prop :=
  match fs path with Decoded _ => True | _ => False end.

Global Instance loads_dec fs path : Decision (loads fs path).
Proof. unfold loads. destruct (fs path); apply _. Defined.

(** [r] after further bindings and issues have been appended. *)
Definition extend (r : Result) (bindings : list PortBinding)
    (issues : list Issue) : Result :=
  mkResult (Path r) (ComposeFiles r)
    (PortBindings r ++ bindings)
    (foldl (λ m b, <[HostPort b := default [] (m !! HostPort b) ++ [b]]> m)
       (PortMap r) bindings)
    (Issues r ++ issues).

(** The bindings of a list that claim host port [port]. *)
Definition groupOf (bindings : list PortBinding) (port : Z)
  : list PortBinding :=
  filter (λ b, HostPort b = port) bindings.

(** ** Sample inputs *)

(** A handful of compose files, as decoded. *)
Definition sampleFS (path : string) : loaded :=
  if bool_decide (path = "collide.yml") then
    Decoded [("web1", [VString "8080:80"]); ("web2", [VString "8080:80"])]
  else if bool_decide (path = "multihome.yml") then
    Decoded [("a", [VString "127.0.0.1:8080:80"]);
             ("b", [VString "192.168.1.1:8080:80"])]
  else if bool_decide (path = "loopback.yml") then
    Decoded [("a", [VString "127.0.0.1:8080:80"]);
             ("b", [VString "127.0.0.1:8080:80"])]
  else if bool_decide (path = "dns.yml") then
    Decoded [("dns1", [VString "53:53/tcp"]); ("dns2", [VString "53:53/udp"])]
  else if bool_decide (path = "web.yml") then
    Decoded [("web", [VString "80:80"; VString "443:443"])]
  else if bool_decide (path = "shared.yml") then
    Decoded [("a", [VString "80:80"]); ("b", [VString "80:80"])]
  else if bool_decide (path = "order.yml") then
    Decoded [("a", [VString "127.0.0.1:9000:9000"]);
             ("b", [VString "127.0.0.2:9000:9000"]);
             ("c", [VString "80:80"]); ("d", [VString "80:80"]);
             ("e", [VString "9090:90"]); ("f", [VString "9090:90"])]
  else if bool_decide (path = "common.yml") then
    Decoded [("db", [VString "5432:5432"; VString "127.0.0.1:6379:6379"]);
             ("web1", [VInt 8080]); ("web2", [VString "8080:80"])]
  else if bool_decide (path = "zero.yml") then
    Decoded [("zeroport", [VString "0:80"; VInt 0; VString "3000"])]
  else if bool_decide (path = "broken.yml") then
    UnmarshalError "yaml: did not find expected node content"
  else ReadError "no such file or directory".

(** The result of the parsing loop of [Scan] on the sample files. *)
Definition parsed (files : list string) : Result :=
  parseFiles sampleFS (mkResult "." files [] ∅ []) files.

(** ** Vocabulary of the profile overlay *)

(** The entries [DetectPortConflicts] gathers, in the order of its
    loops: one per listed profile, service of the profile and port
    declaration of the service. *)
Definition profileEntries (c : profiles.ProfilesConfig)
    (names : list string) : list profiles.ServiceInfo :=
  names ≫= λ profileName,
    match profiles.Profiles c !! profileName with
    | Some profile =>
        profiles.pServices profile ≫= λ svc,
          profiles.mkServiceInfo (profiles.psName svc) profileName
            <$> profiles.psPorts svc
    | None => []
    end.

(** What [claimPort] does with one entry. *)
Definition claimEntry (portServices : gmap string (list profiles.ServiceInfo))
    (si : profiles.ServiceInfo) : gmap string (list profiles.ServiceInfo) :=
  let hostPort := profiles.extractHostPort (profiles.siPort si) in
  if bool_decide (hostPort ≠ "") then
    <[hostPort := default [] (portServices !! hostPort) ++ [si]]> portServices
  else portServices.

(** Following the specification: the active profiles form a set of
    names that always includes "default"; an entry of an active service
    claims the host port extracted from its declaration. *)
Definition claimsOn (c : profiles.ProfilesConfig)
    (activeProfiles : list string) (hostPort : string)
  : list profiles.ServiceInfo :=
  filter (λ si, profiles.extractHostPort (profiles.siPort si) = hostPort)
    (profileEntries c (remove_dups ("default" :: activeProfiles))).

(** The names of the active services that claim [hostPort]. *)
Definition claimants (c : profiles.ProfilesConfig)
    (activeProfiles : list string) (hostPort : string) : list string :=
  remove_dups (profiles.siService <$> claimsOn c activeProfiles hostPort).

(** [hostPort] is reported by [DetectPortConflicts]. *)
Definition reported (c : profiles.ProfilesConfig)
    (activeProfiles : list string) (hostPort : string) : Prop :=
  Exists (λ x, profiles.pcPort x = hostPort)
    (profiles.DetectPortConflicts c activeProfiles).

(** [serviceA] under profile [dev], [serviceB] without a profile, both
    on host port 9090. *)
Definition overlayConfig : profiles.ProfilesConfig :=
  profiles.addToProfiles
    (profiles.addToProfiles profiles.initialConfig
       (profiles.mkProfileService "serviceA" ["9090:80"] []
          "docker-compose.yml") ["dev"])
    (profiles.mkProfileService "serviceB" ["9090:9090"] []
       "docker-compose.yml") [].

(** One service without a profile that declares host port 9090 twice,
    and a service of profile [dev] on another port. *)
Definition twiceConfig : profiles.ProfilesConfig :=
  profiles.addToProfiles
    (profiles.addToProfiles profiles.initialConfig
       (profiles.mkProfileService "web" ["9090:80"; "9090:81"] []
          "docker-compose.yml") [])
    (profiles.mkProfileService "tools" ["3000:3000"] []
       "docker-compose.yml") ["dev"].

(** ** The regular expression of [parsePort], read as a language

    The strings the expression accepts, with the capture groups they
    determine: an optional dotted quad and colon, a digit run, an
    optional colon and digit run, an optional slash and protocol. *)

Definition isQuad (ip : string) : Prop :=
  ∃ a b c d,
    ip = a +:+ "." +:+ b +:+ "." +:+ c +:+ "." +:+ d
    ∧ digits13 a = true ∧ digits13 b = true
    ∧ digits13 c = true ∧ digits13 d = true.

Definition optional (pre : string) (group : string) : string :=
  if bool_decide (group = "") then "" else pre +:+ group.

Definition portRegexAccepts (s : string) (m : submatch) : Prop :=
  (grpIP m = "" ∨ isQuad (grpIP m))
  ∧ digits (grpPort m) = true
  ∧ (grpContainer m = "" ∨ digits (grpContainer m) = true)
  ∧ (grpProto m = "" ∨ grpProto m = "tcp" ∨ grpProto m = "udp")
  ∧ s = (if bool_decide (grpIP m = "") then "" else grpIP m +:+ ":")
        +:+ grpPort m
        +:+ optional ":" (grpContainer m)
        +:+ optional "/" (grpProto m).

(** ** More of the scanner package *)

(** [GroupedByFile] *)
Definition GroupedByFile (r : Result) : gmap string (list PortBinding) :=
  foldl (λ grouped b,
           <[File b := default [] (grouped !! File b) ++ [b]]> grouped)
        ∅ (PortBindings r).

(** [PortBinding.String] *)
Definition PortBinding_String (b : PortBinding) : string :=
  let parts :=
    (if bool_decide (HostIP b ≠ "") then [HostIP b] else [])
    ++ [fmt.d (HostPort b) +:+ ":" +:+ fmt.d (ContainerPort b)] in
  let str := strings.Join parts ":"%char in
  if bool_decide (Protocol b ≠ "tcp") then str +:+ "/" +:+ Protocol b
  else str.

(** [b] with another [Original]. *)
Definition withOriginal (b : PortBinding) (original : string) : PortBinding :=
  mkPortBinding (HostPort b) (ContainerPort b) (Protocol b) (HostIP b)
    (Service b) (File b) original.

(** ** The reporter: how [FormatText] sorts the issues into sections

    The loop that fills [errors], [warnings] and [info]; the sections are
    then written in this order. *)
Definition bySeverity (issues : list Issue)
  : list Issue * list Issue * list Issue :=
  foldl (λ acc issue,
           let '(errors, warnings, info) := acc in
           if bool_decide (Severity issue = "error")
           then (errors ++ [issue], warnings, info)
           else if bool_decide (Severity issue = "warning")
           then (errors, warnings ++ [issue], info)
           else (errors, warnings, info ++ [issue]))
        ([], [], []) issues.

(** The issues in the order in which [FormatText] writes them. *)
Definition textOrder (issues : list Issue) : list Issue :=
  let '(errors, warnings, info) := bySeverity issues in
  errors ++ warnings ++ info.

(** ** More of [runScan] *)

(** The ports handed to [runtime.SuggestFreePorts]: the loop over
    [result.Issues] with its [seen] map, behind the test on
    [suggestPorts] and on the number of issues. *)
Definition conflictPortsLoop (issues : list Issue) : list Z * gmap Z bool :=
  foldl (λ acc issue,
           if bool_decide (Type_ issue = "collision")
              && negb (default false (acc.2 !! Port issue))
           then (acc.1 ++ [Port issue], <[Port issue := true]> acc.2)
           else acc)
        ([], ∅) issues.

Definition conflictPorts (suggestPorts : bool) (result : Result) : list Z :=
  if suggestPorts && bool_decide (0 < length (Issues result))%nat
  then (conflictPortsLoop (Issues result)).1
  else [].

(** ** Vocabulary of the further properties *)

(** The pairs of severity and type that [Scan] gives its issues. *)
Definition issueKinds : list (string * string) :=
  [("error", "collision"); ("warning", "potential_collision");
   ("warning", "privileged"); ("info", "common_port");
   ("warning", "parse_error")].

Definition knownKind (i : Issue) : Prop :=
  (Severity i, Type_ i) ∈ issueKinds.

(** The sort key of an issue. *)
Definition sortKey (i : Issue) : Z * Z := (rank i, Port i).

(** The order of the sort keys. *)
Definition sortKeyLe (a b : Z * Z) : Prop :=
  a.1 < b.1 ∨ (a.1 = b.1 ∧ a.2 ≤ b.2).

(** ** More of the profiles package *)

(** [GetActivePorts]: the ports of the services of "default" and of the
    active profiles, each string once. *)
Definition GetActivePorts (c : profiles.ProfilesConfig)
    (activeProfiles : list string) : list string :=
  (foldl (λ (acc : list string * gmap string bool) profileName,
            match profiles.Profiles c !! profileName with
            | Some profile =>
                foldl (λ acc svc,
                         foldl (λ (acc : list string * gmap string bool) port,
                                  if negb (default false (acc.2 !! port))
                                  then (acc.1 ++ [port], <[port := true]> acc.2)
                                  else acc)
                               acc (profiles.psPorts svc))
                      acc (profiles.pServices profile)
            | None => acc
            end)
         ([], ∅) ("default" :: activeProfiles)).1.

(** [ListProfiles]: the profile names, in the order of the [range]
    statement. *)
Definition ListProfiles (c : profiles.ProfilesConfig) : list string :=
  (map_to_list (profiles.Profiles c)).*1.

(** What yaml.v3 leaves in the [env_file] field. *)
Inductive envFile : Type :=
  | EnvString (s : string)
  | EnvList (l : list value)
  | EnvOther.

(** A service as [composeWithProfiles] holds it. *)
Record serviceDecl : Type := mkServiceDecl {
  sdPorts : list value;
  sdProfiles : list string;
  sdEnvFile : envFile
}.

Inductive loadedProfiles : Type :=
  | ProfilesReadError (err : string)
  | ProfilesUnmarshalError (err : string)
  | ProfilesDecoded (Services : list (string * serviceDecl)).

(** The [%v] verb on a decoded value; [render] prints the values that
    are neither strings nor [int]s. *)
Definition fmt_v (render : value → string) (v : value) : string :=
  match v with
  | VString s => s
  | VInt n => fmt.d n
  | _ => render v
  end.

(** "Collect ports as strings" *)
Definition portStrings (render : value → string) (ports : list value)
  : list string :=
  foldl (λ ports p,
           match p with
           | VString v => ports ++ [v]
           | VInt v => ports ++ [fmt.d v]
           | VMap v =>
               match mapIndex v "published" with
               | Some pub =>
                   match mapIndex v "target" with
                   | Some cont =>
                       ports ++ [fmt_v render pub +:+ ":" +:+ fmt_v render cont]
                   | None => ports
                   end
               | None => ports
               end
           | VOther => ports
           end) [] ports.

(** "Collect env files" *)
Definition envFiles (ef : envFile) : list string :=
  match ef with
  | EnvString ef => [ef]
  | EnvList ef => omap (λ f, assertString (Some f)) ef
  | EnvOther => []
  end.

(** The body of the loop over the services in [parseComposeProfiles]. *)
Definition parseService (render : value → string) (path : string)
    (config : profiles.ProfilesConfig) (svc : string * serviceDecl)
  : profiles.ProfilesConfig :=
  let ps :=
    profiles.mkProfileService svc.1 (portStrings render (sdPorts svc.2))
      (envFiles (sdEnvFile svc.2)) path in
  profiles.addToProfiles config ps (sdProfiles svc.2).

(** [parseComposeProfiles]; [content] is what reading and decoding
    [path] yields. *)
Definition parseComposeProfiles (render : value → string)
    (content : loadedProfiles) (path : string)
    (config : profiles.ProfilesConfig)
  : profiles.ProfilesConfig * option string :=
  match content with
  | ProfilesDecoded Services =>
      (foldl (parseService render path) config Services, None)
  | ProfilesReadError err | ProfilesUnmarshalError err => (config, Some err)
  end.

(** The loop of [LoadProfiles] over the candidate paths; [fs path] is
    [None] where [os.Stat] fails. *)
Fixpoint loadProfileFiles (render : value → string)
    (fs : string → option loadedProfiles) (paths : list string)
    (config : profiles.ProfilesConfig)
  : option profiles.ProfilesConfig * option string :=
  match paths with
  | [] => (Some config, None)
  | path :: paths =>
      match fs path with
      | None => loadProfileFiles render fs paths config
      | Some content =>
          let config :=
            profiles.mkProfilesConfig (profiles.Profiles config)
              (profiles.Files config ++ [path]) in
          match parseComposeProfiles render content path config with
          | (_, Some err) =>
              (None, Some ("failed to parse " +:+ path +:+ ": " +:+ err))
          | (config, None) => loadProfileFiles render fs paths config
          end
      end
  end.

(** [LoadProfiles]; [joinPath] stands for [filepath.Join]. *)
Definition LoadProfiles (render : value → string)
    (joinPath : string → string → string)
    (fs : string → option loadedProfiles) (basePath : string)
  : option profiles.ProfilesConfig * option string :=
  loadProfileFiles render fs
    (joinPath basePath
       <$> ["docker-compose.yml"; "docker-compose.yaml"; "compose.yml";
            "compose.yaml"])
    profiles.initialConfig.

(** ** The suggestion helper of the runtime package

    [listen port] tells whether [net.Listen("tcp", ":port")] succeeds;
    the listener is closed at once, so the answer for a port does not
    change during a call. *)

(** Arithmetic on [int]. *)
Definition wrap (x : Z) : Z := (x + 2 ^ 63) `mod` 2 ^ 64 - 2 ^ 63.

Definition portAlternatives : gmap Z (list Z) :=
  list_to_map
    [ (80, [8080; 8000; 8081; 9080]);
      (443, [8443; 4443; 9443]);
      (3000, [3001; 3002; 3003]);
      (3306, [3307; 3308; 33060]);
      (5432, [5433; 5434; 54320]);
      (5000, [5001; 5002; 5003]);
      (6379, [6380; 6381; 6382]);
      (8080, [8081; 8082; 8090; 9080]);
      (27017, [27018; 27019; 27020]) ].

Definition getPortAlternatives (port : Z) : list Z :=
  default [] (portAlternatives !! port)
  ++ [wrap (port + 1000); wrap (port + 10000)].

Definition FindFreePort (listen : Z → bool) (suggested maxAttempts : Z) : Z :=
  match list_find (λ i, listen (wrap (suggested + i)) = true)
          (seqZ 0 maxAttempts) with
  | Some (_, i) => wrap (suggested + i)
  | None => 0
  end.

(** The body of the loop of [SuggestFreePorts]. *)
Definition suggestFor (listen : Z → bool) (suggestions : gmap Z Z) (port : Z)
  : gmap Z Z :=
  let suggestions :=
    match list_find (λ alt, listen alt = true) (getPortAlternatives port) with
    | Some (_, alt) => <[port := alt]> suggestions
    | None => suggestions
    end in
  match suggestions !! port with
  | Some _ => suggestions
  | None =>
      let free := FindFreePort listen (wrap (port + 1)) 100 in
      if bool_decide (free > 0) then <[port := free]> suggestions
      else suggestions
  end.

Definition SuggestFreePorts (listen : Z → bool) (conflictPorts : list Z)
  : gmap Z Z :=
  foldl (suggestFor listen) ∅ conflictPorts.

(** The services registered under a profile name. *)
Definition profileServices (c : profiles.ProfilesConfig) (name : string)
  : list profiles.ProfileService :=
  match profiles.Profiles c !! name with
  | Some profile => profiles.pServices profile
  | None => []
  end.

(** What [LoadProfiles] keeps true of its configuration: there is a
    "default" profile, and every profile is stored under its name. *)
Definition profilesKept (c : profiles.ProfilesConfig) : Prop :=
  is_Some (profiles.Profiles c !! "default")
  ∧ ∀ name profile,
      profiles.Profiles c !! name = Some profile →
      profiles.pName profile = name.

(** The record [parseComposeProfiles] makes of a service. *)
Definition serviceRecord (render : value → string) (path : string)
    (svc : string * serviceDecl) : profiles.ProfileService :=
  profiles.mkProfileService svc.1 (portStrings render (sdPorts svc.2))
    (envFiles (sdEnvFile svc.2)) path.

(** The profiles a service is registered under. *)
Definition registeredUnder (svc : string * serviceDecl) (name : string)
  : Prop :=
  (sdProfiles svc.2 = [] ∧ name = "default") ∨ name ∈ sdProfiles svc.2.

(** The file exists and cannot be read or decoded. *)
Definition profilesFail (fs : string → option loadedProfiles)
    (path : string) : option string :=
  match fs path with
  | Some (ProfilesReadError err) | Some (ProfilesUnmarshalError err) =>
      Some err
  | _ => None
  end.

(** ** Sample projects for the profile loader *)

Definition sampleJoin (dir name : string) : string := dir +:+ "/" +:+ name.

(** [app] holds one compose file; in [broken] the third candidate does
    not decode and the fourth would. *)
Definition sampleProfilesFS (path : string) : option loadedProfiles :=
  if bool_decide (path = "app/docker-compose.yml") then
    Some (ProfilesDecoded
            [("web", mkServiceDecl [VString "8080:80"] [] EnvOther);
             ("debug", mkServiceDecl [VInt 9229] ["dev"] (EnvString ".env"))])
  else if bool_decide (path = "broken/compose.yml") then
    Some (ProfilesUnmarshalError "yaml: did not find expected key")
  else if bool_decide (path = "broken/compose.yaml") then
    Some (ProfilesDecoded
            [("web", mkServiceDecl [VString "8080:80"] [] EnvOther)])
  else None.

(** ** The labels of a container, in the runtime package *)

(** [parseLabels]: the [key=value] pieces of a comma-separated list; a
    piece without [=] is dropped and a later piece overwrites an
    earlier one with the same key. *)
Definition parseLabels (labelsStr : string) : gmap string string :=
  if bool_decide (labelsStr = "") then ∅
  else
    foldl (λ (labels : gmap string string) part,
             match strings.SplitN part "=" 2 with
             | [k; v] => <[k := v]> labels
             | _ => labels
             end)
          ∅ (strings.Split labelsStr ",").

(** One label, as [docker ps] prints it. *)
Definition label (kv : string * string) : string := kv.1 +:+ "=" +:+ kv.2.

(** * Properties *)

(** ** Library functions *)

Lemma Split_nonempty s sep : strings.Split s sep ≠ [].
Proof.
  destruct s as [|c s]; simpl; [done|].
  case_bool_decide; [done|]. by destruct (strings.Split s sep).
Qed.

(** ** The regular expression of [parsePort] *)

Lemma append_String c s t : String c s +:+ t = String c (s +:+ t).
Proof. reflexivity. Qed.

Lemma append_empty t : "" +:+ t = t.
Proof. reflexivity. Qed.

Lemma append_nil_r s : s +:+ "" = s.
Proof.
  induction s as [|c s IH]; [done|]. by rewrite append_String, IH.
Qed.

Lemma append_assoc a b c : (a +:+ b) +:+ c = a +:+ b +:+ c.
Proof.
  induction a as [|x a IH]; [done|]. by rewrite !append_String, IH.
Qed.

Lemma hasByte_app a b c :
  strings.hasByte (a +:+ b) c = strings.hasByte a c || strings.hasByte b c.
Proof.
  induction a as [|x a IH]; [done|].
  rewrite append_String. simpl. by rewrite IH, orb_assoc.
Qed.

Lemma Join_cons a l sep :
  l ≠ [] → strings.Join (a :: l) sep = a +:+ String sep (strings.Join l sep).
Proof. by destruct l. Qed.

Lemma Join_Split s sep : strings.Join (strings.Split s sep) sep = s.
Proof.
  induction s as [|c s IH]; [done|]. cbn [strings.Split].
  pose proof (Split_nonempty s sep) as Hne.
  case_bool_decide as Hc.
  - subst c. by rewrite Join_cons, IH.
  - destruct (strings.Split s sep) as [|p [|q ps]]; [done|..].
    + simpl in *. by rewrite IH.
    + rewrite Join_cons by done. rewrite Join_cons in IH by done.
      by rewrite append_String, IH.
Qed.

Lemma Split_no_sep s sep :
  strings.hasByte s sep = false → strings.Split s sep = [s].
Proof.
  induction s as [|c s IH]; [done|]. simpl.
  intros [Hc Hs]%orb_false_iff. rewrite Hc, (IH Hs). done.
Qed.

Lemma Split_app a b sep :
  strings.hasByte a sep = false →
  strings.Split (a +:+ String sep b) sep = a :: strings.Split b sep.
Proof.
  induction a as [|c a IH]; rewrite ?append_String, ?append_empty; simpl.
  - intros _. by rewrite bool_decide_true.
  - intros [Hc Ha]%orb_false_iff. by rewrite Hc, (IH Ha).
Qed.

Lemma Split_pieces s sep :
  Forall (λ p, strings.hasByte p sep = false) (strings.Split s sep).
Proof.
  induction s as [|c s IH]; simpl; [by repeat constructor|].
  case_bool_decide as Hc; [by constructor|].
  destruct (strings.Split s sep) as [|p ps].
  - apply Forall_singleton. simpl. by rewrite bool_decide_false.
  - apply Forall_cons in IH as [Hp Hps]. constructor; [|done].
    simpl. rewrite Hp. by rewrite bool_decide_false.
Qed.

Lemma allDigits_hasByte s c :
  strconv.allDigits s = true → strconv.isDigit c = false →
  strings.hasByte s c = false.
Proof.
  intros Hs Hc. induction s as [|x s IH]; [done|]. simpl in *.
  apply andb_true_iff in Hs as [Hx Hs]. rewrite (IH Hs).
  rewrite bool_decide_false; [done|]. intros ->. congruence.
Qed.

Lemma digits_hasByte s c :
  digits s = true → strconv.isDigit c = false → strings.hasByte s c = false.
Proof.
  unfold digits. intros [_ Hs]%andb_true_iff. by apply allDigits_hasByte.
Qed.

Lemma digits13_digits s : digits13 s = true → digits s = true.
Proof. unfold digits13. by intros [? _]%andb_true_iff. Qed.

Lemma digits_nonempty s : digits s = true → s ≠ "".
Proof.
  unfold digits. intros [H _]%andb_true_iff.
  by apply negb_true_iff, bool_decide_eq_false in H.
Qed.

(** A dotted quad, as a function and as a shape. *)
Lemma dottedQuad_spec ip : dottedQuad ip = true ↔ isQuad ip.
Proof.
  unfold dottedQuad, isQuad. split.
  - intros H. pose proof (Join_Split ip ".") as HJ.
    destruct (strings.Split ip ".") as [|a [|b [|c [|d [|e l]]]]]; try done.
    apply andb_true_iff in H as [H Hd]. apply andb_true_iff in H as [H Hc].
    apply andb_true_iff in H as [Ha Hb].
    exists a, b, c, d. by rewrite <-HJ.
  - intros (a & b & c & d & -> & Ha & Hb & Hc & Hd).
    rewrite ?append_String, ?append_empty.
    rewrite (Split_app a), (Split_app b), (Split_app c), (Split_no_sep d);
      try (apply digits_hasByte; [by apply digits13_digits|done]).
    by rewrite Ha, Hb, Hc, Hd.
Qed.

Lemma isQuad_hasByte ip c :
  isQuad ip → strconv.isDigit c = false → c ≠ "."%char →
  strings.hasByte ip c = false.
Proof.
  intros (a & b & x & d & -> & Ha & Hb & Hx & Hd) Hc Hdot.
  rewrite !hasByte_app. simpl.
  rewrite !(digits_hasByte _ c) by (by apply digits13_digits || done).
  by rewrite bool_decide_false by done.
Qed.

Lemma isQuad_not_digits ip : isQuad ip → digits ip = false.
Proof.
  intros (a & b & c & d & -> & Ha & _).
  unfold digits. apply andb_false_iff. right.
  apply digits13_digits in Ha. unfold digits in Ha.
  apply andb_true_iff in Ha as [_ Ha].
  induction a as [|x a IH]; [done|]. simpl in *.
  apply andb_true_iff in Ha as [-> Ha]. by apply IH.
Qed.

Lemma isQuad_nonempty ip : isQuad ip → ip ≠ "".
Proof.
  intros (a & b & c & d & -> & Ha & _) H.
  apply digits13_digits, digits_nonempty in Ha. by destruct a.
Qed.

Lemma optional_empty pre : optional pre "" = "".
Proof. done. Qed.

Lemma optional_digits pre group :
  digits group = true → optional pre group = pre +:+ group.
Proof.
  intros H%digits_nonempty. unfold optional. by rewrite bool_decide_false.
Qed.

Lemma matchBody_sound body proto m :
  matchBody body proto = Some m →
  grpProto m = proto
  ∧ (grpIP m = "" ∨ isQuad (grpIP m))
  ∧ digits (grpPort m) = true
  ∧ (grpContainer m = "" ∨ digits (grpContainer m) = true)
  ∧ body = (if bool_decide (grpIP m = "") then "" else grpIP m +:+ ":")
           +:+ grpPort m +:+ optional ":" (grpContainer m).
Proof.
  unfold matchBody. pose proof (Join_Split body ":") as HJ.
  destruct (strings.Split body ":") as [|a [|b [|c [|d l]]]]; try done.
  - destruct (digits a) eqn:Ha; [|done]. intros [= <-]. simpl in *.
    split_and!; auto. by rewrite append_nil_r.
  - destruct (digits a && digits b) eqn:Hab.
    + apply andb_true_iff in Hab as [Ha Hb]. intros [= <-].
      cbn [grpIP grpPort grpContainer grpProto].
      split_and!; auto. by rewrite optional_digits, <-HJ.
    + destruct (dottedQuad a && digits b) eqn:Hqb; [|done].
      apply andb_true_iff in Hqb as [Ha Hb]. intros [= <-].
      apply dottedQuad_spec in Ha.
      cbn [grpIP grpPort grpContainer grpProto].
      rewrite bool_decide_false by by apply isQuad_nonempty.
      split_and!; auto.
      by rewrite optional_empty, append_nil_r, append_assoc, <-HJ.
  - destruct (dottedQuad a && digits b && digits c) eqn:H; [|done].
    apply andb_true_iff in H as [H Hc]. apply andb_true_iff in H as [Ha Hb].
    intros [= <-]. apply dottedQuad_spec in Ha.
    cbn [grpIP grpPort grpContainer grpProto].
    rewrite bool_decide_false by by apply isQuad_nonempty.
    split_and!; auto.
    by rewrite optional_digits, append_assoc, <-HJ.
Qed.

Lemma matchBody_complete ip port container proto :
  ip = "" ∨ isQuad ip →
  digits port = true →
  container = "" ∨ digits container = true →
  matchBody ((if bool_decide (ip = "") then "" else ip +:+ ":")
             +:+ port +:+ optional ":" container) proto
  = Some (Submatch ip port container proto).
Proof.
  intros Hip Hport Hcont. unfold matchBody.
  assert (strings.hasByte port ":" = false) as Hp
    by by apply digits_hasByte.
  destruct Hip as [->|Hip], Hcont as [->|Hcont];
    rewrite ?optional_empty, ?append_nil_r, ?(optional_digits _ _ Hcont);
    rewrite ?bool_decide_true by done;
    rewrite ?bool_decide_false by by apply isQuad_nonempty.
  - rewrite append_empty, Split_no_sep by done. by rewrite Hport.
  - rewrite append_empty, ?append_String, ?append_empty.
    rewrite Split_app, Split_no_sep by first [done | by apply digits_hasByte].
    by rewrite Hport, Hcont.
  - rewrite append_assoc, ?append_String, ?append_empty.
    rewrite Split_app, Split_no_sep
      by first [done | by apply isQuad_hasByte].
    rewrite (isQuad_not_digits ip Hip). cbn [andb].
    apply dottedQuad_spec in Hip. by rewrite Hip, Hport.
  - rewrite append_assoc, ?append_String, ?append_empty.
    rewrite (Split_app ip), (Split_app port), Split_no_sep
      by first [done | by apply digits_hasByte | by apply isQuad_hasByte].
    apply dottedQuad_spec in Hip. by rewrite Hip, Hport, Hcont.
Qed.

Lemma body_no_slash ip port container :
  ip = "" ∨ isQuad ip →
  digits port = true →
  container = "" ∨ digits container = true →
  strings.hasByte ((if bool_decide (ip = "") then "" else ip +:+ ":")
                   +:+ port +:+ optional ":" container) "/" = false.
Proof.
  intros Hip Hport Hcont. rewrite !hasByte_app.
  rewrite (digits_hasByte port) by done.
  assert (strings.hasByte (optional ":" container) "/" = false) as ->.
  { destruct Hcont as [->|Hcont]; [done|].
    rewrite optional_digits, hasByte_app by done.
    by rewrite (digits_hasByte container). }
  destruct Hip as [->|Hip]; [done|].
  rewrite bool_decide_false by by apply isQuad_nonempty.
  rewrite hasByte_app. by rewrite (isQuad_hasByte ip).
Qed.

(** [portRegex] accepts exactly the strings of the expression and
    returns their capture groups. *)
Lemma portRegex_spec s m : portRegex s = Some m ↔ portRegexAccepts s m.
Proof.
  unfold portRegex, portRegexAccepts. split.
  - pose proof (Join_Split s "/") as HJ.
    destruct (strings.Split s "/") as [|body [|proto [|x l]]]; try done.
    + intros (Hp & Hip & Hport & Hcont & Hbody)%matchBody_sound.
      simpl in HJ. subst body. rewrite Hp, optional_empty, append_nil_r.
      split_and!; auto.
    + destruct (bool_decide (proto = "tcp") || bool_decide (proto = "udp"))
        eqn:Hproto; [|done].
      intros (Hp & Hip & Hport & Hcont & Hbody)%matchBody_sound.
      apply orb_true_iff in Hproto.
      rewrite !bool_decide_eq_true in Hproto. rewrite Hp.
      split_and!; auto.
      assert (optional "/" proto = "/" +:+ proto) as ->
        by by destruct Hproto as [-> | ->].
      rewrite <-HJ, Hbody. cbn [strings.Join].
      by rewrite !append_assoc.
  - destruct m as [ip port container proto].
    cbn [grpIP grpPort grpContainer grpProto].
    intros (Hip & Hport & Hcont & Hproto & ->).
    pose proof (body_no_slash ip port container Hip Hport Hcont) as Hb.
    pose proof (matchBody_complete ip port container proto Hip Hport Hcont)
      as Hm.
    rewrite <-!append_assoc. rewrite <-!append_assoc in Hb, Hm.
    destruct Hproto as [->|Hproto].
    + rewrite optional_empty, append_nil_r, Split_no_sep by done. done.
    + assert (optional "/" proto = String "/" proto) as ->
        by by destruct Hproto as [-> | ->].
      rewrite Split_app by done.
      destruct Hproto as [-> | ->]; exact Hm.
Qed.

(** ** [parsePort] on the declarations of the package's tests *)

Example parsePort_single :
  parsePort (VString "3000") "test" "test.yml"
  = Some (mkPortBinding 3000 3000 "tcp" "" "test" "test.yml" "3000").
Proof. by vm_compute. Qed.

Example parsePort_pair :
  parsePort (VString "8080:80") "test" "test.yml"
  = Some (mkPortBinding 8080 80 "tcp" "" "test" "test.yml" "8080:80").
Proof. by vm_compute. Qed.

Example parsePort_address :
  parsePort (VString "127.0.0.1:9000:9000") "test" "test.yml"
  = Some (mkPortBinding 9000 9000 "tcp" "127.0.0.1" "test" "test.yml"
            "127.0.0.1:9000:9000").
Proof. by vm_compute. Qed.

Example parsePort_udp :
  parsePort (VString "5000:5000/udp") "test" "test.yml"
  = Some (mkPortBinding 5000 5000 "udp" "" "test" "test.yml" "5000:5000/udp").
Proof. by vm_compute. Qed.

Example parsePort_int :
  parsePort (VInt 3000) "test" "test.yml"
  = Some (mkPortBinding 3000 3000 "tcp" "" "test" "test.yml" "3000").
Proof. by vm_compute. Qed.

Example parsePort_rejected :
  parsePort (VString "invalid") "test" "test.yml" = None
  ∧ parsePort (VString "") "test" "test.yml" = None
  ∧ parsePort (VString "8000-8010:8000-8010") "test" "test.yml" = None
  ∧ parsePort (VString "${PORT}:80") "test" "test.yml" = None
  ∧ parsePort (VString "[::1]:8080:80") "test" "test.yml" = None
  ∧ parsePort VOther "test" "test.yml" = None.
Proof. by vm_compute. Qed.

(** A digit run too long for [int] saturates, and a long-form
    [published] may be negative: neither is host port 0, so both are
    kept. *)
Example parsePort_out_of_range :
  HostPort <$> parsePort (VString "99999999999999999999:80") "test" "test.yml"
  = Some strconv.maxInt
  ∧ HostPort <$> parsePort (VMap [("target", VInt 80);
                                  ("published", VString "-1")])
                   "test" "test.yml"
    = Some (-1).
Proof. by vm_compute. Qed.

(** ** Sorting *)

Lemma less_spec a b :
  less a b = true ↔ rank a < rank b ∨ (rank a = rank b ∧ Port a < Port b).
Proof.
  unfold less, rank. case_bool_decide as Hne.
  - rewrite bool_decide_eq_true. lia.
  - rewrite bool_decide_eq_true. lia.
Qed.

Lemma notAfter_keyLe a b : notAfter a b ↔ keyLe a b.
Proof.
  unfold notAfter, keyLe. rewrite <-not_true_iff_false, less_spec. lia.
Qed.

Global Instance notAfter_total : Total notAfter.
Proof. intros a b. rewrite !notAfter_keyLe. unfold keyLe. lia. Qed.

Global Instance notAfter_trans : Transitive notAfter.
Proof. intros a b c. rewrite !notAfter_keyLe. unfold keyLe. lia. Qed.

Lemma sortSlice_perm issues : sortSlice issues ≡ₚ issues.
Proof. apply merge_sort_Permutation. Qed.

Lemma sortSlice_sorted issues : StronglySorted notAfter (sortSlice issues).
Proof. apply StronglySorted_merge_sort; apply _. Qed.

Lemma analyze_perm r : Issues (analyze r) ≡ₚ collectIssues r.
Proof. apply sortSlice_perm. Qed.

(** ** The passes of [analyze], one by one *)

Lemma bySpecificity_filter bindings :
  bySpecificity bindings = (filter isWild bindings, filter isSpecific bindings).
Proof.
  unfold bySpecificity.
  assert (∀ acc,
    foldl (λ acc b, if isWildcard b then (acc.1 ++ [b], acc.2)
                    else (acc.1, acc.2 ++ [b])) acc bindings
    = (acc.1 ++ filter isWild bindings, acc.2 ++ filter isSpecific bindings))
    as H.
  { induction bindings as [|b bs IH]; intros [d p]; simpl.
    - by rewrite !app_nil_r.
    - rewrite IH. unfold isWild, isSpecific.
      destruct (isWildcard b) eqn:Hb; simpl.
      + rewrite filter_cons_True, filter_cons_False by (by rewrite ?Hb).
        by rewrite <-app_assoc.
      + rewrite filter_cons_False, filter_cons_True by (by rewrite ?Hb).
        by rewrite <-app_assoc. }
  by rewrite H.
Qed.

Lemma checkGroup_app issues port bindings :
  checkGroup issues port bindings = issues ++ groupIssues (port, bindings).
Proof.
  unfold groupIssues, checkGroup; simpl.
  repeat case_match; by rewrite ?app_nil_r.
Qed.

Lemma checkCollisions_app issues groups :
  checkCollisions issues groups = issues ++ (groups ≫= groupIssues).
Proof.
  unfold checkCollisions. revert issues.
  induction groups as [|[p bs] gs IH]; intros issues.
  - simpl. by rewrite app_nil_r.
  - rewrite bind_cons. cbn [foldl fst snd].
    rewrite IH, checkGroup_app. by rewrite <-app_assoc.
Qed.

Lemma checkPrivileged_app issues bindings :
  checkPrivileged issues bindings = issues ++ privilegedIssues bindings.
Proof.
  unfold checkPrivileged, privilegedIssues. revert issues.
  induction bindings as [|b bs IH]; intros issues; simpl.
  - by rewrite app_nil_r.
  - rewrite IH. case_bool_decide as H1; simpl; [case_bool_decide as H2|]; simpl.
    + rewrite filter_cons_True by lia. by rewrite <-app_assoc.
    + rewrite filter_cons_False by lia. done.
    + rewrite filter_cons_False by lia. done.
Qed.

Lemma alreadyWarned_Exists issues b :
  alreadyWarned issues b = true
  ↔ Exists (issueOn "collision" (HostPort b)) issues.
Proof.
  unfold alreadyWarned, issueOn.
  rewrite existsb_exists, Exists_exists. split.
  - intros (i & Hi & Hc). exists i. apply list_elem_of_In in Hi.
    apply andb_true_iff in Hc as [?%bool_decide_eq_true ?%bool_decide_eq_true].
    done.
  - intros (i & Hi & ? & ?). exists i. apply list_elem_of_In in Hi.
    split; [done|]. apply andb_true_iff. by rewrite !bool_decide_eq_true.
Qed.

Lemma alreadyWarned_app issues extra b :
  alreadyWarned (issues ++ extra) b
  = alreadyWarned issues b || alreadyWarned extra b.
Proof. unfold alreadyWarned. apply existsb_app. Qed.

Lemma alreadyWarned_no_collision extra b :
  Forall (λ i, Type_ i ≠ "collision") extra → alreadyWarned extra b = false.
Proof.
  intros H. apply not_true_iff_false. rewrite alreadyWarned_Exists.
  rewrite Exists_exists. intros (i & Hi & Hc & _).
  rewrite Forall_forall in H. by apply (H i).
Qed.

Lemma commonIssues_kind base bindings :
  Forall (λ i, Type_ i = "common_port") (commonIssues base bindings).
Proof.
  apply Forall_forall. intros i Hi. unfold commonIssues in Hi.
  apply list_elem_of_bind in Hi as (b & Hi & _).
  destruct (commonPorts !! HostPort b); [|by apply elem_of_nil in Hi].
  destruct (_ && _); [|by apply elem_of_nil in Hi].
  by apply list_elem_of_singleton in Hi as ->.
Qed.

Lemma commonIssues_app base l1 l2 :
  commonIssues base (l1 ++ l2) = commonIssues base l1 ++ commonIssues base l2.
Proof. unfold commonIssues. apply bind_app. Qed.

Lemma commonIssues_base base extra bindings :
  Forall (λ i, Type_ i ≠ "collision") extra →
  commonIssues (base ++ extra) bindings = commonIssues base bindings.
Proof.
  intros H. unfold commonIssues.
  induction bindings as [|b bs IH]; [done|].
  rewrite !bind_cons, IH, alreadyWarned_app.
  by rewrite (alreadyWarned_no_collision extra), orb_false_r.
Qed.

Lemma commonIssues_single base b :
  commonIssues base [b] =
    match commonPorts !! HostPort b with
    | Some svc =>
        if isWildcard b && negb (alreadyWarned base b)
        then [commonPortIssue b svc] else []
    | None => []
    end.
Proof. unfold commonIssues. simpl. by rewrite app_nil_r. Qed.

Lemma checkCommon_app issues bindings :
  checkCommon issues bindings = issues ++ commonIssues issues bindings.
Proof.
  unfold checkCommon.
  induction bindings as [|b bs IH] using rev_ind.
  - simpl. by rewrite app_nil_r.
  - rewrite foldl_snoc, IH, commonIssues_app, app_assoc.
    rewrite commonIssues_single, alreadyWarned_app.
    rewrite (alreadyWarned_no_collision (commonIssues issues bs)).
    + rewrite orb_false_r.
      destruct (commonPorts !! HostPort b) as [svc|]; [|by rewrite app_nil_r].
      destruct (isWildcard b); simpl; [|by rewrite app_nil_r].
      destruct (alreadyWarned issues b); simpl; [by rewrite app_nil_r|done].
    + eapply Forall_impl; [apply commonIssues_kind|].
      intros i Hi. simpl in Hi. by rewrite Hi.
Qed.

Lemma privilegedIssues_kind bindings :
  Forall (λ i, Type_ i = "privileged") (privilegedIssues bindings).
Proof.
  apply Forall_forall. intros i Hi. unfold privilegedIssues in Hi.
  apply list_elem_of_fmap in Hi as (b & -> & _). done.
Qed.

(** The issue list before sorting: what was there, then the three
    passes. *)
Lemma collectIssuesIn_stages groups r :
  let stage1 := groups ≫= groupIssues in
  collectIssuesIn groups r
  = Issues r ++ stage1 ++ privilegedIssues (PortBindings r)
    ++ commonIssues (Issues r ++ stage1) (PortBindings r).
Proof.
  intros stage1. unfold collectIssuesIn.
  rewrite checkCommon_app, checkPrivileged_app, checkCollisions_app.
  fold stage1. rewrite commonIssues_base.
  - by rewrite <-!app_assoc.
  - eapply Forall_impl; [apply privilegedIssues_kind|].
    intros i Hi. simpl in Hi. by rewrite Hi.
Qed.

Lemma collectIssues_stages r :
  let stage1 := map_to_list (PortMap r) ≫= groupIssues in
  collectIssues r
  = Issues r ++ stage1 ++ privilegedIssues (PortBindings r)
    ++ commonIssues (Issues r ++ stage1) (PortBindings r).
Proof. apply collectIssuesIn_stages. Qed.

Lemma commonIssues_ext base base' bindings :
  (∀ b, alreadyWarned base b = alreadyWarned base' b) →
  commonIssues base bindings = commonIssues base' bindings.
Proof.
  intros H. unfold commonIssues.
  induction bindings as [|b bs IH]; [done|].
  by rewrite !bind_cons, IH, H.
Qed.

Lemma alreadyWarned_perm base base' b :
  base ≡ₚ base' → alreadyWarned base b = alreadyWarned base' b.
Proof.
  intros HP. apply eq_true_iff_eq. rewrite !alreadyWarned_Exists.
  rewrite !Exists_exists. by setoid_rewrite HP.
Qed.

(** The order in which the port map is ranged over only permutes the
    issue list. *)
Lemma collectIssuesIn_order groups groups' r :
  groups ≡ₚ groups' → collectIssuesIn groups r ≡ₚ collectIssuesIn groups' r.
Proof.
  intros HP. rewrite !collectIssuesIn_stages. cbv zeta.
  assert (commonIssues (Issues r ++ groups ≫= groupIssues) (PortBindings r)
          = commonIssues (Issues r ++ groups' ≫= groupIssues) (PortBindings r))
    as ->.
  { apply commonIssues_ext. intros b. apply alreadyWarned_perm.
    by rewrite HP. }
  by rewrite HP.
Qed.

(** *** One entry of the port map *)

Lemma groupIssues_cases port bindings :
  let wild := filter isWild bindings in
  let spec := filter isSpecific bindings in
  groupIssues (port, bindings) =
    if bool_decide (1 < length bindings)%nat then
      if bool_decide (1 < length wild ∨ (0 < length wild ∧ 0 < length spec))%nat
      then [mkIssue "error" "collision" port
              ("Port " +:+ fmt.d port +:+ " bound by multiple services")
              bindings]
      else if bool_decide (1 < length spec)%nat
      then [mkIssue "warning" "potential_collision" port
              ("Port " +:+ fmt.d port
               +:+ " bound multiple times with specific IPs") bindings]
      else []
    else [].
Proof.
  intros wild spec. unfold groupIssues, checkGroup. cbn [fst snd].
  rewrite bySpecificity_filter. cbn [fst snd]. fold wild spec.
  by rewrite bool_decide_or, bool_decide_and.
Qed.

Lemma groupIssues_port g :
  Forall (λ i, Port i = g.1 ∧ Bindings i = g.2
               ∧ (Type_ i = "collision" ∨ Type_ i = "potential_collision"))
         (groupIssues g).
Proof.
  destruct g as [p bs]. rewrite groupIssues_cases. simpl.
  repeat case_bool_decide; rewrite ?Forall_singleton; simpl;
    auto using Forall_nil_2.
Qed.

Lemma groupIssues_length g : (length (groupIssues g) ≤ 1)%nat.
Proof.
  destruct g as [p bs]. rewrite groupIssues_cases. simpl.
  repeat case_bool_decide; simpl; lia.
Qed.

Lemma Permutation_short {A} (l k : list A) :
  (length k ≤ 1)%nat → l ≡ₚ k → l = k.
Proof.
  intros Hk HP. destruct k as [|x [|y k]]; simpl in Hk; [| |lia].
  - by apply Permutation_nil_r.
  - by apply Permutation_singleton_r.
Qed.

Lemma stage1_other_ports (m : gmap Z (list PortBinding)) port :
  m !! port = None →
  filter (λ i, Port i = port) (map_to_list m ≫= groupIssues) = [].
Proof.
  intros Hm. apply elem_of_nil_inv. intros i Hi.
  apply list_elem_of_filter in Hi as [Hp Hi].
  apply list_elem_of_bind in Hi as ([p bs] & Hi & Hg).
  apply elem_of_map_to_list in Hg.
  pose proof (groupIssues_port (p, bs)) as HF.
  rewrite Forall_forall in HF. destruct (HF i Hi) as (Hp' & _). simpl in Hp'.
  congruence.
Qed.

(** Among the issues of the collision pass, those for [port] are the
    issues of the entry of [port]. *)
Lemma stage1_port (m : gmap Z (list PortBinding)) port bindings :
  m !! port = Some bindings →
  filter (λ i, Port i = port) (map_to_list m ≫= groupIssues)
  = groupIssues (port, bindings).
Proof.
  intros Hm. apply Permutation_short; [apply groupIssues_length|].
  rewrite <-(map_to_list_delete m port bindings Hm).
  rewrite bind_cons, filter_app.
  rewrite (stage1_other_ports (delete port m)) by apply lookup_delete_eq.
  rewrite app_nil_r.
  pose proof (groupIssues_port (port, bindings)) as HF.
  induction HF as [|i l [Hi _] _ IH]; [done|].
  simpl in Hi. rewrite filter_cons_True by done. by rewrite IH.
Qed.

Lemma filter_none {A} (P : A → Prop) `{∀ x, Decision (P x)} (l : list A) :
  Forall (λ x, ¬ P x) l → filter P l = [].
Proof.
  intros HF. apply elem_of_nil_inv. intros x Hx.
  apply list_elem_of_filter in Hx as [HP Hx].
  rewrite Forall_forall in HF. by apply (HF x).
Qed.

Lemma filter_all {A} (P : A → Prop) `{∀ x, Decision (P x)} (l : list A) :
  Forall P l → filter P l = l.
Proof.
  induction 1 as [|x l Hx _ IH]; [done|].
  by rewrite filter_cons_True, IH.
Qed.

Lemma filter_issueOn kind port (issues : list Issue) :
  filter (issueOn kind port) issues
  = filter (λ i, Type_ i = kind) (filter (λ i, Port i = port) issues).
Proof. by rewrite list_filter_filter. Qed.

Lemma filter_kind_none kind kind' port (issues : list Issue) :
  kind ≠ kind' →
  Forall (λ i, Type_ i = kind') issues →
  filter (issueOn kind port) issues = [].
Proof.
  intros Hne HF. apply filter_none. eapply Forall_impl; [exact HF|].
  intros i Hi [Hk _]. simpl in Hi. congruence.
Qed.

(** The collision and potential-collision issues [analyze] reports for
    a port are those of the port's entry in the port map. *)
Lemma analyze_grouping r kind port :
  parseErrorsOnly (Issues r) →
  kind = "collision" ∨ kind = "potential_collision" →
  filter (issueOn kind port) (Issues (analyze r))
  = filter (λ i, Type_ i = kind)
      (groupIssues (port, default [] (PortMap r !! port))).
Proof.
  intros Hpre Hkind. apply Permutation_short.
  { etrans; [apply length_filter|apply groupIssues_length]. }
  rewrite analyze_perm, collectIssues_stages. cbv zeta.
  rewrite !filter_app.
  rewrite (filter_kind_none kind "parse_error" port (Issues r));
    [|by destruct Hkind as [-> | ->]|done].
  rewrite (filter_kind_none kind "privileged" port (privilegedIssues _));
    [|by destruct Hkind as [-> | ->]|apply privilegedIssues_kind].
  rewrite (filter_kind_none kind "common_port" port (commonIssues _ _));
    [|by destruct Hkind as [-> | ->]|apply commonIssues_kind].
  rewrite !app_nil_r, app_nil_l, filter_issueOn.
  destruct (PortMap r !! port) as [bs|] eqn:Hm; simpl.
  - by rewrite (stage1_port _ _ bs).
  - by rewrite stage1_other_ports.
Qed.

(** C1. For a host port with more than one binding in the port map:
    two or more wildcard bindings, or a wildcard binding together with a
    specific one, give exactly one [collision] issue of severity [error]
    for the port, carrying all bindings of the port; two or more
    specific bindings and no wildcard (whether or not their addresses
    differ) give a [potential_collision] issue of severity [warning] and
    no [collision] issue; a port with exactly one binding gives neither. *)
Theorem analyze_grouping_rules (r : Result) (port : Z)
    (bindings : list PortBinding) :
  parseErrorsOnly (Issues r) →
  PortMap r !! port = Some bindings →
  let out := Issues (analyze r) in
  let wild := length (filter isWild bindings) in
  let spec := length (filter isSpecific bindings) in
  ((1 < length bindings)%nat →
   (2 ≤ wild ∨ (1 ≤ wild ∧ 1 ≤ spec))%nat →
   filter (issueOn "collision" port) out
   = [mkIssue "error" "collision" port
        ("Port " +:+ fmt.d port +:+ " bound by multiple services") bindings])
  ∧ ((1 < length bindings)%nat →
     (2 ≤ spec)%nat → wild = 0%nat →
     filter (issueOn "potential_collision" port) out
     = [mkIssue "warning" "potential_collision" port
          ("Port " +:+ fmt.d port
           +:+ " bound multiple times with specific IPs") bindings]
     ∧ filter (issueOn "collision" port) out = [])
  ∧ (length bindings = 1%nat →
     filter (issueOn "collision" port) out = []
     ∧ filter (issueOn "potential_collision" port) out = []).
Proof.
  intros Hpre Hm out wild spec. unfold out.
  rewrite !analyze_grouping by auto. rewrite Hm. cbn [from_option id].
  rewrite groupIssues_cases. cbv zeta. subst wild spec.
  split; [|split].
  - intros Hlen Hw. repeat case_bool_decide; try lia.
    by rewrite filter_cons_True.
  - intros Hlen Hs Hw. repeat case_bool_decide; try lia.
    rewrite filter_cons_True by done. by rewrite filter_cons_False.
  - intros Hlen. repeat case_bool_decide; try lia; done.
Qed.

Lemma same_address_specific ip bindings :
  ip ≠ "" → ip ≠ "0.0.0.0" →
  Forall (λ b, HostIP b = ip) bindings →
  filter isWild bindings = [] ∧ filter isSpecific bindings = bindings.
Proof.
  intros H1 H2 HF.
  assert (Forall isSpecific bindings) as Hs.
  { eapply Forall_impl; [exact HF|]. intros b Hb. simpl in Hb.
    unfold isSpecific, isWildcard. rewrite Hb.
    by rewrite !bool_decide_false. }
  split.
  - apply filter_none. eapply Forall_impl; [exact Hs|].
    intros b Hb. unfold isSpecific, isWild in *. congruence.
  - by apply filter_all.
Qed.

(** C10. When two or more bindings of a host port all carry the same
    specific address, [analyze] reports a [potential_collision] issue of
    severity [warning] for the port and no [collision] issue: the
    addresses of specific bindings are never compared with each other. *)
Theorem analyze_same_specific_address (r : Result) (port : Z)
    (bindings : list PortBinding) (ip : string) :
  parseErrorsOnly (Issues r) →
  PortMap r !! port = Some bindings →
  (2 ≤ length bindings)%nat →
  ip ≠ "" → ip ≠ "0.0.0.0" →
  Forall (λ b, HostIP b = ip) bindings →
  filter (issueOn "potential_collision" port) (Issues (analyze r))
  = [mkIssue "warning" "potential_collision" port
       ("Port " +:+ fmt.d port +:+ " bound multiple times with specific IPs")
       bindings]
  ∧ filter (issueOn "collision" port) (Issues (analyze r)) = [].
Proof.
  intros Hpre Hm Hlen H1 H2 HF.
  destruct (same_address_specific ip bindings H1 H2 HF) as [Hw Hs].
  rewrite !analyze_grouping by auto. rewrite Hm. cbn [from_option id].
  rewrite groupIssues_cases. cbv zeta. rewrite Hw, Hs. cbn [length].
  repeat case_bool_decide; try lia.
  rewrite filter_cons_True by done. by rewrite filter_cons_False.
Qed.

(** ** The parsing loop of [Scan] *)

Lemma extend_nil r : extend r [] [] = r.
Proof. destruct r. unfold extend. simpl. by rewrite !app_nil_r. Qed.

Lemma extend_extend r bs1 is1 bs2 is2 :
  extend (extend r bs1 is1) bs2 is2 = extend r (bs1 ++ bs2) (is1 ++ is2).
Proof. unfold extend. simpl. by rewrite foldl_app, !app_assoc. Qed.

Lemma appendBinding_extend r b : appendBinding r b = extend r [b] [].
Proof. unfold appendBinding, extend. simpl. by rewrite app_nil_r. Qed.

Lemma withIssues_extend r issues :
  withIssues r (Issues r ++ issues) = extend r [] issues.
Proof. unfold withIssues, extend. simpl. by rewrite app_nil_r. Qed.

Lemma parsePorts_extend serviceName path r ports :
  parsePorts serviceName path r ports
  = extend r (omap (λ port, parsePort port serviceName path) ports) [].
Proof.
  unfold parsePorts. revert r.
  induction ports as [|port ports IH]; intros r; simpl.
  - by rewrite extend_nil.
  - rewrite IH. destruct (parsePort port serviceName path) as [b|]; [|done].
    by rewrite appendBinding_extend, extend_extend.
Qed.

Lemma parseComposeFile_extend fs r path :
  parseComposeFile fs r path
  = (extend r (fileBindings fs path) [],
     match fs path with
     | ReadError err | UnmarshalError err => Some err
     | Decoded _ => None
     end).
Proof.
  unfold parseComposeFile, fileBindings.
  destruct (fs path) as [err|err|Services]; rewrite ?extend_nil; [done..|].
  f_equal. revert r.
  induction Services as [|[name ports] Services IH]; intros r.
  - by rewrite extend_nil.
  - rewrite bind_cons. cbn [foldl fst snd].
    by rewrite IH, parsePorts_extend, extend_extend.
Qed.

Lemma parseFiles_extend fs r files :
  parseFiles fs r files
  = extend r (files ≫= fileBindings fs) (files ≫= fileErrors fs).
Proof.
  unfold parseFiles. revert r.
  induction files as [|file files IH]; intros r.
  - by rewrite extend_nil.
  - rewrite !bind_cons. cbn [foldl].
    rewrite IH, parseComposeFile_extend. unfold fileErrors.
    destruct (fs file) as [err|err|Services];
      rewrite ?withIssues_extend, !extend_extend; simpl;
      by rewrite ?app_nil_r.
Qed.

Lemma Scan_extend fs basePath found :
  Scan fs basePath found
  = (analyze (extend (mkResult basePath found [] ∅ [])
                (found ≫= fileBindings fs) (found ≫= fileErrors fs)),
     None).
Proof. unfold Scan. cbn [ComposeFiles]. by rewrite parseFiles_extend. Qed.

Lemma fileErrors_no_bindings fs files :
  Forall (λ i, Bindings i = []) (files ≫= fileErrors fs).
Proof.
  apply Forall_forall. intros i Hi.
  apply list_elem_of_bind in Hi as (file & Hi & _).
  unfold fileErrors in Hi.
  destruct (fs file); rewrite ?list_elem_of_singleton in Hi;
    try (by subst); by apply elem_of_nil in Hi.
Qed.

Lemma fileErrors_kind fs files :
  parseErrorsOnly (files ≫= fileErrors fs).
Proof.
  apply Forall_forall. intros i Hi.
  apply list_elem_of_bind in Hi as (file & Hi & _).
  unfold fileErrors in Hi.
  destruct (fs file); rewrite ?list_elem_of_singleton in Hi;
    try (by subst); by apply elem_of_nil in Hi.
Qed.

(** *** The port index *)

Lemma groupOf_cons b bindings port :
  groupOf (b :: bindings) port
  = if decide (HostPort b = port) then b :: groupOf bindings port
    else groupOf bindings port.
Proof. unfold groupOf. by rewrite filter_cons. Qed.

Lemma index_lookup bindings (m : gmap Z (list PortBinding)) port :
  foldl (λ m b, <[HostPort b := default [] (m !! HostPort b) ++ [b]]> m)
    m bindings !! port
  = match m !! port with
    | Some l => Some (l ++ groupOf bindings port)
    | None =>
        if decide (groupOf bindings port = []) then None
        else Some (groupOf bindings port)
    end.
Proof.
  revert m. induction bindings as [|b bs IH]; intros m.
  - simpl. destruct (m !! port); [by rewrite app_nil_r|done].
  - cbn [foldl]. rewrite IH, groupOf_cons.
    destruct (decide (HostPort b = port)) as [->|Hne].
    + rewrite lookup_insert_eq.
      destruct (m !! port) as [l|]; simpl.
      * by rewrite <-app_assoc.
      * done.
    + by rewrite lookup_insert_ne.
Qed.

Lemma Scan_PortBindings fs basePath found :
  PortBindings (Scan fs basePath found).1 = found ≫= fileBindings fs.
Proof. by rewrite Scan_extend. Qed.

Lemma Scan_PortMap fs basePath found port :
  let bindings := PortBindings (Scan fs basePath found).1 in
  PortMap (Scan fs basePath found).1 !! port
  = if decide (groupOf bindings port = []) then None
    else Some (groupOf bindings port).
Proof.
  rewrite Scan_extend. cbn. by rewrite index_lookup, lookup_empty.
Qed.

Lemma parsePort_HostPort port service file b :
  parsePort port service file = Some b → HostPort b ≠ 0.
Proof.
  unfold parsePort. destruct (parsePortSwitch port service file) as [b'|];
    [|done].
  case_bool_decide; [done|]. by intros [= <-].
Qed.

Lemma fileBindings_HostPort fs files :
  Forall (λ b, HostPort b ≠ 0) (files ≫= fileBindings fs).
Proof.
  apply Forall_forall. intros b Hb.
  apply list_elem_of_bind in Hb as (file & Hb & _).
  unfold fileBindings in Hb.
  destruct (fs file) as [| |Services]; try by apply elem_of_nil in Hb.
  apply list_elem_of_bind in Hb as ([name ports] & Hb & _).
  apply list_elem_of_omap in Hb as (port & _ & Hb).
  by eapply parsePort_HostPort.
Qed.

(** *** Bindings carried by issues *)

Lemma analyze_bindings (P : PortBinding → Prop) r :
  Forall P (PortBindings r) →
  (∀ port bindings, PortMap r !! port = Some bindings → Forall P bindings) →
  Forall (λ i, Forall P (Bindings i)) (Issues r) →
  Forall (λ i, Forall P (Bindings i)) (Issues (analyze r)).
Proof.
  intros HB HM HI. rewrite analyze_perm, collectIssues_stages. cbv zeta.
  rewrite !Forall_app. split_and!; [done|..].
  - apply Forall_forall. intros i Hi.
    apply list_elem_of_bind in Hi as ([p bs] & Hi & Hg).
    apply elem_of_map_to_list in Hg.
    pose proof (groupIssues_port (p, bs)) as HF.
    rewrite Forall_forall in HF. destruct (HF i Hi) as (_ & -> & _).
    by eapply HM.
  - apply Forall_forall. intros i Hi. unfold privilegedIssues in Hi.
    apply list_elem_of_fmap in Hi as (b & -> & Hb).
    apply list_elem_of_filter in Hb as [_ Hb].
    rewrite Forall_forall in HB. simpl. by rewrite Forall_singleton; apply HB.
  - apply Forall_forall. intros i Hi. unfold commonIssues in Hi.
    apply list_elem_of_bind in Hi as (b & Hi & Hb).
    rewrite Forall_forall in HB.
    destruct (commonPorts !! HostPort b); [|by apply elem_of_nil in Hi].
    destruct (_ && _); [|by apply elem_of_nil in Hi].
    apply list_elem_of_singleton in Hi as ->. simpl.
    by rewrite Forall_singleton; apply HB.
Qed.

(** C2. [parsePort] returns no binding when the declaration resolves to
    host port 0 (the string "0:80", the integer 0, a long-form mapping
    without [published] or with [published] 0); hence no binding of a
    scan result has host port 0, the port map has no entry for port 0,
    and no issue carries a binding with host port 0. *)
Theorem parsePort_rejects_host_port_zero (fs : string → loaded)
    (basePath : string) (found : list string)
    (port : value) (service file : string) :
  let r := (Scan fs basePath found).1 in
  (∀ b, parsePortSwitch port service file = Some b → HostPort b = 0 →
        parsePort port service file = None)
  ∧ parsePort (VString "0:80") service file = None
  ∧ parsePort (VInt 0) service file = None
  ∧ parsePort (VMap [("target", VInt 80)]) service file = None
  ∧ parsePort (VMap [("target", VInt 80); ("published", VInt 0)])
      service file = None
  ∧ parsePort (VMap [("target", VInt 80); ("published", VString "0")])
      service file = None
  ∧ Forall (λ b, HostPort b ≠ 0) (PortBindings r)
  ∧ PortMap r !! 0 = None
  ∧ Forall (λ i, Forall (λ b, HostPort b ≠ 0) (Bindings i)) (Issues r).
Proof.
  intros r. unfold r. rewrite Scan_extend. cbn [fst].
  set (B := found ≫= fileBindings fs).
  set (x := extend _ B _).
  change (PortBindings (analyze x)) with B.
  change (PortMap (analyze x)) with (PortMap x).
  assert (Forall (λ b, HostPort b ≠ 0) B) as HB
    by apply fileBindings_HostPort.
  assert (∀ p, PortMap x !! p
               = if decide (groupOf B p = []) then None
                 else Some (groupOf B p)) as HM.
  { intros p. cbn. by rewrite index_lookup, lookup_empty. }
  assert (∀ p, Forall (λ b, HostPort b ≠ 0) (groupOf B p)) as HG.
  { intros p. apply Forall_forall. intros b Hb.
    apply list_elem_of_filter in Hb as [_ Hb].
    rewrite Forall_forall in HB. by apply HB. }
  split_and!; try done.
  - intros b Hsw Hb. unfold parsePort. rewrite Hsw.
    by rewrite bool_decide_true.
  - rewrite HM. case_decide as Hg; [done|].
    destruct (groupOf B 0) as [|b l] eqn:E; [done|].
    assert (b ∈ groupOf B 0) as Hb by (rewrite E; left).
    apply list_elem_of_filter in Hb as [Hb0 Hb].
    rewrite Forall_forall in HB. by destruct (HB b Hb).
  - apply analyze_bindings.
    + done.
    + intros p bs. rewrite HM. case_decide; [done|]. by intros [= <-].
    + cbn. eapply Forall_impl; [apply (fileErrors_no_bindings fs found)|].
      intros i Hi. simpl in Hi. rewrite Hi. constructor.
Qed.

(** *** Files that fail to load *)

Lemma loadable_fileBindings fs files :
  filter (loads fs) files ≫= fileBindings fs = files ≫= fileBindings fs.
Proof.
  induction files as [|file files IH]; [done|].
  rewrite filter_cons. case_decide as Hl.
  - by rewrite !bind_cons, IH.
  - rewrite bind_cons, IH. unfold loads in Hl. unfold fileBindings at 2.
    by destruct (fs file).
Qed.

Lemma loadable_fileErrors fs files :
  filter (loads fs) files ≫= fileErrors fs = [].
Proof.
  induction files as [|file files IH]; [done|].
  rewrite filter_cons. case_decide as Hl; [|done].
  rewrite bind_cons, IH. unfold loads in Hl. unfold fileErrors.
  by destruct (fs file).
Qed.

Lemma commonIssues_parse_errors errors base bindings :
  parseErrorsOnly errors →
  commonIssues (errors ++ base) bindings = commonIssues base bindings.
Proof.
  intros HE. unfold commonIssues.
  induction bindings as [|b bs IH]; [done|].
  rewrite !bind_cons, IH, alreadyWarned_app.
  rewrite (alreadyWarned_no_collision errors); [done|].
  eapply Forall_impl; [exact HE|]. intros i Hi. simpl in Hi. by rewrite Hi.
Qed.

(** C9. A file that cannot be read or decoded adds a [parse_error]
    issue of severity [warning]; the scan goes on: [Scan] returns a
    result and no error, and the result is that of scanning the files
    that load, with the parse errors added to its issues. *)
Theorem Scan_continues_after_parse_error (fs : string → loaded)
    (basePath : string) (found : list string) :
  let r := (Scan fs basePath found).1 in
  let r' := (Scan fs basePath (filter (loads fs) found)).1 in
  (Scan fs basePath found).2 = None
  ∧ (∀ file err,
       file ∈ found →
       fs file = ReadError err ∨ fs file = UnmarshalError err →
       mkIssue "warning" "parse_error" 0
         ("Failed to parse " +:+ file +:+ ": " +:+ err) [] ∈ Issues r)
  ∧ PortBindings r = PortBindings r'
  ∧ PortMap r = PortMap r'
  ∧ Issues r ≡ₚ (found ≫= fileErrors fs) ++ Issues r'.
Proof.
  intros r r'.
  assert (Issues r ≡ₚ (found ≫= fileErrors fs) ++ Issues r') as HI.
  { unfold r, r'. rewrite !Scan_extend. cbn [fst].
    rewrite !analyze_perm, !collectIssues_stages.
    cbn [Issues PortMap PortBindings extend app].
    rewrite loadable_fileBindings, loadable_fileErrors.
    cbn [app].
    rewrite commonIssues_parse_errors by apply fileErrors_kind.
    done. }
  split_and!; try done.
  - intros file err Hfile Hfs. rewrite HI. apply elem_of_app. left.
    apply list_elem_of_bind. exists file. split; [|done].
    unfold fileErrors. destruct Hfs as [-> | ->]; by left.
  - unfold r, r'. rewrite !Scan_PortBindings.
    by rewrite loadable_fileBindings.
  - unfold r, r'. rewrite !Scan_extend. cbn.
    by rewrite loadable_fileBindings.
Qed.

(** C8. The port map is keyed by the host port alone: the entry of a
    port holds every binding of the scan with that host port, whatever
    its protocol.  "53:53/tcp" and "53:53/udp" of two services keep
    their protocols, share the entry of port 53 and are reported as a
    [collision] on port 53. *)
Theorem grouping_ignores_protocol (fs : string → loaded) (basePath : string)
    (found : list string) (port : Z) :
  let r := (Scan fs basePath found).1 in
  let dns := (Scan sampleFS "." ["dns.yml"]).1 in
  let tcp := mkPortBinding 53 53 "tcp" "" "dns1" "dns.yml" "53:53/tcp" in
  let udp := mkPortBinding 53 53 "udp" "" "dns2" "dns.yml" "53:53/udp" in
  default [] (PortMap r !! port)
  = filter (λ b, HostPort b = port) (PortBindings r)
  ∧ parsePort (VString "53:53/tcp") "dns1" "dns.yml" = Some tcp
  ∧ parsePort (VString "53:53/udp") "dns2" "dns.yml" = Some udp
  ∧ PortMap dns !! 53 = Some [tcp; udp]
  ∧ filter (issueOn "collision" 53) (Issues dns)
    = [mkIssue "error" "collision" 53 "Port 53 bound by multiple services"
         [tcp; udp]].
Proof.
  intros r dns tcp udp. split; [|by vm_compute].
  unfold r. rewrite Scan_PortMap. cbv zeta.
  fold (groupOf (PortBindings (Scan fs basePath found).1) port).
  by case_decide as Hg; [rewrite Hg|].
Qed.

(** C7. The long form [{target: 80, published: 8080, protocol: tcp}]
    and the string "8080:80" of the same service and file give bindings
    that agree on host address, host port, container port, protocol,
    service and file. *)
Theorem long_form_matches_short_form (service file : string) :
  ∃ long short,
    parsePort (VMap [("target", VInt 80); ("published", VInt 8080);
                     ("protocol", VString "tcp")]) service file = Some long
    ∧ parsePort (VString "8080:80") service file = Some short
    ∧ HostIP long = HostIP short
    ∧ HostPort long = HostPort short
    ∧ ContainerPort long = ContainerPort short
    ∧ Protocol long = Protocol short
    ∧ Service long = Service short
    ∧ File long = File short.
Proof.
  eexists _, _. split; [by vm_compute|]. split; [by vm_compute|]. done.
Qed.

(** *** Order of the issue list *)

Lemma StronglySorted_impl {A} (R R' : relation A) l :
  (∀ x y, R x y → R' x y) → StronglySorted R l → StronglySorted R' l.
Proof.
  intros HR. induction 1 as [|x l _ IH HF]; constructor; [done|].
  eapply Forall_impl; [exact HF|]. intros y. apply HR.
Qed.

Lemma StronglySorted_lookup {A} (R : relation A) l i j x y :
  StronglySorted R l → (i < j)%nat →
  l !! i = Some x → l !! j = Some y → R x y.
Proof.
  intros HS. revert i j. induction HS as [|z l _ IH HF]; intros i j Hij Hi Hj.
  - done.
  - destruct j as [|j]; [lia|]. destruct i as [|i]; simpl in *.
    + injection Hi as ->. rewrite Forall_forall in HF. apply HF.
      by eapply list_elem_of_lookup_2.
    + apply (IH i j); [lia|done..].
Qed.

(** C5. After [analyze] the issue list is ordered by severity rank and
    then by port, errors ranking before warnings and warnings before
    infos; an [error] entry therefore stands before every [warning]
    entry, whatever their ports, as for the error on port 80 and the
    warning on port 9000 of the sample file. *)
Theorem analyze_orders_issues (r : Result) :
  let out := Issues (analyze r) in
  StronglySorted keyLe out
  ∧ severityOrder "error" < severityOrder "warning" < severityOrder "info"
  ∧ (∀ (i j : nat) (e w : Issue),
       out !! i = Some e → out !! j = Some w →
       Severity e = "error" → Severity w = "warning" → (i < j)%nat)
  ∧ (λ i, (Severity i, Port i)) <$> Issues (analyze (parsed ["order.yml"]))
    = [("error", 80); ("error", 9090);
       ("warning", 80); ("warning", 80); ("warning", 9000)].
Proof.
  intros out.
  assert (StronglySorted keyLe out) as HS.
  { eapply StronglySorted_impl; [|apply sortSlice_sorted].
    intros x y. by rewrite notAfter_keyLe. }
  split_and!; [done|done|done| |by vm_compute].
  intros i j e w Hi Hj He Hw.
  destruct (decide (i < j)%nat) as [|Hge]; [done|exfalso].
  destruct (decide (i = j)) as [->|Hne].
  - rewrite Hi in Hj. injection Hj as ->. rewrite He in Hw. done.
  - assert (keyLe w e) as Hk.
    { eapply (StronglySorted_lookup keyLe out j i); [done|lia|done..]. }
    unfold keyLe, rank in Hk. rewrite He, Hw in Hk.
    vm_compute in Hk. destruct Hk as [Hk|[Hk _]]; done.
Qed.

(** *** Privileged ports *)

Lemma stage1_kind (groups : list (Z * list PortBinding)) :
  Forall (λ i, Type_ i = "collision" ∨ Type_ i = "potential_collision")
         (groups ≫= groupIssues).
Proof.
  apply Forall_forall. intros i Hi.
  apply list_elem_of_bind in Hi as (g & Hi & _).
  pose proof (groupIssues_port g) as HF. rewrite Forall_forall in HF.
  by destruct (HF i Hi) as (_ & _ & ?).
Qed.

(** C6. Every binding with [0 < hostPort < 1024] gets a [privileged]
    issue of severity [warning] of its own, whatever the collision pass
    found: the privileged issues are, one for one, those of the
    privileged bindings.  "80:80" and "443:443" give one privileged
    issue each; two services on port 80 give two privileged issues next
    to the collision issue of the port. *)
Theorem privileged_issue_per_binding (r : Result) :
  parseErrorsOnly (Issues r) →
  let web := Issues (Scan sampleFS "." ["web.yml"]).1 in
  let shared := Issues (Scan sampleFS "." ["shared.yml"]).1 in
  filter (λ i, Type_ i = "privileged") (Issues (analyze r))
  ≡ₚ (λ b, mkIssue "warning" "privileged" (HostPort b)
            ("Port " +:+ fmt.d (HostPort b)
             +:+ " is privileged (requires root/sudo)") [b])
     <$> filter (λ b, 0 < HostPort b < 1024) (PortBindings r)
  ∧ length (filter (issueOn "privileged" 80) web) = 1%nat
  ∧ length (filter (issueOn "privileged" 443) web) = 1%nat
  ∧ length (filter (λ i, Type_ i = "privileged") web) = 2%nat
  ∧ length (filter (issueOn "privileged" 80) shared) = 2%nat
  ∧ length (filter (issueOn "collision" 80) shared) = 1%nat.
Proof.
  intros Hpre web shared. split; [|by vm_compute].
  rewrite analyze_perm, collectIssues_stages. cbv zeta.
  rewrite !filter_app.
  rewrite (filter_none _ (Issues r)).
  2:{ eapply Forall_impl; [exact Hpre|]. intros i Hi. simpl in Hi.
      by rewrite Hi. }
  rewrite (filter_none _ (_ ≫= groupIssues)).
  2:{ eapply Forall_impl; [apply stage1_kind|]. intros i Hi. simpl in Hi.
      by destruct Hi as [-> | ->]. }
  rewrite (filter_none _ (commonIssues _ _)).
  2:{ eapply Forall_impl; [apply commonIssues_kind|]. intros i Hi.
      simpl in Hi. by rewrite Hi. }
  rewrite (filter_all _ (privilegedIssues _)) by apply privilegedIssues_kind.
  by rewrite app_nil_r.
Qed.

(** *** Common-service ports *)

Lemma commonPorts_table port :
  is_Some (commonPorts !! port)
  ↔ port ∈ [22; 25; 53; 80; 443; 3306; 5432; 6379; 8080; 27017].
Proof.
  split.
  - intros [svc Hsvc]. unfold commonPorts in Hsvc.
    apply elem_of_list_to_map_2 in Hsvc.
    repeat (apply elem_of_cons in Hsvc as [[= -> _]|Hsvc];
            [set_solver|]).
    by apply elem_of_nil in Hsvc.
  - intros Hp.
    repeat (apply elem_of_cons in Hp as [->|Hp]; [by eexists|]).
    by apply elem_of_nil in Hp.
Qed.

Lemma elem_of_commonIssues base bindings i :
  i ∈ commonIssues base bindings
  ↔ ∃ b svc, b ∈ bindings ∧ commonPorts !! HostPort b = Some svc
             ∧ isWildcard b = true ∧ alreadyWarned base b = false
             ∧ i = commonPortIssue b svc.
Proof.
  unfold commonIssues. rewrite list_elem_of_bind. split.
  - intros (b & Hi & Hb). exists b.
    destruct (commonPorts !! HostPort b) as [svc|];
      [|by apply elem_of_nil in Hi].
    destruct (isWildcard b); [|by apply elem_of_nil in Hi].
    destruct (alreadyWarned base b); [by apply elem_of_nil in Hi|].
    apply list_elem_of_singleton in Hi. by exists svc.
  - intros (b & svc & Hb & Hsvc & Hw & Ha & ->). exists b.
    rewrite Hsvc, Hw, Ha. split; [by left|done].
Qed.

(** A collision issue in the final list was put there by the collision
    pass. *)
Lemma analyze_collision r port :
  parseErrorsOnly (Issues r) →
  Exists (issueOn "collision" port) (Issues (analyze r))
  ↔ Exists (issueOn "collision" port)
      (Issues r ++ (map_to_list (PortMap r) ≫= groupIssues)).
Proof.
  intros Hpre. rewrite analyze_perm, collectIssues_stages. cbv zeta.
  rewrite (app_assoc (Issues r)), !Exists_app. split; [|tauto].
  intros [H|[H|H]]; [done|exfalso..]; apply Exists_exists in H
    as (i & Hi & Hk & _).
  - pose proof (privilegedIssues_kind (PortBindings r)) as HF.
    rewrite Forall_forall in HF. specialize (HF i Hi). simpl in HF.
    congruence.
  - pose proof (commonIssues_kind _ _ : Forall _ (commonIssues
      (Issues r ++ map_to_list (PortMap r) ≫= groupIssues) (PortBindings r)))
      as HF.
    rewrite Forall_forall in HF. specialize (HF i Hi). simpl in HF.
    congruence.
Qed.

Lemma analyze_common_port r i :
  parseErrorsOnly (Issues r) →
  Type_ i = "common_port" →
  i ∈ Issues (analyze r)
  ↔ i ∈ commonIssues (Issues r ++ (map_to_list (PortMap r) ≫= groupIssues))
         (PortBindings r).
Proof.
  intros Hpre Hk. rewrite analyze_perm, collectIssues_stages. cbv zeta.
  rewrite !elem_of_app. split; [|tauto].
  intros [H|[H|[H|H]]]; [exfalso..|done].
  - unfold parseErrorsOnly in Hpre. rewrite Forall_forall in Hpre.
    specialize (Hpre i H). simpl in Hpre. congruence.
  - pose proof (stage1_kind (map_to_list (PortMap r))) as HF.
    rewrite Forall_forall in HF. specialize (HF i H). simpl in HF.
    destruct HF; congruence.
  - pose proof (privilegedIssues_kind (PortBindings r)) as HF.
    rewrite Forall_forall in HF. specialize (HF i H). simpl in HF.
    congruence.
Qed.

(** C4. A wildcard binding on a port of the common-ports table gets a
    [common_port] issue of severity [info], unless a [collision] issue
    was reported for its port, in which case the port gets no
    [common_port] issue; a binding with a specific address gets none. *)
Theorem common_port_issues (r : Result) (b : PortBinding) :
  parseErrorsOnly (Issues r) →
  b ∈ PortBindings r →
  HostPort b ∈ [22; 25; 53; 80; 443; 3306; 5432; 6379; 8080; 27017] →
  let out := Issues (analyze r) in
  let collided := Exists (issueOn "collision" (HostPort b)) out in
  (isWildcard b = true → ¬ collided →
   ∃ i, i ∈ out ∧ Severity i = "info" ∧ Type_ i = "common_port"
        ∧ Port i = HostPort b ∧ Bindings i = [b])
  ∧ (collided → Forall (λ i, ¬ issueOn "common_port" (HostPort b) i) out)
  ∧ (isWildcard b = false →
     Forall (λ i, ¬ (Type_ i = "common_port" ∧ Bindings i = [b])) out).
Proof.
  intros Hpre Hb Htable out collided.
  apply commonPorts_table in Htable as [svc Hsvc].
  unfold collided, out. rewrite analyze_collision by done.
  set (base := Issues r ++ _).
  split_and!.
  - intros Hw Hnc. exists (commonPortIssue b svc). split_and!; try done.
    apply analyze_common_port; [done..|].
    apply elem_of_commonIssues. exists b, svc. split_and!; try done.
    apply not_true_iff_false. by rewrite alreadyWarned_Exists.
  - intros Hc. apply Forall_forall. intros i Hi [Hk Hp].
    apply analyze_common_port in Hi; [|done..].
    apply elem_of_commonIssues in Hi as (b' & svc' & _ & _ & _ & Ha & ->).
    simpl in Hp. apply not_true_iff_false in Ha. apply Ha.
    apply alreadyWarned_Exists. by rewrite Hp.
  - intros Hs. apply Forall_forall. intros i Hi [Hk Hbs].
    apply analyze_common_port in Hi; [|done..].
    apply elem_of_commonIssues in Hi as (b' & svc' & _ & _ & Hw & _ & ->).
    simpl in Hbs. injection Hbs as ->. congruence.
Qed.

(** ** The profile overlay *)

Lemma foldl_bind {A B C} (f : A → C → A) (g : B → list C) (a : A) l :
  foldl f a (l ≫= g) = foldl (λ a x, foldl f a (g x)) a l.
Proof.
  revert a. induction l as [|x l IH]; intros a; [done|].
  rewrite bind_cons, foldl_app. cbn [foldl]. by rewrite IH.
Qed.

Lemma foldl_fmap_l {A B C} (f : A → C → A) (h : B → C) (a : A) l :
  foldl f a (h <$> l) = foldl (λ a x, f a (h x)) a l.
Proof. revert a. induction l as [|x l IH]; intros a; simpl; [done|]. by rewrite IH. Qed.

Lemma collectPortServices_entries c names :
  profiles.collectPortServices c names
  = foldl claimEntry ∅ (profileEntries c names).
Proof.
  unfold profiles.collectPortServices, profileEntries.
  rewrite foldl_bind. generalize (∅ : gmap string (list profiles.ServiceInfo)).
  induction names as [|name names IH]; intros m; [done|].
  cbn [foldl]. rewrite <-IH. f_equal.
  destruct (profiles.Profiles c !! name) as [profile|]; [|done].
  rewrite foldl_bind. generalize (profiles.pServices profile). clear.
  intros svcs. revert m.
  induction svcs as [|svc svcs IH]; intros m; [done|].
  cbn [foldl]. rewrite <-IH. f_equal. by rewrite foldl_fmap_l.
Qed.

Lemma claimEntry_lookup entries
    (m : gmap string (list profiles.ServiceInfo)) hostPort :
  hostPort ≠ "" →
  let claims :=
    filter (λ si, profiles.extractHostPort (profiles.siPort si) = hostPort)
      entries in
  foldl claimEntry m entries !! hostPort
  = match m !! hostPort with
    | Some l => Some (l ++ claims)
    | None => if decide (claims = []) then None else Some claims
    end.
Proof.
  intros Hne. cbv zeta. revert m.
  induction entries as [|si entries IH]; intros m.
  - simpl. destruct (m !! hostPort); [by rewrite app_nil_r|done].
  - cbn [foldl]. rewrite IH, filter_cons. unfold claimEntry.
    destruct (decide (profiles.extractHostPort (profiles.siPort si) = hostPort))
      as [Heq|Hneq].
    + rewrite Heq. rewrite bool_decide_true by done.
      rewrite lookup_insert_eq.
      destruct (m !! hostPort) as [l|]; simpl; [by rewrite <-app_assoc|done].
    + case_bool_decide; [|done]. by rewrite lookup_insert_ne.
Qed.

Lemma findConflicts_bind groups :
  profiles.findConflicts groups
  = groups ≫= λ g,
      if bool_decide (1 < length g.2)%nat
      then [profiles.mkPortConflict g.1 g.2] else [].
Proof.
  unfold profiles.findConflicts.
  induction groups as [|g groups IH] using rev_ind; [done|].
  rewrite foldl_snoc, IH, bind_app. simpl. rewrite app_nil_r.
  case_bool_decide; [done|]. by rewrite app_nil_r.
Qed.

Lemma remove_dups_NoDup {A} `{EqDecision A} (l : list A) :
  NoDup l → remove_dups l = l.
Proof.
  induction 1 as [|x l Hx _ IH]; [done|].
  simpl. destruct (decide_rel elem_of x l); [done|]. by rewrite IH.
Qed.

Lemma length_remove_dups {A} `{EqDecision A} (l : list A) :
  (length (remove_dups l) ≤ length l)%nat.
Proof.
  induction l as [|x l IH]; [done|]. simpl.
  destruct (decide_rel elem_of x l); simpl; lia.
Qed.

(** The conflicts reported for a host port are decided by the entry of
    the port in [portServices]. *)
Lemma conflicts_of_port (m : gmap string (list profiles.ServiceInfo)) hostPort :
  filter (λ x, profiles.pcPort x = hostPort)
    (profiles.findConflicts (map_to_list m))
  = match m !! hostPort with
    | Some services =>
        if bool_decide (1 < length services)%nat
        then [profiles.mkPortConflict hostPort services] else []
    | None => []
    end.
Proof.
  rewrite findConflicts_bind.
  set (F := λ g : string * list profiles.ServiceInfo, _).
  assert (∀ m' : gmap string (list profiles.ServiceInfo),
            m' !! hostPort = None →
            filter (λ x, profiles.pcPort x = hostPort) (map_to_list m' ≫= F)
            = []) as Hother.
  { intros m' Hm'. apply elem_of_nil_inv. intros x Hx.
    apply list_elem_of_filter in Hx as [Hp Hx].
    apply list_elem_of_bind in Hx as ([p l] & Hx & Hg).
    apply elem_of_map_to_list in Hg. unfold F in Hx. simpl in Hx.
    case_bool_decide; [|by apply elem_of_nil in Hx].
    apply list_elem_of_singleton in Hx as ->. simpl in Hp. congruence. }
  destruct (m !! hostPort) as [services|] eqn:Hm; [|by apply Hother].
  apply Permutation_short; [case_bool_decide; simpl; lia|].
  rewrite <-(map_to_list_delete m hostPort services Hm).
  rewrite bind_cons, filter_app, Hother by apply lookup_delete_eq.
  rewrite app_nil_r. unfold F. simpl.
  case_bool_decide; [|done]. by rewrite filter_cons_True.
Qed.

Lemma DetectPortConflicts_port c activeProfiles hostPort :
  hostPort ≠ "" →
  let claims :=
    filter (λ si, profiles.extractHostPort (profiles.siPort si) = hostPort)
      (profileEntries c ("default" :: activeProfiles)) in
  filter (λ x, profiles.pcPort x = hostPort)
    (profiles.DetectPortConflicts c activeProfiles)
  = if bool_decide (1 < length claims)%nat
    then [profiles.mkPortConflict hostPort claims] else [].
Proof.
  intros Hne claims. unfold profiles.DetectPortConflicts.
  rewrite conflicts_of_port, collectPortServices_entries.
  rewrite claimEntry_lookup by done. rewrite lookup_empty. fold claims.
  case_decide as Hc; [|done].
  rewrite Hc. by rewrite bool_decide_false by (simpl; lia).
Qed.

Lemma profileScan_issues result c activeProfiles :
  activeProfiles ≠ [] →
  Issues (profileScan result (Some c) activeProfiles)
  = Issues result
    ++ (profileCollisionIssue <$> profiles.DetectPortConflicts c activeProfiles).
Proof.
  intros Hne. unfold profileScan.
  rewrite bool_decide_true by (destruct activeProfiles; [done|simpl; lia]).
  generalize (profiles.DetectPortConflicts c activeProfiles).
  intros l. revert result.
  induction l as [|x l IH]; intros result; simpl.
  - by rewrite app_nil_r.
  - rewrite IH. simpl. by rewrite <-app_assoc.
Qed.

(** C3, as stated, fails: in [twiceConfig] with [dev] active, host port
    9090 is reported although a single active service claims it. *)
Lemma single_service_is_reported :
  ¬ (reported twiceConfig ["dev"] "9090"
     ↔ (1 < length (claimants twiceConfig ["dev"] "9090"))%nat).
Proof.
  intros [Hr _].
  assert (reported twiceConfig ["dev"] "9090") as H.
  { unfold reported. apply Exists_exists. eexists. split.
    - vm_compute. left.
    - reflexivity. }
  apply Hr in H. vm_compute in H. lia.
Qed.

(** C3, amended.  With "default" always counted among the active
    profiles, [DetectPortConflicts] reports a host port once, with all
    its entries, exactly when more than one entry (active profile,
    service, declaration) claims it, and not at all otherwise; addresses
    play no part.  Two active services claiming a port are reported.
    [serviceA] under [dev] and [serviceB] without a profile, both on host
    port 9090, give one [profile_collision] with [dev] active and none
    without a profile flag. *)
Theorem profile_conflicts_count_entries (c : profiles.ProfilesConfig)
    (activeProfiles : list string) (hostPort : string) :
  NoDup ("default" :: activeProfiles) →
  hostPort ≠ "" →
  let claims := claimsOn c activeProfiles hostPort in
  let base := parsed [] in
  (filter (λ x, profiles.pcPort x = hostPort)
     (profiles.DetectPortConflicts c activeProfiles)
   = if bool_decide (1 < length claims)%nat
     then [profiles.mkPortConflict hostPort claims] else [])
  ∧ (reported c activeProfiles hostPort ↔ (1 < length claims)%nat)
  ∧ ((1 < length (claimants c activeProfiles hostPort))%nat →
     reported c activeProfiles hostPort)
  ∧ filter (λ i, Type_ i = "profile_collision")
      (Issues (profileScan base (Some overlayConfig) ["dev"]))
    = [mkIssue "error" "profile_collision" 0
         "Profile conflict on port 9090: multiple services" []]
  ∧ profiles.DetectPortConflicts overlayConfig [] = []
  ∧ Issues (profileScan base (Some overlayConfig) []) = [].
Proof.
  intros Hnd Hne claims base.
  assert (filter (λ x, profiles.pcPort x = hostPort)
            (profiles.DetectPortConflicts c activeProfiles)
          = if bool_decide (1 < length claims)%nat
            then [profiles.mkPortConflict hostPort claims] else []) as Hf.
  { rewrite DetectPortConflicts_port by done. cbv zeta.
    unfold claims, claimsOn. by rewrite (remove_dups_NoDup _ Hnd). }
  assert (reported c activeProfiles hostPort ↔ (1 < length claims)%nat) as Hr.
  { unfold reported. rewrite Exists_exists. split.
    - intros (x & Hx & Hp).
      assert (x ∈ filter (λ x, profiles.pcPort x = hostPort)
                (profiles.DetectPortConflicts c activeProfiles)) as Hin
        by by apply list_elem_of_filter.
      rewrite Hf in Hin. case_bool_decide; [done|by apply elem_of_nil in Hin].
    - intros Hlen. exists (profiles.mkPortConflict hostPort claims).
      rewrite bool_decide_true in Hf by done.
      assert (profiles.mkPortConflict hostPort claims
              ∈ filter (λ x, profiles.pcPort x = hostPort)
                  (profiles.DetectPortConflicts c activeProfiles)) as Hin
        by (rewrite Hf; left).
      apply list_elem_of_filter in Hin as [? ?]. done. }
  split_and!; [done|done| |by vm_compute..].
  intros Hlen. apply Hr. unfold claimants in Hlen. fold claims in Hlen.
  pose proof (length_remove_dups (profiles.siService <$> claims)) as Hle.
  rewrite length_fmap in Hle. lia.
Qed.

(** ** The statements at the sample inputs *)

Lemma analyze_grouping_rules_witness :
  let web1 := mkPortBinding 8080 80 "tcp" "" "web1" "collide.yml" "8080:80" in
  let web2 := mkPortBinding 8080 80 "tcp" "" "web2" "collide.yml" "8080:80" in
  parseErrorsOnly (Issues (parsed ["collide.yml"]))
  ∧ PortMap (parsed ["collide.yml"]) !! 8080 = Some [web1; web2]
  ∧ filter (issueOn "collision" 8080)
      (Issues (analyze (parsed ["collide.yml"])))
    = [mkIssue "error" "collision" 8080
         "Port 8080 bound by multiple services" [web1; web2]].
Proof.
  intros web1 web2.
  assert (parseErrorsOnly (Issues (parsed ["collide.yml"]))) as H1
    by (vm_compute; constructor).
  assert (PortMap (parsed ["collide.yml"]) !! 8080 = Some [web1; web2]) as H2
    by (vm_compute; reflexivity).
  split; [exact H1|]. split; [exact H2|].
  destruct (analyze_grouping_rules _ _ _ H1 H2) as [Hc _].
  apply Hc; vm_compute; lia.
Defined.

Lemma parsePort_rejects_host_port_zero_witness :
  parsePortSwitch (VString "0:80") "zeroport" "zero.yml"
  = Some (mkPortBinding 0 80 "tcp" "" "zeroport" "zero.yml" "0:80")
  ∧ parsePort (VString "0:80") "zeroport" "zero.yml" = None
  ∧ Forall (λ b, HostPort b ≠ 0)
      (PortBindings (Scan sampleFS "." ["zero.yml"]).1).
Proof.
  destruct (parsePort_rejects_host_port_zero sampleFS "." ["zero.yml"]
              (VString "0:80") "zeroport" "zero.yml")
    as (Hz & _ & _ & _ & _ & _ & HB & _).
  assert (parsePortSwitch (VString "0:80") "zeroport" "zero.yml"
          = Some (mkPortBinding 0 80 "tcp" "" "zeroport" "zero.yml" "0:80"))
    as Hsw by (vm_compute; reflexivity).
  split; [exact Hsw|]. split; [|exact HB].
  apply (Hz _ Hsw). reflexivity.
Defined.

Lemma profile_conflicts_count_entries_witness :
  NoDup ["default"; "dev"]
  ∧ "9090" ≠ ""
  ∧ reported overlayConfig ["dev"] "9090".
Proof.
  assert (NoDup ["default"; "dev"]) as H1 by compute_done.
  assert ("9090" ≠ "") as H2 by discriminate.
  split; [exact H1|]. split; [exact H2|].
  destruct (profile_conflicts_count_entries overlayConfig ["dev"] "9090" H1 H2)
    as (_ & Hr & _).
  apply Hr. vm_compute. lia.
Defined.

Lemma common_port_issues_witness :
  let db := mkPortBinding 5432 5432 "tcp" "" "db" "common.yml" "5432:5432" in
  parseErrorsOnly (Issues (parsed ["common.yml"]))
  ∧ db ∈ PortBindings (parsed ["common.yml"])
  ∧ ∃ i, i ∈ Issues (analyze (parsed ["common.yml"]))
         ∧ Severity i = "info" ∧ Type_ i = "common_port"
         ∧ Port i = 5432 ∧ Bindings i = [db].
Proof.
  intros db.
  assert (parseErrorsOnly (Issues (parsed ["common.yml"]))) as H1
    by (vm_compute; constructor).
  assert (db ∈ PortBindings (parsed ["common.yml"])) as H2
    by (vm_compute; left).
  assert (HostPort db
          ∈ [22; 25; 53; 80; 443; 3306; 5432; 6379; 8080; 27017]) as H3
    by (vm_compute; do 6 right; left).
  split; [exact H1|]. split; [exact H2|].
  destruct (common_port_issues _ db H1 H2 H3) as (Hc & _ & _).
  apply Hc; [reflexivity|].
  intros Hex. apply Exists_exists in Hex as (i & Hi & Hk & Hp).
  vm_compute in Hi.
  repeat (apply elem_of_cons in Hi as [->|Hi]; [discriminate|]).
  by apply elem_of_nil in Hi.
Defined.

Lemma analyze_orders_issues_witness :
  ∃ e w,
    Issues (analyze (parsed ["order.yml"])) !! 0%nat = Some e
    ∧ Issues (analyze (parsed ["order.yml"])) !! 4%nat = Some w
    ∧ Severity e = "error" ∧ Port e = 80
    ∧ Severity w = "warning" ∧ Port w = 9000
    ∧ (0 < 4)%nat.
Proof.
  destruct (analyze_orders_issues (parsed ["order.yml"])) as (_ & _ & Hlt & _).
  eexists _, _.
  assert (Issues (analyze (parsed ["order.yml"])) !! 0%nat = Some _) as H0
    by (vm_compute; reflexivity).
  assert (Issues (analyze (parsed ["order.yml"])) !! 4%nat = Some _) as H4
    by (vm_compute; reflexivity).
  split; [exact H0|]. split; [exact H4|].
  split; [reflexivity|]. split; [reflexivity|].
  split; [reflexivity|]. split; [reflexivity|].
  apply (Hlt _ _ _ _ H0 H4); reflexivity.
Defined.

Lemma privileged_issue_per_binding_witness :
  parseErrorsOnly (Issues (parsed ["web.yml"]))
  ∧ filter (λ i, Type_ i = "privileged")
      (Issues (analyze (parsed ["web.yml"])))
    ≡ₚ [mkIssue "warning" "privileged" 80
          "Port 80 is privileged (requires root/sudo)"
          [mkPortBinding 80 80 "tcp" "" "web" "web.yml" "80:80"];
        mkIssue "warning" "privileged" 443
          "Port 443 is privileged (requires root/sudo)"
          [mkPortBinding 443 443 "tcp" "" "web" "web.yml" "443:443"]].
Proof.
  assert (parseErrorsOnly (Issues (parsed ["web.yml"]))) as H1
    by (vm_compute; constructor).
  split; [exact H1|].
  destruct (privileged_issue_per_binding _ H1) as [Hp _].
  exact Hp.
Defined.

Lemma Scan_continues_after_parse_error_witness :
  "broken.yml" ∈ ["broken.yml"; "collide.yml"]
  ∧ sampleFS "broken.yml"
    = UnmarshalError "yaml: did not find expected node content"
  ∧ mkIssue "warning" "parse_error" 0
      "Failed to parse broken.yml: yaml: did not find expected node content"
      []
    ∈ Issues (Scan sampleFS "." ["broken.yml"; "collide.yml"]).1
  ∧ length (PortBindings (Scan sampleFS "." ["broken.yml"; "collide.yml"]).1)
    = 2%nat.
Proof.
  assert ("broken.yml" ∈ ["broken.yml"; "collide.yml"]) as H1 by left.
  assert (sampleFS "broken.yml"
          = UnmarshalError "yaml: did not find expected node content") as H2
    by reflexivity.
  destruct (Scan_continues_after_parse_error sampleFS "."
              ["broken.yml"; "collide.yml"]) as (_ & He & HB & _).
  split; [exact H1|]. split; [exact H2|]. split.
  - apply (He _ _ H1). right. exact H2.
  - rewrite HB. reflexivity.
Defined.

Lemma analyze_same_specific_address_witness :
  let a := mkPortBinding 8080 80 "tcp" "127.0.0.1" "a" "loopback.yml"
             "127.0.0.1:8080:80" in
  let b := mkPortBinding 8080 80 "tcp" "127.0.0.1" "b" "loopback.yml"
             "127.0.0.1:8080:80" in
  PortMap (parsed ["loopback.yml"]) !! 8080 = Some [a; b]
  ∧ filter (issueOn "potential_collision" 8080)
      (Issues (analyze (parsed ["loopback.yml"])))
    = [mkIssue "warning" "potential_collision" 8080
         "Port 8080 bound multiple times with specific IPs" [a; b]]
  ∧ filter (issueOn "collision" 8080)
      (Issues (analyze (parsed ["loopback.yml"]))) = [].
Proof.
  intros a b.
  assert (parseErrorsOnly (Issues (parsed ["loopback.yml"]))) as H1
    by (vm_compute; constructor).
  assert (PortMap (parsed ["loopback.yml"]) !! 8080 = Some [a; b]) as H2
    by (vm_compute; reflexivity).
  assert (2 ≤ length [a; b])%nat as H3 by (simpl; lia).
  assert ("127.0.0.1" ≠ "") as H4 by discriminate.
  assert ("127.0.0.1" ≠ "0.0.0.0") as H5 by discriminate.
  assert (Forall (λ x, HostIP x = "127.0.0.1") [a; b]) as H6
    by (repeat constructor).
  split; [exact H2|].
  exact (analyze_same_specific_address _ _ _ _ H1 H2 H3 H4 H5 H6).
Defined.

(** ** Further scenarios *)

(** Two distinct specific addresses on one port: a potential collision,
    not a collision. *)
Example multihome_is_potential_collision :
  (λ i, (Severity i, Type_ i, Port i))
    <$> Issues (Scan sampleFS "." ["multihome.yml"]).1
  = [("warning", "potential_collision", 8080)].
Proof. by vm_compute. Qed.

(** Port 8080 is in the common-ports table, but once the collision is
    reported no [common_port] issue is added for it; the single wildcard
    binding on 5432 gets one, the specific binding on 6379 none. *)
Example common_port_after_collision :
  (λ i, (Severity i, Type_ i, Port i))
    <$> Issues (Scan sampleFS "." ["common.yml"]).1
  = [("error", "collision", 8080); ("info", "common_port", 5432)].
Proof. by vm_compute. Qed.

(** A service without accepted declarations gives no bindings and no
    issues. *)
Example zero_port_is_skipped :
  Original <$> PortBindings (Scan sampleFS "." ["zero.yml"]).1 = ["3000"]
  ∧ Issues (Scan sampleFS "." ["zero.yml"]).1 = [].
Proof. by vm_compute. Qed.

(** A file that cannot be read still leaves a result. *)
Example missing_file :
  Scan sampleFS "." ["missing.yml"]
  = (mkResult "." ["missing.yml"] [] ∅
       [mkIssue "warning" "parse_error" 0
          "Failed to parse missing.yml: no such file or directory" []],
     None).
Proof. by vm_compute. Qed.

(** [extractHostPort] on the shapes its comment lists, and on shapes it
    does not expect. *)
Example extractHostPort_shapes :
  profiles.extractHostPort "8080:80" = "8080"
  ∧ profiles.extractHostPort "127.0.0.1:8080:80" = "8080"
  ∧ profiles.extractHostPort "8080" = "8080"
  ∧ profiles.extractHostPort "8080/udp" = "8080"
  ∧ profiles.extractHostPort "127.0.0.1:8080" = "127.0.0.1"
  ∧ profiles.extractHostPort "[::1]:8080:80" = "[::1]:8080:80".
Proof. by vm_compute. Qed.

(** * Further properties *)

(** ** What [Scan] can report *)

Ltac solve_elem_of :=
  repeat first [apply list_elem_of_here | apply list_elem_of_further].

Lemma groupIssues_kinds g : Forall knownKind (groupIssues g).
Proof.
  destruct g as [p bs]. rewrite groupIssues_cases. simpl.
  unfold knownKind, issueKinds.
  repeat case_bool_decide; rewrite ?Forall_singleton; simpl;
    try apply Forall_nil_2; solve_elem_of.
Qed.

Lemma collectIssues_kinds r :
  Forall knownKind (Issues r) → Forall knownKind (collectIssues r).
Proof.
  intros Hpre. rewrite collectIssues_stages. cbv zeta.
  rewrite !Forall_app. split_and!; [done|..].
  - apply Forall_forall. intros i Hi.
    apply list_elem_of_bind in Hi as (g & Hi & _).
    pose proof (groupIssues_kinds g) as HF. rewrite Forall_forall in HF.
    by apply HF.
  - apply Forall_forall. intros i Hi. unfold privilegedIssues in Hi.
    apply list_elem_of_fmap in Hi as (b & -> & _).
    unfold knownKind, issueKinds. simpl. solve_elem_of.
  - apply Forall_forall. intros i Hi.
    apply elem_of_commonIssues in Hi as (b & svc & _ & _ & _ & _ & ->).
    unfold knownKind, issueKinds. simpl. solve_elem_of.
Qed.

Lemma fileErrors_kinds fs files : Forall knownKind (files ≫= fileErrors fs).
Proof.
  apply Forall_forall. intros i Hi.
  apply list_elem_of_bind in Hi as (file & Hi & _).
  unfold fileErrors in Hi. unfold knownKind, issueKinds.
  destruct (fs file); rewrite ?list_elem_of_singleton in Hi;
    try (subst; simpl; solve_elem_of); by apply elem_of_nil in Hi.
Qed.

(** X1. Every issue of a scan result has one of five pairs of severity
    and type; the only issues of severity [error] are the collisions. *)
Theorem Scan_issue_kinds (fs : string → loaded) (basePath : string)
    (found : list string) :
  Forall (λ i, (Severity i, Type_ i) ∈ issueKinds
               ∧ (Severity i = "error" ↔ Type_ i = "collision"))
         (Issues (Scan fs basePath found).1).
Proof.
  rewrite Scan_extend. cbn [fst]. rewrite analyze_perm.
  eapply Forall_impl.
  - apply collectIssues_kinds. cbn [Issues extend app].
    apply fileErrors_kinds.
  - intros i Hk. split; [exact Hk|].
    unfold knownKind, issueKinds in Hk.
    repeat (apply elem_of_cons in Hk as [[= -> ->]|Hk]; [done|]).
    by apply elem_of_nil in Hk.
Qed.

(** X2. Every binding attached to an issue of a scan result is a binding
    of the result, and its host port is the port of the issue. *)
Theorem Scan_issue_bindings (fs : string → loaded) (basePath : string)
    (found : list string) :
  let r := (Scan fs basePath found).1 in
  Forall (λ i, Forall (λ b, b ∈ PortBindings r ∧ HostPort b = Port i)
                 (Bindings i))
         (Issues r).
Proof.
  intros r. unfold r. rewrite Scan_extend. cbn [fst].
  set (B := found ≫= fileBindings fs).
  set (x := extend _ B _).
  change (PortBindings (analyze x)) with B.
  assert (∀ p, PortMap x !! p
               = if decide (groupOf B p = []) then None
                 else Some (groupOf B p)) as HM.
  { intros p. cbn. by rewrite index_lookup, lookup_empty. }
  rewrite analyze_perm, collectIssues_stages. cbv zeta.
  rewrite !Forall_app. split_and!.
  - cbn [Issues extend app].
    eapply Forall_impl; [apply (fileErrors_no_bindings fs found)|].
    intros i Hi. simpl in Hi. rewrite Hi. constructor.
  - apply Forall_forall. intros i Hi.
    apply list_elem_of_bind in Hi as ([p bs] & Hi & Hg).
    apply elem_of_map_to_list in Hg. rewrite HM in Hg.
    case_decide; [done|]. injection Hg as <-.
    pose proof (groupIssues_port (p, groupOf B p)) as HF.
    rewrite Forall_forall in HF. destruct (HF i Hi) as (-> & -> & _).
    simpl. apply Forall_forall. intros b Hb.
    by apply list_elem_of_filter in Hb as [? ?].
  - apply Forall_forall. intros i Hi. unfold privilegedIssues in Hi.
    apply list_elem_of_fmap in Hi as (b & -> & Hb).
    apply list_elem_of_filter in Hb as [_ Hb].
    simpl. by rewrite Forall_singleton.
  - apply Forall_forall. intros i Hi.
    apply elem_of_commonIssues in Hi as (b & svc & Hb & _ & _ & _ & ->).
    simpl. by rewrite Forall_singleton.
Qed.

(** ** When a grouping issue is reported *)

Lemma groupIssues_sound port bindings i :
  i ∈ groupIssues (port, bindings) →
  (2 ≤ length bindings)%nat
  ∧ ((Type_ i = "collision" ∧ Severity i = "error"
      ∧ Exists isWild bindings)
     ∨ (Type_ i = "potential_collision" ∧ Severity i = "warning"
        ∧ Forall isSpecific bindings)).
Proof.
  rewrite groupIssues_cases. cbv zeta.
  case_bool_decide as Hlen; [|by intros ?%elem_of_nil].
  intros Hi. split; [lia|]. revert Hi.
  case_bool_decide as Hw; [|case_bool_decide as Hs].
  - intros ->%list_elem_of_singleton. left. split_and!; [done..|].
    destruct (filter isWild bindings) as [|b l] eqn:E; [simpl in Hw; lia|].
    assert (b ∈ filter isWild bindings) as Hb by (rewrite E; left).
    apply list_elem_of_filter in Hb as [? ?].
    apply Exists_exists. by exists b.
  - intros ->%list_elem_of_singleton. right. split_and!; [done..|].
    assert (filter isWild bindings = []) as E.
    { destruct (filter isWild bindings); [done|].
      exfalso. apply Hw. simpl. right. split; lia. }
    apply Forall_forall. intros b Hb.
    destruct (isWildcard b) eqn:Hwb; [|done].
    exfalso. eapply (filter_nil_not_elem_of isWild); done.
  - by intros ?%elem_of_nil.
Qed.

(** X3. [analyze] reports a collision for a port only if the port has
    two or more bindings and one of them is a wildcard binding, and a
    potential collision only if it has two or more bindings and none is;
    the issue carries the bindings of the port. *)
Theorem analyze_grouping_sound (r : Result) (i : Issue) :
  parseErrorsOnly (Issues r) →
  i ∈ Issues (analyze r) →
  Type_ i = "collision" ∨ Type_ i = "potential_collision" →
  PortMap r !! Port i = Some (Bindings i)
  ∧ (2 ≤ length (Bindings i))%nat
  ∧ (Type_ i = "collision" →
     Severity i = "error" ∧ Exists isWild (Bindings i))
  ∧ (Type_ i = "potential_collision" →
     Severity i = "warning" ∧ Forall isSpecific (Bindings i)).
Proof.
  intros Hpre Hi Hkind.
  assert (i ∈ filter (issueOn (Type_ i) (Port i)) (Issues (analyze r))) as Hf
    by (by apply list_elem_of_filter).
  rewrite analyze_grouping in Hf by done.
  apply list_elem_of_filter in Hf as [_ Hg].
  pose proof (groupIssues_port (Port i, default [] (PortMap r !! Port i)))
    as HF.
  rewrite Forall_forall in HF. destruct (HF i Hg) as (_ & Hb & _).
  simpl in Hb.
  apply groupIssues_sound in Hg as [Hlen Hcases]. rewrite <-Hb in *.
  destruct (PortMap r !! Port i) as [bs|] eqn:Hm; simpl in Hb;
    [|rewrite Hb in Hlen; simpl in Hlen; lia].
  subst bs. split_and!; [done..| |].
  - intros Hc. destruct Hcases as [(_ & ? & ?)|(Hp & _)]; [done|congruence].
  - intros Hc. destruct Hcases as [(Hp & _)|(_ & ? & ?)]; [congruence|done].
Qed.

Lemma analyze_grouping_sound_witness :
  let i := mkIssue "error" "collision" 8080
             "Port 8080 bound by multiple services"
             [mkPortBinding 8080 80 "tcp" "" "web1" "collide.yml" "8080:80";
              mkPortBinding 8080 80 "tcp" "" "web2" "collide.yml" "8080:80"] in
  i ∈ Issues (analyze (parsed ["collide.yml"]))
  ∧ PortMap (parsed ["collide.yml"]) !! 8080 = Some (Bindings i)
  ∧ Exists isWild (Bindings i).
Proof.
  intros i.
  assert (parseErrorsOnly (Issues (parsed ["collide.yml"]))) as H1
    by (vm_compute; constructor).
  assert (i ∈ Issues (analyze (parsed ["collide.yml"]))) as H2
    by (vm_compute; left).
  assert (Type_ i = "collision" ∨ Type_ i = "potential_collision") as H3
    by (left; reflexivity).
  destruct (analyze_grouping_sound _ i H1 H2 H3) as (Hm & _ & Hc & _).
  split; [exact H2|]. split; [exact Hm|].
  destruct Hc as [_ Hw]; [reflexivity|exact Hw].
Defined.

(** ** When a scan is clean *)

Lemma length_bySpecificity bindings :
  (length (filter isWild bindings) + length (filter isSpecific bindings)
   = length bindings)%nat.
Proof.
  induction bindings as [|b bs IH]; [done|].
  rewrite !filter_cons.
  destruct (decide (isWild b)) as [Hw|Hw], (decide (isSpecific b)) as [Hs|Hs];
    unfold isWild, isSpecific in Hw, Hs; simpl; try lia; try congruence.
  by destruct (isWildcard b).
Qed.

Lemma groupIssues_nil port bindings :
  groupIssues (port, bindings) = [] ↔ (length bindings ≤ 1)%nat.
Proof.
  rewrite groupIssues_cases. cbv zeta.
  pose proof (length_bySpecificity bindings).
  repeat case_bool_decide; split; intros; try done; lia.
Qed.

Lemma bind_nil_iff {A B} (f : A → list B) l :
  l ≫= f = [] ↔ Forall (λ x, f x = []) l.
Proof.
  induction l as [|x l IH]; [by split; [constructor|]|].
  rewrite bind_cons, Forall_cons, <-IH. split.
  - by intros [? ?]%app_eq_nil.
  - by intros [-> ->].
Qed.

Lemma NoDup_groupOf bindings :
  NoDup (HostPort <$> bindings)
  ↔ ∀ port, (length (groupOf bindings port) ≤ 1)%nat.
Proof.
  induction bindings as [|b bs IH].
  - split; [intros; simpl; lia|intros; constructor].
  - rewrite fmap_cons, NoDup_cons, IH. split.
    + intros [Hb Hbs] port. rewrite groupOf_cons.
      case_decide as Hp; [|apply Hbs]. subst port.
      assert (groupOf bs (HostPort b) = []) as ->; [|simpl; lia].
      apply elem_of_nil_inv. intros b' Hb'.
      apply list_elem_of_filter in Hb' as [Heq Hb'].
      apply Hb. rewrite <-Heq. by apply list_elem_of_fmap_2.
    + intros H. split.
      * intros (b' & Heq & Hb')%list_elem_of_fmap.
        specialize (H (HostPort b)). rewrite groupOf_cons in H.
        rewrite decide_True in H by done.
        assert (b' ∈ groupOf bs (HostPort b)) as Hin
          by (by apply list_elem_of_filter).
        destruct (groupOf bs (HostPort b)); [by apply elem_of_nil in Hin|].
        simpl in H. lia.
      * intros port. specialize (H port). rewrite groupOf_cons in H.
        case_decide; simpl in H; lia.
Qed.

Lemma fileErrors_nil fs files :
  files ≫= fileErrors fs = [] ↔ Forall (loads fs) files.
Proof.
  rewrite bind_nil_iff. apply Forall_iff. intros file.
  unfold fileErrors, loads. by destruct (fs file).
Qed.

Lemma commonIssues_nil bindings :
  commonIssues [] bindings = []
  ↔ Forall (λ b, isWildcard b = true →
                 HostPort b ∉ [22; 25; 53; 80; 443; 3306; 5432; 6379; 8080;
                               27017])
           bindings.
Proof.
  unfold commonIssues. rewrite bind_nil_iff. apply Forall_iff. intros b.
  rewrite <-commonPorts_table. simpl.
  destruct (commonPorts !! HostPort b) as [svc|] eqn:Hsvc;
    destruct (isWildcard b); simpl; split; intros H; try done.
  exfalso. apply H; [done|by eexists].
Qed.

(** X4. A scan reports no issue at all exactly when every file found
    loads, no two bindings share a host port, no host port lies strictly
    between 0 and 1024, and no wildcard binding is on a port of the
    common-ports table. *)
Theorem Scan_without_issues (fs : string → loaded) (basePath : string)
    (found : list string) :
  let r := (Scan fs basePath found).1 in
  HasIssues r = false
  ↔ Forall (loads fs) found
    ∧ NoDup (HostPort <$> PortBindings r)
    ∧ Forall (λ b, ¬ (0 < HostPort b < 1024)) (PortBindings r)
    ∧ Forall (λ b, isWildcard b = true →
                   HostPort b ∉ [22; 25; 53; 80; 443; 3306; 5432; 6379; 8080;
                                 27017])
             (PortBindings r).
Proof.
  intros r. unfold r, HasIssues. rewrite Scan_extend. cbn [fst].
  set (B := found ≫= fileBindings fs).
  set (E := found ≫= fileErrors fs).
  set (x := extend _ B E).
  change (PortBindings (analyze x)) with B.
  assert (∀ p, PortMap x !! p
               = if decide (groupOf B p = []) then None
                 else Some (groupOf B p)) as HM.
  { intros p. cbn. by rewrite index_lookup, lookup_empty. }
  assert (bool_decide (0 < length (Issues (analyze x)))%nat = false
          ↔ collectIssues x = []) as ->.
  { rewrite bool_decide_eq_false. rewrite analyze_perm.
    destruct (collectIssues x); simpl; split; intros; try done; lia. }
  rewrite collectIssues_stages. cbv zeta.
  change (Issues x) with E. change (PortBindings x) with B.
  assert (map_to_list (PortMap x) ≫= groupIssues = []
          ↔ NoDup (HostPort <$> B)) as Hstage1.
  { rewrite bind_nil_iff, NoDup_groupOf, Forall_forall. split.
    - intros H p. destruct (decide (groupOf B p = [])) as [->|Hne];
        [simpl; lia|].
      apply groupIssues_nil with (port := p). apply (H (p, groupOf B p)).
      apply elem_of_map_to_list. rewrite HM. by rewrite decide_False.
    - intros H [p bs] Hg. apply elem_of_map_to_list in Hg.
      rewrite HM in Hg. case_decide; [done|]. injection Hg as <-.
      apply groupIssues_nil, H. }
  split.
  - intros (HE & (H1 & (HP & HC)%app_eq_nil)%app_eq_nil)%app_eq_nil.
    rewrite H1, app_nil_r in HC.
    rewrite <-(app_nil_r E), commonIssues_parse_errors in HC
      by apply fileErrors_kind.
    split_and!.
    + by apply fileErrors_nil.
    + by apply Hstage1.
    + unfold privilegedIssues in HP. apply fmap_nil_inv in HP.
      apply Forall_forall. intros b Hb Hpriv.
      by eapply (filter_nil_not_elem_of _ B b HP).
    + by apply commonIssues_nil.
  - intros (HE & HN & HP & HC).
    apply fileErrors_nil in HE. apply Hstage1 in HN.
    apply commonIssues_nil in HC. fold E in HE.
    rewrite HE, HN. simpl. rewrite HC, app_nil_r.
    unfold privilegedIssues. by rewrite (filter_none _ B).
Qed.

(** ** The order of the report does not depend on Go's choices *)

Lemma keyLe_sortKey a b : keyLe a b ↔ sortKeyLe (sortKey a) (sortKey b).
Proof. done. Qed.

Global Instance sortKeyLe_antisymm : AntiSymm (=) sortKeyLe.
Proof.
  intros [a1 a2] [b1 b2]. unfold sortKeyLe. simpl. intros H1 H2.
  f_equal; lia.
Qed.

Lemma sortSlice_keyLe issues : StronglySorted keyLe (sortSlice issues).
Proof.
  eapply StronglySorted_impl; [|apply sortSlice_sorted].
  intros x y. by rewrite notAfter_keyLe.
Qed.

Lemma analyze_sorted r : StronglySorted keyLe (Issues (analyze r)).
Proof. apply sortSlice_keyLe. Qed.

(** X5. In whatever order the port map is ranged over, and whichever
    ordered permutation [sort.Slice] returns, the severity ranks and
    ports read down the final issue list are the same, and the list holds
    the same issues. *)
Theorem analyze_order_determined (r : Result)
    (groups : list (Z * list PortBinding)) (out : list Issue) :
  groups ≡ₚ map_to_list (PortMap r) →
  out ≡ₚ collectIssuesIn groups r →
  StronglySorted keyLe out →
  out ≡ₚ Issues (analyze r)
  ∧ sortKey <$> out = sortKey <$> Issues (analyze r).
Proof.
  intros Hg Hout Hsorted.
  assert (out ≡ₚ Issues (analyze r)) as HP.
  { rewrite Hout, analyze_perm. unfold collectIssues.
    by apply collectIssuesIn_order. }
  split; [done|].
  apply (StronglySorted_unique sortKeyLe).
  - eapply StronglySorted_fmap; [|exact Hsorted]. by intros x y.
  - eapply StronglySorted_fmap; [|apply analyze_sorted]. by intros x y.
  - by rewrite HP.
Qed.

Lemma analyze_order_determined_witness :
  let r := parsed ["order.yml"] in
  let groups := reverse (map_to_list (PortMap r)) in
  let out := sortSlice (collectIssuesIn groups r) in
  groups ≡ₚ map_to_list (PortMap r)
  ∧ sortKey <$> out = sortKey <$> Issues (analyze r).
Proof.
  intros r groups out.
  assert (groups ≡ₚ map_to_list (PortMap r)) as H1
    by apply reverse_Permutation.
  assert (out ≡ₚ collectIssuesIn groups r) as H2
    by apply merge_sort_Permutation.
  assert (StronglySorted keyLe out) as H3 by apply sortSlice_keyLe.
  split; [exact H1|].
  exact (proj2 (analyze_order_determined r groups out H1 H2 H3)).
Defined.

(** ** [GroupedByFile] *)

Lemma GroupedByFile_lookup r file :
  GroupedByFile r !! file
  = if decide (filter (λ b, File b = file) (PortBindings r) = []) then None
    else Some (filter (λ b, File b = file) (PortBindings r)).
Proof.
  unfold GroupedByFile.
  assert (∀ (m : gmap string (list PortBinding)) bindings,
    foldl (λ grouped b,
             <[File b := default [] (grouped !! File b) ++ [b]]> grouped)
          m bindings !! file
    = match m !! file with
      | Some l => Some (l ++ filter (λ b, File b = file) bindings)
      | None =>
          if decide (filter (λ b, File b = file) bindings = []) then None
          else Some (filter (λ b, File b = file) bindings)
      end) as H.
  { intros m bindings. revert m.
    induction bindings as [|b bs IH]; intros m.
    - simpl. destruct (m !! file); [by rewrite app_nil_r|done].
    - cbn [foldl]. rewrite IH, filter_cons.
      destruct (decide (File b = file)) as [<-|Hne].
      + rewrite lookup_insert_eq.
        destruct (m !! File b); simpl; [by rewrite <-app_assoc|done].
      + by rewrite lookup_insert_ne. }
  by rewrite H, lookup_empty.
Qed.

Lemma parsePort_owner port service file b :
  parsePort port service file = Some b → Service b = service ∧ File b = file.
Proof.
  unfold parsePort.
  destruct (parsePortSwitch port service file) as [b'|] eqn:Hsw; [|done].
  case_bool_decide; [done|]. intros [= <-]. revert Hsw.
  unfold parsePortSwitch. destruct port as [v|v|v|]; [| | |done].
  - destruct (portRegex v); [|done]. by intros [= <-].
  - by intros [= <-].
  - by intros [= <-].
Qed.

Lemma fileBindings_File fs path :
  Forall (λ b, File b = path) (fileBindings fs path).
Proof.
  apply Forall_forall. intros b Hb. unfold fileBindings in Hb.
  destruct (fs path) as [| |Services]; try by apply elem_of_nil in Hb.
  apply list_elem_of_bind in Hb as ([name ports] & Hb & _).
  apply list_elem_of_omap in Hb as (port & _ & Hb).
  by apply parsePort_owner in Hb as [_ ?].
Qed.

Lemma filter_file_bindings fs files file :
  NoDup files →
  filter (λ b, File b = file) (files ≫= fileBindings fs)
  = if decide (file ∈ files) then fileBindings fs file else [].
Proof.
  induction 1 as [|f files Hf Hnd IH]; [done|].
  rewrite bind_cons, filter_app, IH.
  destruct (decide (f = file)) as [->|Hne].
  - rewrite decide_False by done. rewrite decide_True by left.
    rewrite app_nil_r. apply filter_all, fileBindings_File.
  - rewrite (filter_none _ (fileBindings fs f)).
    + simpl. destruct (decide (file ∈ files)) as [Hin|Hin].
      * by rewrite decide_True by by right.
      * rewrite decide_False; [done|].
        intros [?|?]%elem_of_cons; congruence.
    + eapply Forall_impl; [apply fileBindings_File|].
      intros b Hb. simpl in Hb. congruence.
Qed.

(** X6. When no file is listed twice, [GroupedByFile] on a scan result
    gives, for each file that contributed bindings, exactly the accepted
    declarations of that file in their order, and has no entry for any
    other path. *)
Theorem GroupedByFile_Scan (fs : string → loaded) (basePath : string)
    (found : list string) (file : string) :
  NoDup found →
  GroupedByFile (Scan fs basePath found).1 !! file
  = if decide (file ∈ found ∧ fileBindings fs file ≠ [])
    then Some (fileBindings fs file) else None.
Proof.
  intros Hnd. rewrite GroupedByFile_lookup, Scan_PortBindings.
  rewrite filter_file_bindings by done.
  destruct (decide (file ∈ found)) as [Hin|Hin].
  - destruct (decide (fileBindings fs file = [])) as [He|He].
    + rewrite decide_False; [done|]. by intros [_ ?].
    + by rewrite decide_True.
  - rewrite decide_True by done. rewrite decide_False; [done|].
    by intros [? _].
Qed.

Lemma GroupedByFile_Scan_witness :
  NoDup ["broken.yml"; "web.yml"; "dns.yml"]
  ∧ Original <$> default []
      (GroupedByFile (Scan sampleFS "." ["broken.yml"; "web.yml"; "dns.yml"]).1
         !! "web.yml")
    = ["80:80"; "443:443"].
Proof.
  assert (NoDup ["broken.yml"; "web.yml"; "dns.yml"]) as H1 by compute_done.
  split; [exact H1|].
  rewrite (GroupedByFile_Scan sampleFS "." _ "web.yml" H1).
  reflexivity.
Defined.

(** ** The sections of the text report *)

Ltac decide_all :=
  repeat first [rewrite decide_True by tauto | rewrite decide_False by tauto
               | rewrite bool_decide_true by tauto
               | rewrite bool_decide_false by tauto].

Lemma severity_cases (i : Issue) :
  Severity i = "error"
  ∨ (Severity i ≠ "error" ∧ Severity i = "warning")
  ∨ (Severity i ≠ "error" ∧ Severity i ≠ "warning").
Proof.
  destruct (decide (Severity i = "error")); [tauto|].
  destruct (decide (Severity i = "warning")); tauto.
Qed.

Lemma bySeverity_filter issues :
  bySeverity issues
  = (filter (λ i, Severity i = "error") issues,
     filter (λ i, Severity i ≠ "error" ∧ Severity i = "warning") issues,
     filter (λ i, Severity i ≠ "error" ∧ Severity i ≠ "warning") issues).
Proof.
  unfold bySeverity.
  induction issues as [|i l IH] using rev_ind; [done|].
  rewrite foldl_snoc, IH, !filter_app, !filter_cons, !filter_nil.
  destruct (severity_cases i) as [He|[[He Hw]|[He Hw]]];
    decide_all; by rewrite ?app_nil_r.
Qed.

Lemma textOrder_perm issues : textOrder issues ≡ₚ issues.
Proof.
  unfold textOrder. rewrite bySeverity_filter.
  induction issues as [|i l IH]; [done|].
  rewrite !filter_cons.
  destruct (severity_cases i) as [He|[[He Hw]|[He Hw]]]; decide_all.
  - simpl. by rewrite IH.
  - simpl. rewrite <-Permutation_middle. by rewrite IH.
  - simpl. rewrite app_assoc, <-Permutation_middle, <-app_assoc.
    by rewrite IH.
Qed.

Lemma textOrder_sorted issues :
  Forall knownKind issues → StronglySorted keyLe issues →
  textOrder issues = issues.
Proof.
  unfold textOrder. rewrite bySeverity_filter.
  intros Hk Hs. induction Hs as [|i l Hs IH Hle]; [done|].
  apply Forall_cons in Hk as [Hi Hk]. specialize (IH Hk).
  assert (Severity i = "error" ∨ Severity i = "warning" ∨ Severity i = "info")
    as Hsev.
  { unfold knownKind, issueKinds in Hi.
    repeat (apply elem_of_cons in Hi as [[= -> _]|Hi]; [auto|]).
    by apply elem_of_nil in Hi. }
  assert (∀ sev, Severity i = sev → sev ≠ "error" →
            filter (λ i, Severity i = "error") l = []) as Hnoerr.
  { intros sev Hsev' Hne. apply filter_none.
    eapply Forall_impl; [exact Hle|]. intros j Hj He.
    unfold keyLe, rank in Hj. rewrite He in Hj.
    destruct Hsev as [?|[Hw| Hinf]]; [congruence|..].
    - rewrite Hw in Hj. vm_compute in Hj. by destruct Hj as [?|[? _]].
    - rewrite Hinf in Hj. vm_compute in Hj. by destruct Hj as [?|[? _]]. }
  rewrite !filter_cons.
  destruct Hsev as [He|[Hw|Hinf]].
  - rewrite decide_True by done.
    rewrite !decide_False by (intros [? ?]; congruence).
    simpl. by rewrite IH.
  - rewrite decide_False by (rewrite Hw; done).
    rewrite decide_True by (rewrite Hw; done).
    rewrite decide_False by (intros [? ?]; congruence).
    rewrite (Hnoerr "warning") in * by done. simpl in *. by rewrite IH.
  - rewrite decide_False by (rewrite Hinf; done).
    rewrite decide_False by (rewrite Hinf; intros [? ?]; done).
    rewrite decide_True by (rewrite Hinf; done).
    rewrite (Hnoerr "info") in * by done.
    assert (filter (λ i, Severity i ≠ "error" ∧ Severity i = "warning") l
            = []) as Hnowarn.
    { apply filter_none. eapply Forall_impl; [exact Hle|].
      intros j Hj [_ Hjw]. unfold keyLe, rank in Hj.
      rewrite Hjw, Hinf in Hj. vm_compute in Hj.
      by destruct Hj as [?|[? _]]. }
    rewrite Hnowarn in *. simpl in *. by rewrite IH.
Qed.

(** X7. The text report loses and repeats no issue, and it lists the
    issues of a scan result in the order of the result: sorting them
    into the error, warning and info sections moves nothing. *)
Theorem FormatText_keeps_order (fs : string → loaded) (basePath : string)
    (found : list string) (issues : list Issue) :
  textOrder issues ≡ₚ issues
  ∧ textOrder (Issues (Scan fs basePath found).1)
    = Issues (Scan fs basePath found).1.
Proof.
  split; [apply textOrder_perm|].
  apply textOrder_sorted.
  - eapply Forall_impl; [apply Scan_issue_kinds|]. by intros i [? _].
  - rewrite Scan_extend. apply analyze_sorted.
Qed.

(** ** The ports for which [runScan] asks suggestions *)

Lemma conflictPortsLoop_spec issues :
  let ports := (conflictPortsLoop issues).1 in
  let seen := (conflictPortsLoop issues).2 in
  NoDup ports
  ∧ (∀ p, default false (seen !! p) = true ↔ p ∈ ports)
  ∧ (∀ p, p ∈ ports ↔ Exists (issueOn "collision" p) issues).
Proof.
  unfold conflictPortsLoop.
  induction issues as [|i l IH] using rev_ind.
  - simpl. split_and!; [constructor|..]; intros p.
    + rewrite lookup_empty. simpl. split; [done|by intros ?%elem_of_nil].
    + rewrite Exists_nil. split; [by intros ?%elem_of_nil|done].
  - rewrite foldl_snoc. cbv zeta in *.
    destruct (foldl _ _ l) as [ports seen]. simpl in *.
    destruct IH as (Hnd & Hseen & Hports).
    destruct (bool_decide (Type_ i = "collision")) eqn:Hc; simpl.
    + apply bool_decide_eq_true in Hc.
      destruct (default false (seen !! Port i)) eqn:Hs; simpl.
      * split_and!; [done..|]. intros p. rewrite Exists_app, <-Hports.
        split; [auto|]. intros [?|Hex]; [done|].
        apply Exists_cons in Hex as [[_ <-]|?%Exists_nil]; [|done].
        by apply Hseen.
      * assert (Port i ∉ ports) as Hnin.
        { intros ?%Hseen. congruence. }
        split_and!.
        -- apply NoDup_app. split_and!; [done| |apply NoDup_singleton].
           intros x Hx ->%list_elem_of_singleton. done.
        -- intros p. rewrite elem_of_app, list_elem_of_singleton, <-Hseen.
           destruct (decide (Port i = p)) as [->|Hne].
           ++ rewrite lookup_insert_eq. simpl. split; auto.
           ++ rewrite lookup_insert_ne by done. split; [auto|].
              intros [?|?]; [done|congruence].
        -- intros p. rewrite elem_of_app, list_elem_of_singleton.
           rewrite Exists_app, Exists_cons, Exists_nil, <-Hports.
           unfold issueOn. split.
           ++ intros [? | ->]; auto.
           ++ intros [? | [[_ <-] | []]]; auto.
    + apply bool_decide_eq_false in Hc.
      split_and!; [done..|]. intros p. rewrite Exists_app, <-Hports.
      split; [auto|]. intros [?|Hex]; [done|].
      apply Exists_cons in Hex as [[? _]|?%Exists_nil]; done.
Qed.

Lemma conflictPorts_loop result :
  conflictPorts true result = (conflictPortsLoop (Issues result)).1.
Proof.
  unfold conflictPorts. simpl. case_bool_decide as H; [done|].
  destruct (Issues result); [done|]. simpl in H. lia.
Qed.

(** X8. With [--suggest], the ports handed to the suggestion helper are,
    each once, the ports of the collision issues; for a scan result these
    are the host ports with two or more bindings of which one is a
    wildcard binding.  Without [--suggest] no port is handed over. *)
Theorem conflictPorts_Scan (fs : string → loaded) (basePath : string)
    (found : list string) (result : Result) (port : Z) :
  let r := (Scan fs basePath found).1 in
  NoDup (conflictPorts true result)
  ∧ (port ∈ conflictPorts true result
     ↔ Exists (issueOn "collision" port) (Issues result))
  ∧ conflictPorts false result = []
  ∧ (port ∈ conflictPorts true r
     ↔ (2 ≤ length (groupOf (PortBindings r) port))%nat
       ∧ Exists isWild (groupOf (PortBindings r) port)).
Proof.
  intros r.
  pose proof (conflictPortsLoop_spec (Issues result)) as (Hnd & _ & Hp).
  pose proof (conflictPortsLoop_spec (Issues r)) as (_ & _ & Hpr).
  rewrite !conflictPorts_loop.
  split_and!; [done|apply Hp|done|].
  rewrite Hpr. unfold r. rewrite Scan_extend. cbn [fst].
  set (B := found ≫= fileBindings fs).
  set (x := extend _ B _).
  change (PortBindings (analyze x)) with B.
  assert (parseErrorsOnly (Issues x)) as Hpre by apply fileErrors_kind.
  assert (default [] (PortMap x !! port) = groupOf B port) as HM.
  { cbn. rewrite index_lookup, lookup_empty. by case_decide as H; [rewrite H|]. }
  assert (Exists (issueOn "collision" port) (Issues (analyze x))
          ↔ filter (issueOn "collision" port) (Issues (analyze x)) ≠ [])
    as ->.
  { rewrite Exists_exists. split.
    - intros (i & Hi & Hk) Hnil.
      by eapply (filter_nil_not_elem_of _ _ i Hnil).
    - intros Hne. destruct (filter _ _) as [|i l] eqn:E; [done|].
      assert (i ∈ filter (issueOn "collision" port) (Issues (analyze x)))
        as Hi by (rewrite E; left).
      apply list_elem_of_filter in Hi as [? ?]. by exists i. }
  rewrite analyze_grouping by auto. rewrite HM, groupIssues_cases. cbv zeta.
  pose proof (length_bySpecificity (groupOf B port)) as Hlen.
  assert (Exists isWild (groupOf B port)
          ↔ (0 < length (filter isWild (groupOf B port)))%nat) as ->.
  { rewrite Exists_exists. split.
    - intros (b & Hb & Hw).
      assert (b ∈ filter isWild (groupOf B port)) as Hin
        by (by apply list_elem_of_filter).
      destruct (filter isWild _); [by apply elem_of_nil in Hin|simpl; lia].
    - destruct (filter isWild _) as [|b l] eqn:E; [simpl; lia|]. intros _.
      assert (b ∈ filter isWild (groupOf B port)) as Hin by (rewrite E; left).
      apply list_elem_of_filter in Hin as [? ?]. by exists b. }
  repeat case_bool_decide;
    rewrite ?filter_cons_True, ?filter_cons_False, ?filter_nil by done;
    split; try done; try lia.
Qed.

(** ** Profile conflicts in the issue list *)

Lemma conflictPortsLoop_app issues extra :
  Forall (λ i, Type_ i ≠ "collision") extra →
  conflictPortsLoop (issues ++ extra) = conflictPortsLoop issues.
Proof.
  intros HF. unfold conflictPortsLoop. rewrite foldl_app.
  generalize (foldl
    (λ (acc : list Z * gmap Z bool) issue,
       if bool_decide (Type_ issue = "collision")
          && negb (default false (acc.2 !! Port issue))
       then (acc.1 ++ [Port issue], <[Port issue := true]> acc.2)
       else acc) ([], ∅) issues).
  induction HF as [|i l Hi _ IH]; intros acc; [done|].
  cbn [foldl]. by rewrite bool_decide_false, IH by done.
Qed.

(** X9. With a profile flag, the conflicts of the profile overlay are
    added behind the sorted issue list as errors with port 0 and without
    bindings.  If there is such a conflict and the scan reported a
    warning or an info issue, the final list is therefore no longer
    ordered by severity; and no suggestion is ever asked for a profile
    conflict. *)
Theorem profile_issues_are_appended (result : Result)
    (c : profiles.ProfilesConfig) (activeProfiles : list string) :
  activeProfiles ≠ [] →
  profiles.DetectPortConflicts c activeProfiles ≠ [] →
  let out := Issues (profileScan result (Some c) activeProfiles) in
  take (length (Issues result)) out = Issues result
  ∧ Forall (λ i, Severity i = "error" ∧ Type_ i = "profile_collision"
                 ∧ Port i = 0 ∧ Bindings i = [])
      (drop (length (Issues result)) out)
  ∧ length out
    = (length (Issues result)
       + length (profiles.DetectPortConflicts c activeProfiles))%nat
  ∧ (Exists (λ i, Severity i = "warning" ∨ Severity i = "info")
       (Issues result) →
     ¬ StronglySorted keyLe out)
  ∧ conflictPorts true (profileScan result (Some c) activeProfiles)
    = conflictPorts true result.
Proof.
  intros Hne Hconf out. unfold out.
  rewrite !conflictPorts_loop, profileScan_issues by done.
  set (extra := profileCollisionIssue <$> _).
  assert (Forall (λ i, Severity i = "error" ∧ Type_ i = "profile_collision"
                       ∧ Port i = 0 ∧ Bindings i = []) extra) as Hextra.
  { apply Forall_forall. intros i (x & -> & _)%list_elem_of_fmap. done. }
  split_and!.
  - by rewrite take_app_length.
  - by rewrite drop_app_length.
  - rewrite length_app. unfold extra. by rewrite length_fmap.
  - intros (w & Hw & Hsev)%Exists_exists Hs.
    destruct extra as [|p ps] eqn:E.
    { unfold extra in E. apply fmap_nil_inv in E. done. }
    apply Forall_cons in Hextra as [(Hp & _) _].
    assert (keyLe w p) as Hk.
    { eapply (StronglySorted_app_1_elem_of keyLe); [exact Hs|done|left]. }
    unfold keyLe, rank in Hk. rewrite Hp in Hk.
    destruct Hsev as [Hsev|Hsev]; rewrite Hsev in Hk; vm_compute in Hk;
      by destruct Hk as [?|[? _]].
  - rewrite conflictPortsLoop_app; [done|].
    eapply Forall_impl; [exact Hextra|]. intros i (_ & Hi & _).
    by rewrite Hi.
Qed.

Lemma profile_issues_are_appended_witness :
  let result := (Scan sampleFS "." ["web.yml"]).1 in
  let out := Issues (profileScan result (Some overlayConfig) ["dev"]) in
  ["dev"] ≠ []
  ∧ profiles.DetectPortConflicts overlayConfig ["dev"] ≠ []
  ∧ ¬ StronglySorted keyLe out.
Proof.
  intros result out.
  assert (["dev"] ≠ []) as H1 by discriminate.
  assert (profiles.DetectPortConflicts overlayConfig ["dev"] ≠ []) as H2
    by (vm_compute; discriminate).
  split; [exact H1|]. split; [exact H2|].
  destruct (profile_issues_are_appended result overlayConfig ["dev"] H1 H2)
    as (_ & _ & _ & Hs & _).
  apply Hs. vm_compute. left. left. reflexivity.
Defined.

(** ** Decimal numbers: [strconv.Atoi] and the [%d] verb *)

Lemma decimalValue_app acc s t :
  strconv.decimalValue acc (s +:+ t)
  = strconv.decimalValue (strconv.decimalValue acc s) t.
Proof.
  revert acc. induction s as [|c s IH]; intros acc; [done|].
  rewrite append_String. simpl. by rewrite IH.
Qed.

Lemma allDigits_app s t :
  strconv.allDigits (s +:+ t) = strconv.allDigits s && strconv.allDigits t.
Proof.
  induction s as [|c s IH]; [done|].
  rewrite append_String. simpl. by rewrite IH, andb_assoc.
Qed.

Lemma decimalValue_bounds acc s :
  0 ≤ acc → strconv.allDigits s = true → acc ≤ strconv.decimalValue acc s.
Proof.
  revert acc. induction s as [|c s IH]; intros acc Hacc Hs; simpl in *; [lia|].
  apply andb_true_iff in Hs as [Hc Hs].
  unfold strconv.isDigit in Hc. apply andb_true_iff in Hc as [H1 H2].
  apply Nat.leb_le in H1, H2.
  etrans; [|apply IH; [|done]]; unfold strconv.digitVal; lia.
Qed.

Lemma pretty_N_char_digit x :
  (x < 10)%N →
  strconv.isDigit (pretty_N_char x) = true
  ∧ strconv.digitVal (pretty_N_char x) = Z.of_N x.
Proof.
  intros Hx.
  assert (x = 0 ∨ x = 1 ∨ x = 2 ∨ x = 3 ∨ x = 4 ∨ x = 5 ∨ x = 6 ∨ x = 7
          ∨ x = 8 ∨ x = 9)%N as H by lia.
  repeat (destruct H as [->|H]; [done|]). by subst.
Qed.

(** The digits [pretty_N_go] puts in front of its accumulator. *)
Lemma pretty_N_go_digits x s :
  ∃ t, pretty_N_go x s = t +:+ s
       ∧ strconv.allDigits t = true
       ∧ strconv.decimalValue 0 t = Z.of_N x
       ∧ ((0 < x)%N → t ≠ "").
Proof.
  revert s. induction (N.lt_wf_0 x) as [x _ IH]; intros s.
  destruct (decide (0 < x)%N) as [Hx|Hx].
  - rewrite pretty_N_go_step by done.
    destruct (IH (x `div` 10)%N (N.div_lt x 10 Hx eq_refl)
                (String (pretty_N_char (x `mod` 10)) s))
      as (t & -> & Hd & Hv & _).
    destruct (pretty_N_char_digit (x `mod` 10)%N) as [Hc1 Hc2];
      [by apply N.mod_lt|].
    exists (t +:+ String (pretty_N_char (x `mod` 10)) "").
    split_and!.
    + by rewrite append_assoc.
    + rewrite allDigits_app, Hd. simpl. by rewrite Hc1.
    + rewrite decimalValue_app, Hv. simpl. rewrite Hc2.
      rewrite (N.div_mod x 10) at 3 by done. lia.
    + intros _. by destruct t.
  - assert (x = 0%N) as -> by lia. exists "". by rewrite pretty_N_go_0.
Qed.

Lemma fmt_d_digits n :
  0 ≤ n →
  digits (fmt.d n) = true ∧ strconv.decimalValue 0 (fmt.d n) = n.
Proof.
  intros Hn. unfold fmt.d, pretty, pretty_Z.
  destruct n as [|p|p]; [done| |lia].
  unfold pretty, pretty_positive, pretty, pretty_N.
  rewrite decide_False by done.
  destruct (pretty_N_go_digits (N.pos p) "") as (t & -> & Hd & Hv & Hne).
  rewrite append_nil_r. unfold digits. rewrite Hd.
  rewrite bool_decide_false by (by apply Hne). done.
Qed.

Lemma Atoi_digits s :
  digits s = true →
  (strconv.Atoi s).1 = Z.min (strconv.decimalValue 0 s) strconv.maxInt.
Proof.
  intros Hs. unfold digits in Hs. apply andb_true_iff in Hs as [Hne Hd].
  apply negb_true_iff, bool_decide_eq_false in Hne.
  unfold strconv.Atoi.
  assert (match s with
          | String "-"%char r => (true, r)
          | String "+"%char r => (false, r)
          | _ => (false, s)
          end = (false, s)) as ->.
  { destruct s as [|c s]; [done|]. simpl in Hd.
    apply andb_true_iff in Hd as [Hc _].
    destruct (decide (c = "-"%char)) as [->|?]; [done|].
    destruct (decide (c = "+"%char)) as [->|?]; [done|].
    destruct c as [[] [] [] [] [] [] [] []]; done. }
  rewrite bool_decide_false, Hd by done. simpl.
  case_bool_decide; simpl; lia.
Qed.

(** [strconv.Atoi] reads back what [%d] prints for the numbers of [int]
    that are not negative, without error. *)
Lemma Atoi_fmt_d (n : Z) :
  0 ≤ n ≤ strconv.maxInt → strconv.Atoi (fmt.d n) = (n, None).
Proof.
  intros [Hn Hmax]. destruct (fmt_d_digits n Hn) as [Hd Hv].
  pose proof (Atoi_digits _ Hd) as Hfst. rewrite Hv in Hfst.
  unfold digits in Hd. apply andb_true_iff in Hd as [Hne Hd].
  apply negb_true_iff, bool_decide_eq_false in Hne.
  unfold strconv.Atoi in *.
  destruct (match fmt.d n with
            | String "-"%char r => (true, r)
            | String "+"%char r => (false, r)
            | _ => (false, fmt.d n)
            end) as [neg ds] eqn:E.
  assert (neg = false ∧ ds = fmt.d n) as [-> ->].
  { destruct (fmt.d n) as [|c s]; [by injection E as <- <-|]. simpl in Hd.
    apply andb_true_iff in Hd as [Hc _].
    destruct c as [[] [] [] [] [] [] [] []]; try done;
      by injection E as <- <-. }
  rewrite bool_decide_false, Hd by done. simpl. rewrite Hv.
  by rewrite bool_decide_true by lia.
Qed.

(** ** [PortBinding.String] and [parsePort] *)

Lemma Atoi_digits_range s :
  digits s = true → 0 ≤ (strconv.Atoi s).1 ≤ strconv.maxInt.
Proof.
  intros Hs. rewrite Atoi_digits by done.
  unfold digits in Hs. apply andb_true_iff in Hs as [_ Hd].
  pose proof (decimalValue_bounds 0 s (Z.le_refl 0) Hd).
  assert (0 ≤ strconv.maxInt) by done. lia.
Qed.

Lemma PortBinding_String_shape b :
  PortBinding_String b
  = (if bool_decide (HostIP b = "") then "" else HostIP b +:+ ":")
    +:+ fmt.d (HostPort b)
    +:+ (":" +:+ fmt.d (ContainerPort b))
    +:+ (if bool_decide (Protocol b = "tcp") then ""
         else "/" +:+ Protocol b).
Proof.
  unfold PortBinding_String.
  destruct (decide (HostIP b = "")) as [Hip|Hip],
           (decide (Protocol b = "tcp")) as [Hp|Hp];
    decide_all; cbn [app strings.Join];
    repeat first [rewrite append_String | rewrite append_empty
                 | rewrite append_nil_r | rewrite append_assoc]; done.
Qed.

Lemma String_reparse b :
  HostIP b = "" ∨ isQuad (HostIP b) →
  0 < HostPort b ≤ strconv.maxInt →
  0 ≤ ContainerPort b ≤ strconv.maxInt →
  Protocol b = "tcp" ∨ Protocol b = "udp" →
  parsePort (VString (PortBinding_String b)) (Service b) (File b)
  = Some (withOriginal b (PortBinding_String b)).
Proof.
  intros Hip Hhp Hcp Hproto.
  destruct (fmt_d_digits (HostPort b)) as [Hd1 _]; [lia|].
  destruct (fmt_d_digits (ContainerPort b)) as [Hd2 _]; [lia|].
  set (m := Submatch (HostIP b) (fmt.d (HostPort b))
              (fmt.d (ContainerPort b))
              (if bool_decide (Protocol b = "tcp") then "" else Protocol b)).
  assert (portRegex (PortBinding_String b) = Some m) as Hm.
  { apply portRegex_spec. unfold portRegexAccepts, m.
    cbn [grpIP grpPort grpContainer grpProto].
    split_and!; [done|done|by right| |].
    - case_bool_decide; [by left|]. destruct Hproto; [done|by right; right].
    - rewrite PortBinding_String_shape, optional_digits by done.
      f_equal. f_equal. f_equal. unfold optional.
      case_bool_decide as Hp; [by rewrite bool_decide_true|].
      rewrite bool_decide_false; [done|].
      destruct Hproto as [? | ->]; done. }
  unfold parsePort, parsePortSwitch. rewrite Hm. unfold m.
  cbn [grpIP grpPort grpContainer grpProto].
  rewrite !Atoi_fmt_d by lia. cbn [fst].
  rewrite (bool_decide_true (fmt.d (ContainerPort b) ≠ ""))
    by (by apply digits_nonempty).
  rewrite (bool_decide_false (HostPort b = 0)) by lia.
  unfold withOriginal. do 2 f_equal.
  destruct Hproto as [Hp|Hp]; rewrite Hp; done.
Qed.

(** X10. [String] prints a binding in a form [parsePort] reads back: for
    a binding without host address or with a dotted quad, a positive
    host port, a container port that is not negative and protocol tcp or
    udp, parsing the printed string for the same service and file gives
    the binding again, with the printed string as its raw text. *)
Theorem String_then_parsePort (b : PortBinding) :
  HostIP b = "" ∨ isQuad (HostIP b) →
  0 < HostPort b ≤ strconv.maxInt →
  0 ≤ ContainerPort b ≤ strconv.maxInt →
  Protocol b = "tcp" ∨ Protocol b = "udp" →
  parsePort (VString (PortBinding_String b)) (Service b) (File b)
  = Some (withOriginal b (PortBinding_String b)).
Proof. apply String_reparse. Qed.

Lemma String_then_parsePort_witness :
  let b := mkPortBinding 5353 53 "udp" "127.0.0.1" "dns" "dns.yml" "" in
  PortBinding_String b = "127.0.0.1:5353:53/udp"
  ∧ parsePort (VString "127.0.0.1:5353:53/udp") "dns" "dns.yml"
    = Some (withOriginal b "127.0.0.1:5353:53/udp").
Proof.
  intros b.
  assert (HostIP b = "" ∨ isQuad (HostIP b)) as H1.
  { right. apply dottedQuad_spec. reflexivity. }
  assert (0 < HostPort b ≤ strconv.maxInt) as H2
    by (vm_compute; split; [reflexivity|discriminate]).
  assert (0 ≤ ContainerPort b ≤ strconv.maxInt) as H3
    by (vm_compute; split; discriminate).
  assert (Protocol b = "tcp" ∨ Protocol b = "udp") as H4
    by (right; reflexivity).
  split; [reflexivity|].
  exact (String_then_parsePort b H1 H2 H3 H4).
Defined.

(** X11. A binding that [parsePort] makes of a string has no host
    address or a dotted quad, a host port from 1 up to the largest
    [int], a container port from 0 up to the largest [int] and protocol
    tcp or udp; printing it with [String] and parsing the result gives
    the same binding, apart from its raw text. *)
Theorem parsePort_string_wellformed (v service file : string)
    (b : PortBinding) :
  parsePort (VString v) service file = Some b →
  (HostIP b = "" ∨ isQuad (HostIP b))
  ∧ 0 < HostPort b ≤ strconv.maxInt
  ∧ 0 ≤ ContainerPort b ≤ strconv.maxInt
  ∧ (Protocol b = "tcp" ∨ Protocol b = "udp")
  ∧ Original b = v
  ∧ parsePort (VString (PortBinding_String b)) service file
    = Some (withOriginal b (PortBinding_String b)).
Proof.
  intros Hb.
  destruct (parsePort_owner _ _ _ _ Hb) as [Hs Hf].
  assert ((HostIP b = "" ∨ isQuad (HostIP b))
          ∧ 0 < HostPort b ≤ strconv.maxInt
          ∧ 0 ≤ ContainerPort b ≤ strconv.maxInt
          ∧ (Protocol b = "tcp" ∨ Protocol b = "udp")
          ∧ Original b = v) as (H1 & H2 & H3 & H4 & H5).
  { pose proof (parsePort_HostPort _ _ _ _ Hb) as Hnz. revert Hb.
    unfold parsePort, parsePortSwitch.
    destruct (portRegex v) as [m|] eqn:Hm; [|done].
    apply portRegex_spec in Hm as (Hip & Hport & Hcont & Hproto & _).
    case_bool_decide; [done|]. intros [= <-]. simpl in *.
    pose proof (Atoi_digits_range _ Hport).
    split; [done|]. split; [lia|]. split; [|split; [|done]].
    - case_bool_decide as Hc; [|lia].
      destruct Hcont as [?|Hcont]; [done|].
      by apply Atoi_digits_range.
    - case_bool_decide; [|by left].
      destruct Hproto as [?|[?|?]]; auto; done. }
  split; [done|]. split; [done|]. split; [done|]. split; [done|].
  split; [done|]. rewrite <-Hs, <-Hf. by apply String_reparse.
Qed.

Lemma parsePort_string_wellformed_witness :
  let b := mkPortBinding 8080 8080 "tcp" "10.0.0.1" "web" "a.yml"
             "10.0.0.1:08080" in
  parsePort (VString "10.0.0.1:08080") "web" "a.yml" = Some b
  ∧ PortBinding_String b = "10.0.0.1:8080:8080"
  ∧ parsePort (VString "10.0.0.1:8080:8080") "web" "a.yml"
    = Some (withOriginal b "10.0.0.1:8080:8080").
Proof.
  intros b.
  assert (parsePort (VString "10.0.0.1:08080") "web" "a.yml" = Some b) as H
    by (vm_compute; reflexivity).
  split; [exact H|]. split; [reflexivity|].
  destruct (parsePort_string_wellformed _ _ _ _ H) as (_ & _ & _ & _ & _ & Hr).
  exact Hr.
Defined.

(** ** Which strings [parsePort] accepts *)

Lemma Atoi_digits_zero s :
  digits s = true →
  ((strconv.Atoi s).1 = 0 ↔ strconv.decimalValue 0 s = 0).
Proof.
  intros Hs. rewrite Atoi_digits by done.
  unfold digits in Hs. apply andb_true_iff in Hs as [_ Hd].
  pose proof (decimalValue_bounds 0 s (Z.le_refl 0) Hd).
  assert (0 < strconv.maxInt) by done. lia.
Qed.

Lemma parsePort_accepted_strings_aux v service file :
  is_Some (parsePort (VString v) service file)
  ↔ ∃ m, portRegexAccepts v m ∧ strconv.decimalValue 0 (grpPort m) ≠ 0.
Proof.
  unfold parsePort, parsePortSwitch. split.
  - intros [b Hb]. destruct (portRegex v) as [m|] eqn:Hm; [|done].
    exists m. apply portRegex_spec in Hm. split; [done|].
    destruct Hm as (_ & Hport & _).
    rewrite <-Atoi_digits_zero by done.
    revert Hb. case_bool_decide as Hz; [done|]. intros _. exact Hz.
  - intros (m & Hm & Hnz).
    pose proof Hm as (_ & Hport & _).
    apply portRegex_spec in Hm. rewrite Hm.
    rewrite <-Atoi_digits_zero in Hnz by done.
    rewrite bool_decide_false by done. by eexists.
Qed.

(** X12. [parsePort] accepts a string exactly when it reads
    [A.B.C.D:]PORT[:CONTAINER][/tcp|/udp], with one to three digits in
    each part of the address, and the value of PORT is not zero. *)
Theorem parsePort_accepted_strings (v service file : string) :
  is_Some (parsePort (VString v) service file)
  ↔ ∃ m, portRegexAccepts v m ∧ strconv.decimalValue 0 (grpPort m) ≠ 0.
Proof. apply parsePort_accepted_strings_aux. Qed.

Lemma accepted_bytes v m c :
  portRegexAccepts v m →
  strings.hasByte v c = true →
  strconv.isDigit c = true
  ∨ c ∈ ["."; ":"; "/"; "t"; "c"; "p"; "u"; "d"]%char.
Proof.
  intros (Hip & Hport & Hcont & Hproto & ->) Hc.
  destruct (strconv.isDigit c) eqn:Hd; [by left|right].
  destruct (decide (c ∈ ["."; ":"; "/"; "t"; "c"; "p"; "u"; "d"]%char))
    as [|Hnin]; [done|exfalso].
  assert (c ≠ "."%char ∧ c ≠ ":"%char ∧ c ≠ "/"%char ∧ c ≠ "t"%char
          ∧ c ≠ "c"%char ∧ c ≠ "p"%char ∧ c ≠ "u"%char ∧ c ≠ "d"%char)
    as (N1 & N2 & N3 & N4 & N5 & N6 & N7 & N8).
  { split_and!; intros ->; apply Hnin; solve_elem_of. }
  rewrite !hasByte_app in Hc.
  rewrite (digits_hasByte (grpPort m)) in Hc by done.
  assert (strings.hasByte
            (if bool_decide (grpIP m = "") then "" else grpIP m +:+ ":") c
          = false) as Hc1.
  { case_bool_decide; [done|]. destruct Hip as [?|Hip]; [done|].
    rewrite hasByte_app, (isQuad_hasByte _ c Hip) by done.
    simpl. by rewrite bool_decide_false by done. }
  assert (strings.hasByte (optional ":" (grpContainer m)) c = false) as Hc2.
  { destruct Hcont as [->|Hcont]; [done|].
    rewrite optional_digits, hasByte_app, (digits_hasByte (grpContainer m))
      by done.
    simpl. by rewrite bool_decide_false by done. }
  assert (strings.hasByte (optional "/" (grpProto m)) c = false) as Hc3.
  { destruct Hproto as [->|[->| ->]]; [done|..]; unfold optional; simpl;
      by rewrite !bool_decide_false by done. }
  rewrite Hc1, Hc2, Hc3 in Hc. done.
Qed.

(** X13. A string that holds any character other than a digit, [.],
    [:], [/] and the letters of [tcp] and [udp] is not accepted: port
    ranges, variable references, bracketed addresses and padded strings
    yield no binding. *)
Theorem parsePort_rejects_other_characters (v service file : string)
    (c : ascii) :
  strings.hasByte v c = true →
  strconv.isDigit c = false →
  c ∉ ["."; ":"; "/"; "t"; "c"; "p"; "u"; "d"]%char →
  parsePort (VString v) service file = None.
Proof.
  intros Hc Hd Hnin.
  destruct (parsePort (VString v) service file) as [b|] eqn:Hb; [|done].
  exfalso.
  assert (is_Some (parsePort (VString v) service file)) as Hs by by eexists.
  apply parsePort_accepted_strings_aux in Hs as (m & Hm & _).
  destruct (accepted_bytes v m c Hm Hc) as [?|?]; [congruence|done].
Qed.

Lemma parsePort_rejects_other_characters_witness :
  strings.hasByte "8000-8010:8000-8010" "-" = true
  ∧ parsePort (VString "8000-8010:8000-8010") "web" "a.yml" = None.
Proof.
  assert (strings.hasByte "8000-8010:8000-8010" "-" = true) as H1
    by reflexivity.
  assert (strconv.isDigit "-" = false) as H2 by reflexivity.
  assert ("-"%char ∉ ["."; ":"; "/"; "t"; "c"; "p"; "u"; "d"]%char) as H3
    by compute_done.
  split; [exact H1|].
  exact (parsePort_rejects_other_characters _ "web" "a.yml" _ H1 H2 H3).
Defined.

(** ** More on the profile overlay *)

Lemma claimEntry_no_empty_key entries
    (m : gmap string (list profiles.ServiceInfo)) :
  m !! "" = None → foldl claimEntry m entries !! "" = None.
Proof.
  revert m. induction entries as [|si entries IH]; intros m Hm; [done|].
  cbn [foldl]. apply IH. unfold claimEntry.
  case_bool_decide; [|done]. by rewrite lookup_insert_ne.
Qed.

Lemma portServices_lookup c names hostPort services :
  profiles.collectPortServices c names !! hostPort = Some services →
  hostPort ≠ ""
  ∧ services ≠ []
  ∧ services
    = filter (λ si, profiles.extractHostPort (profiles.siPort si) = hostPort)
        (profileEntries c names).
Proof.
  rewrite collectPortServices_entries. intros Hm.
  assert (hostPort ≠ "") as Hne.
  { intros ->. rewrite claimEntry_no_empty_key in Hm by done. done. }
  rewrite claimEntry_lookup, lookup_empty in Hm by done.
  case_decide; [done|]. by injection Hm as <-.
Qed.

Lemma NoDup_bind_keys {K A B} (f : K * A → list B) (key : B → K)
    (l : list (K * A)) :
  (∀ g x, x ∈ f g → key x = g.1) →
  (∀ g, length (f g) ≤ 1)%nat →
  NoDup l.*1 → NoDup (key <$> (l ≫= f)).
Proof.
  intros Hkey Hlen. induction l as [|g l IH]; [constructor|].
  rewrite fmap_cons, NoDup_cons, bind_cons, fmap_app. intros [Hg Hl].
  apply NoDup_app. split_and!.
  - specialize (Hlen g). destruct (f g) as [|x [|y k]]; simpl in *;
      [constructor|apply NoDup_singleton|lia].
  - intros k (x & -> & Hx)%list_elem_of_fmap (y & Hk & Hy)%list_elem_of_fmap.
    apply list_elem_of_bind in Hy as (g' & Hy & Hg').
    apply Hg. rewrite <-(Hkey g x Hx), Hk, (Hkey g' y Hy).
    by apply list_elem_of_fmap_2.
  - by apply IH.
Qed.

(** X14. [DetectPortConflicts] reports no host port twice and never the
    empty host port; every conflict lists two or more entries, and the
    host port extracted from the declaration of each entry is the port
    of the conflict. *)
Theorem DetectPortConflicts_wellformed (c : profiles.ProfilesConfig)
    (activeProfiles : list string) :
  let conflicts := profiles.DetectPortConflicts c activeProfiles in
  NoDup (profiles.pcPort <$> conflicts)
  ∧ Forall (λ x,
              profiles.pcPort x ≠ ""
              ∧ (2 ≤ length (profiles.pcServices x))%nat
              ∧ Forall (λ si, profiles.extractHostPort (profiles.siPort si)
                              = profiles.pcPort x)
                  (profiles.pcServices x))
      conflicts.
Proof.
  intros conflicts. unfold conflicts, profiles.DetectPortConflicts.
  rewrite findConflicts_bind. split.
  - apply NoDup_bind_keys; [| |apply NoDup_fst_map_to_list].
    + intros g x Hx. case_bool_decide; [|by apply elem_of_nil in Hx].
      by apply list_elem_of_singleton in Hx as ->.
    + intros g. case_bool_decide; simpl; lia.
  - apply Forall_forall. intros x Hx.
    apply list_elem_of_bind in Hx as ([p l] & Hx & Hg).
    apply elem_of_map_to_list in Hg. simpl in Hx.
    case_bool_decide as Hlen; [|by apply elem_of_nil in Hx].
    apply list_elem_of_singleton in Hx as ->. simpl.
    apply portServices_lookup in Hg as (Hne & _ & Hl).
    split_and!; [done|lia|]. rewrite Hl. apply Forall_forall.
    intros si Hsi. by apply list_elem_of_filter in Hsi as [? _].
Qed.

(** X15. A profile named on the command line although it is counted
    anyway is counted twice: when "default" is among the active
    profiles, every host port that a service of the default profile
    declares is reported as a conflict, also when nothing else claims
    it. *)
Theorem default_named_twice (c : profiles.ProfilesConfig)
    (activeProfiles : list string) (profile : profiles.Profile)
    (svc : profiles.ProfileService) (port : string) :
  "default" ∈ activeProfiles →
  profiles.Profiles c !! "default" = Some profile →
  svc ∈ profiles.pServices profile →
  port ∈ profiles.psPorts svc →
  profiles.extractHostPort port ≠ "" →
  reported c activeProfiles (profiles.extractHostPort port).
Proof.
  intros Hin Hc Hsvc Hport Hne.
  set (e := profiles.mkServiceInfo (profiles.psName svc) "default" port).
  assert (∀ names, "default" ∈ names → e ∈ profileEntries c names) as He.
  { intros names Hn. unfold profileEntries.
    apply list_elem_of_bind. exists "default". split; [|done].
    rewrite Hc. apply list_elem_of_bind. exists svc. split; [|done].
    by apply list_elem_of_fmap_2. }
  unfold reported.
  pose proof (DetectPortConflicts_port c activeProfiles
                (profiles.extractHostPort port) Hne) as Hf.
  cbv zeta in Hf.
  set (claims := filter _ (profileEntries c ("default" :: activeProfiles)))
    in Hf.
  assert (1 < length claims)%nat as Hlen.
  { unfold claims, profileEntries. rewrite bind_cons, filter_app, length_app.
    assert (∀ l : list profiles.ServiceInfo, e ∈ l →
      (0 < length (filter (λ si, profiles.extractHostPort (profiles.siPort si)
                                 = profiles.extractHostPort port) l))%nat)
      as Hpos.
    { intros l Hl.
      assert (e ∈ filter (λ si, profiles.extractHostPort (profiles.siPort si)
                                = profiles.extractHostPort port) l) as Hin'
        by (by apply list_elem_of_filter).
      destruct (filter _ l); [by apply elem_of_nil in Hin'|simpl; lia]. }
    pose proof (Hpos _ (He ["default"] ltac:(left))) as H1.
    pose proof (Hpos _ (He activeProfiles Hin)) as H2.
    unfold profileEntries in H1, H2. rewrite bind_cons in H1.
    simpl in H1. rewrite app_nil_r in H1. lia. }
  rewrite bool_decide_true in Hf by done.
  apply Exists_exists.
  exists (profiles.mkPortConflict (profiles.extractHostPort port) claims).
  assert (profiles.mkPortConflict (profiles.extractHostPort port) claims
          ∈ filter (λ x, profiles.pcPort x = profiles.extractHostPort port)
              (profiles.DetectPortConflicts c activeProfiles)) as Hx
    by (rewrite Hf; left).
  by apply list_elem_of_filter in Hx as [? ?].
Qed.

Lemma default_named_twice_witness :
  reported overlayConfig ["default"] "9090"
  ∧ (length (claimants overlayConfig ["default"] "9090") = 1)%nat.
Proof.
  split; [|reflexivity].
  assert ("default" ∈ ["default"]) as H1 by left.
  assert (profiles.Profiles overlayConfig !! "default"
          = Some (profiles.mkProfile "default"
                    [profiles.mkProfileService "serviceB" ["9090:9090"] []
                       "docker-compose.yml"])) as H2
    by (vm_compute; reflexivity).
  assert ("9090:9090" ∈ ["9090:9090"]) as H4 by left.
  assert (profiles.extractHostPort "9090:9090" ≠ "") as H5
    by (vm_compute; discriminate).
  exact (default_named_twice overlayConfig ["default"] _ _ "9090:9090"
           H1 H2 ltac:(left) H4 H5).
Defined.

(** ** [extractHostPort] on the strings [parsePort] accepts *)

Lemma beforeSlash_digits p rest :
  digits p = true →
  rest = "" ∨ (∃ q, rest = String "/" q) →
  profiles.beforeSlash (p +:+ rest) = p.
Proof.
  intros Hp Hrest. unfold profiles.beforeSlash.
  assert (strings.hasByte p "/" = false) as Hs by by apply digits_hasByte.
  destruct Hrest as [->|[q ->]].
  - by rewrite append_nil_r, Split_no_sep.
  - by rewrite Split_app.
Qed.

Lemma beforeSlash_quad ip :
  isQuad ip → profiles.beforeSlash ip = ip.
Proof.
  intros Hip. unfold profiles.beforeSlash.
  by rewrite Split_no_sep by by apply isQuad_hasByte.
Qed.

Lemma optional_proto_shape proto :
  proto = "" ∨ proto = "tcp" ∨ proto = "udp" →
  (optional "/" proto = "" ∨ ∃ q, optional "/" proto = String "/" q)
  ∧ strings.hasByte (optional "/" proto) ":" = false.
Proof.
  intros [->|[->| ->]]; (split; [|done]);
    [by left|right; by exists "tcp"|right; by exists "udp"].
Qed.

(** X16. On a string that [parsePort] accepts, [extractHostPort] returns
    the digits of the host port, except for the shape [A.B.C.D:PORT]:
    there it returns the address, while [parsePort] takes [PORT] as the
    host port. *)
Theorem extractHostPort_on_accepted (v : string) (m : submatch) :
  portRegex v = Some m →
  profiles.extractHostPort v
  = if bool_decide (grpIP m ≠ "" ∧ grpContainer m = "") then grpIP m
    else grpPort m.
Proof.
  intros (Hip & Hport & Hcont & Hproto & ->)%portRegex_spec.
  destruct (optional_proto_shape _ Hproto) as [Hshape Hnc].
  set (tail := optional "/" (grpProto m)) in *.
  assert (strings.hasByte (grpPort m) ":" = false) as Hp
    by by apply digits_hasByte.
  unfold profiles.extractHostPort.
  destruct Hip as [Hip|Hip], Hcont as [Hc|Hc].
  - rewrite Hip, Hc, bool_decide_true, optional_empty by done.
    rewrite bool_decide_false by (by intros [? _]).
    rewrite !append_empty.
    rewrite Split_no_sep by (by rewrite hasByte_app, Hp, Hnc).
    by apply beforeSlash_digits.
  - rewrite Hip, bool_decide_true, (optional_digits _ _ Hc) by done.
    rewrite bool_decide_false by (by intros [? _]).
    rewrite !append_empty, !append_String, !append_empty.
    rewrite Split_app by done.
    rewrite Split_no_sep
      by (by rewrite hasByte_app, (digits_hasByte _ _ Hc), Hnc).
    rewrite <-(append_nil_r (grpPort m)) at 1.
    apply beforeSlash_digits; auto.
  - rewrite Hc, optional_empty, append_empty.
    rewrite (bool_decide_false (grpIP m = "")) by by apply isQuad_nonempty.
    rewrite bool_decide_true by (split; [by apply isQuad_nonempty|done]).
    rewrite append_assoc, !append_String, !append_empty.
    rewrite Split_app by by apply isQuad_hasByte.
    rewrite Split_no_sep by (by rewrite hasByte_app, Hp, Hnc).
    by apply beforeSlash_quad.
  - rewrite (optional_digits _ _ Hc).
    rewrite (bool_decide_false (grpIP m = "")) by by apply isQuad_nonempty.
    rewrite bool_decide_false
      by (intros [_ Hce]; by apply digits_nonempty in Hc).
    rewrite !append_assoc, !append_String, !append_empty.
    rewrite Split_app by by apply isQuad_hasByte.
    rewrite Split_app by done.
    rewrite Split_no_sep
      by (by rewrite hasByte_app, (digits_hasByte _ _ Hc), Hnc).
    rewrite <-(append_nil_r (grpPort m)) at 1.
    apply beforeSlash_digits; auto.
Qed.

Lemma extractHostPort_on_accepted_witness :
  portRegex "127.0.0.1:8080"
  = Some (Submatch "127.0.0.1" "8080" "" "")
  ∧ profiles.extractHostPort "127.0.0.1:8080" = "127.0.0.1"
  ∧ HostPort <$> parsePort (VString "127.0.0.1:8080") "web" "a.yml"
    = Some 8080.
Proof.
  assert (portRegex "127.0.0.1:8080"
          = Some (Submatch "127.0.0.1" "8080" "" "")) as H
    by (vm_compute; reflexivity).
  split; [exact H|]. split; [|reflexivity].
  exact (extractHostPort_on_accepted _ _ H).
Defined.

(** ** [GetActivePorts] *)

Lemma elem_of_profileEntries c names si :
  si ∈ profileEntries c names
  ↔ ∃ profile svc,
      profiles.siProfile si ∈ names
      ∧ profiles.Profiles c !! profiles.siProfile si = Some profile
      ∧ svc ∈ profiles.pServices profile
      ∧ profiles.siService si = profiles.psName svc
      ∧ profiles.siPort si ∈ profiles.psPorts svc.
Proof.
  unfold profileEntries. rewrite list_elem_of_bind. split.
  - intros (name & Hsi & Hname).
    destruct (profiles.Profiles c !! name) as [profile|] eqn:Hc;
      [|by apply elem_of_nil in Hsi].
    apply list_elem_of_bind in Hsi as (svc & Hsi & Hsvc).
    apply list_elem_of_fmap in Hsi as (port & -> & Hport).
    exists profile, svc. simpl. by rewrite Hc.
  - intros (profile & svc & Hname & Hc & Hsvc & Hs & Hport).
    exists (profiles.siProfile si). split; [|done]. rewrite Hc.
    apply list_elem_of_bind. exists svc. split; [|done].
    apply list_elem_of_fmap. exists (profiles.siPort si).
    split; [|done]. destruct si. simpl in *. by subst.
Qed.

Lemma profileEntries_app c l1 l2 :
  profileEntries c (l1 ++ l2) = profileEntries c l1 ++ profileEntries c l2.
Proof. unfold profileEntries. apply bind_app. Qed.

(** The pass of [GetActivePorts] over the declarations. *)
Lemma GetActivePorts_entries c activeProfiles :
  GetActivePorts c activeProfiles
  = (foldl (λ (acc : list string * gmap string bool) port,
              if negb (default false (acc.2 !! port))
              then (acc.1 ++ [port], <[port := true]> acc.2)
              else acc)
           ([], ∅)
           (profiles.siPort
              <$> profileEntries c ("default" :: activeProfiles))).1.
Proof.
  unfold GetActivePorts, profileEntries. f_equal.
  rewrite foldl_fmap_l, foldl_bind.
  generalize (([], ∅) : list string * gmap string bool).
  induction ("default" :: activeProfiles) as [|name names IH]; intros acc;
    [done|].
  cbn [foldl]. rewrite <-IH. f_equal.
  destruct (profiles.Profiles c !! name) as [profile|]; [|done].
  rewrite foldl_bind. generalize (profiles.pServices profile). clear.
  intros svcs. revert acc.
  induction svcs as [|svc svcs IH]; intros acc; [done|].
  cbn [foldl]. rewrite <-IH. f_equal. by rewrite foldl_fmap_l.
Qed.

Lemma seen_loop_spec (l : list string) :
  let out :=
    foldl (λ (acc : list string * gmap string bool) port,
             if negb (default false (acc.2 !! port))
             then (acc.1 ++ [port], <[port := true]> acc.2)
             else acc) ([], ∅) l in
  NoDup out.1
  ∧ (∀ p, default false (out.2 !! p) = true ↔ p ∈ out.1)
  ∧ (∀ p, p ∈ out.1 ↔ p ∈ l).
Proof.
  induction l as [|x l IH] using rev_ind.
  - simpl. split_and!; [constructor|..]; intros p; [|done].
    rewrite lookup_empty. simpl. split; [done|by intros ?%elem_of_nil].
  - cbv zeta in *. rewrite foldl_snoc.
    destruct (foldl _ _ l) as [ports seen]. simpl in *.
    destruct IH as (Hnd & Hseen & Hports).
    destruct (default false (seen !! x)) eqn:Hs; simpl.
    + split_and!; [done..|]. intros p. rewrite elem_of_app, <-Hports.
      split; [auto|]. intros [? | ->%list_elem_of_singleton]; [done|].
      by apply Hseen.
    + assert (x ∉ ports) as Hnin by (intros ?%Hseen; congruence).
      split_and!.
      * apply NoDup_app. split_and!; [done| |apply NoDup_singleton].
        by intros y Hy ->%list_elem_of_singleton.
      * intros p. rewrite elem_of_app, list_elem_of_singleton, <-Hseen.
        destruct (decide (x = p)) as [->|Hne].
        -- rewrite lookup_insert_eq. simpl. split; auto.
        -- rewrite lookup_insert_ne by done. split; [auto|].
           intros [?|?]; [done|congruence].
      * intros p. rewrite !elem_of_app, Hports. done.
Qed.

Lemma seen_loop_noop (acc : list string * gmap string bool) l :
  Forall (λ p, default false (acc.2 !! p) = true) l →
  foldl (λ (acc : list string * gmap string bool) port,
           if negb (default false (acc.2 !! port))
           then (acc.1 ++ [port], <[port := true]> acc.2)
           else acc) acc l = acc.
Proof.
  induction 1 as [|p l Hp _ IH]; [done|].
  cbn [foldl]. by rewrite Hp.
Qed.

(** X17. [GetActivePorts] lists each declaration once; it lists a
    declaration exactly when a service of "default" or of an active
    profile has it; and naming "default" among the active profiles
    changes nothing. *)
Theorem GetActivePorts_spec (c : profiles.ProfilesConfig)
    (activeProfiles : list string) (port : string) :
  NoDup (GetActivePorts c activeProfiles)
  ∧ (port ∈ GetActivePorts c activeProfiles
     ↔ ∃ name profile svc,
         name ∈ "default" :: activeProfiles
         ∧ profiles.Profiles c !! name = Some profile
         ∧ svc ∈ profiles.pServices profile
         ∧ port ∈ profiles.psPorts svc)
  ∧ GetActivePorts c ("default" :: activeProfiles)
    = GetActivePorts c activeProfiles.
Proof.
  rewrite !GetActivePorts_entries.
  pose proof (seen_loop_spec
    (profiles.siPort <$> profileEntries c ("default" :: activeProfiles)))
    as (Hnd & Hseen & Hports).
  cbv zeta in *. split_and!; [done| |].
  - rewrite Hports, list_elem_of_fmap. split.
    + intros (si & -> & Hsi).
      apply elem_of_profileEntries in Hsi
        as (profile & svc & Hname & Hc & Hsvc & _ & Hport).
      by exists (profiles.siProfile si), profile, svc.
    + intros (name & profile & svc & Hname & Hc & Hsvc & Hport).
      exists (profiles.mkServiceInfo (profiles.psName svc) name port).
      split; [done|]. apply elem_of_profileEntries.
      by exists profile, svc.
  - f_equal.
    change ("default" :: "default" :: activeProfiles)
      with (["default"] ++ ["default"] ++ activeProfiles).
    change ("default" :: activeProfiles)
      with (["default"] ++ activeProfiles).
    rewrite !profileEntries_app, !fmap_app, !foldl_app.
    set (E := profiles.siPort <$> profileEntries c ["default"]).
    rewrite (seen_loop_noop _ E); [done|].
    pose proof (seen_loop_spec E) as (_ & Hs & Hp).
    cbv zeta in *. apply Forall_forall. intros p Hin.
    by apply Hs, Hp.
Qed.


(** ** [LoadProfiles] *)

Lemma profileServices_appendService name ps c name' :
  profileServices (profiles.appendService name ps c) name'
  = if decide (name = name' ∧ is_Some (profiles.Profiles c !! name))
    then profileServices c name' ++ [ps]
    else profileServices c name'.
Proof.
  unfold profileServices, profiles.appendService. simpl.
  rewrite lookup_alter.
  destruct (decide (name = name')) as [->|Hne].
  - destruct (profiles.Profiles c !! name') as [p|] eqn:Hp; simpl.
    + rewrite decide_True; [done|]. split; [done|by eexists].
    + rewrite decide_False; [done|]. by intros [_ [? ?]].
  - rewrite decide_False; [done|]. by intros [? _].
Qed.

Lemma appendService_kept name ps c :
  profilesKept c → profilesKept (profiles.appendService name ps c).
Proof.
  intros [[d Hd] Hn]. unfold profiles.appendService. split; simpl.
  - rewrite lookup_alter. case_decide as Hc; [subst name|]; rewrite Hd;
      by eexists.
  - intros k p. rewrite lookup_alter. case_decide as Hk; [|apply Hn].
    subst k. destruct (profiles.Profiles c !! name) as [q|] eqn:Hq; [|done].
    simpl. intros [= <-]. simpl. by apply Hn.
Qed.

Lemma addToProfiles_spec c ps svcProfiles :
  profilesKept c →
  profilesKept (profiles.addToProfiles c ps svcProfiles)
  ∧ profiles.Files (profiles.addToProfiles c ps svcProfiles)
    = profiles.Files c
  ∧ ∀ name ps',
      ps' ∈ profileServices (profiles.addToProfiles c ps svcProfiles) name
      ↔ ps' ∈ profileServices c name
        ∨ (ps' = ps
           ∧ ((svcProfiles = [] ∧ name = "default") ∨ name ∈ svcProfiles)).
Proof.
  intros Hk. unfold profiles.addToProfiles.
  case_bool_decide as He.
  - destruct svcProfiles; [|done]. split_and!.
    + by apply appendService_kept.
    + done.
    + intros name ps'. rewrite profileServices_appendService.
      destruct Hk as [Hd _]. case_decide as Hc.
      * destruct Hc as [<- _]. rewrite elem_of_app, list_elem_of_singleton.
        split; [intros [?|?]; auto|].
        intros [?|[? [[_ _]|?%elem_of_nil]]]; auto; done.
      * split; [auto|]. intros [?|[_ [[_ ->] | ?%elem_of_nil]]]; try done.
        exfalso. by apply Hc.
  - assert (svcProfiles ≠ []) as Hne by (by destruct svcProfiles).
    clear He.
    assert (∀ c, profilesKept c →
      let c' :=
        foldl (λ config profileName,
                 profiles.appendService profileName ps
                   match profiles.Profiles config !! profileName with
                   | Some _ => config
                   | None =>
                       profiles.mkProfilesConfig
                         (<[profileName := profiles.mkProfile profileName []]>
                            (profiles.Profiles config))
                         (profiles.Files config)
                   end) c svcProfiles in
      profilesKept c'
      ∧ profiles.Files c' = profiles.Files c
      ∧ ∀ name ps',
          ps' ∈ profileServices c' name
          ↔ ps' ∈ profileServices c name ∨ (ps' = ps ∧ name ∈ svcProfiles))
      as Hloop.
    { clear c Hk Hne.
      induction svcProfiles as [|n ns IH] using rev_ind; intros c Hk.
      - simpl. split_and!; [done..|]. intros name ps'.
        split; [auto|]. by intros [?|[_ ?%elem_of_nil]].
      - cbv zeta in *. rewrite foldl_snoc.
        destruct (IH c Hk) as (Hk' & Hf' & Hs').
        set (c1 := foldl _ c ns) in *.
        set (c2 := match profiles.Profiles c1 !! n with
                   | Some _ => c1
                   | None => _ end).
        assert (profilesKept c2 ∧ profiles.Files c2 = profiles.Files c1
                ∧ is_Some (profiles.Profiles c2 !! n)
                ∧ ∀ name, profileServices c2 name = profileServices c1 name)
          as (Hk2 & Hf2 & Hn2 & Hs2).
        { unfold c2. destruct (profiles.Profiles c1 !! n) as [p|] eqn:Hp.
          - split_and!; [done..|by eexists|done].
          - destruct Hk' as [[d Hd] Hnm]. split_and!.
            + split; simpl.
              * rewrite lookup_insert_ne by congruence. by eexists.
              * intros k q. destruct (decide (n = k)) as [->|Hnk].
                -- rewrite lookup_insert_eq. by intros [= <-].
                -- rewrite lookup_insert_ne by done. apply Hnm.
            + done.
            + simpl. rewrite lookup_insert_eq. by eexists.
            + intros name. unfold profileServices. simpl.
              destruct (decide (n = name)) as [->|Hnk].
              * by rewrite lookup_insert_eq, Hp.
              * by rewrite lookup_insert_ne. }
        split_and!.
        + by apply appendService_kept.
        + simpl. by rewrite Hf2.
        + intros name ps'. rewrite profileServices_appendService, Hs2.
          rewrite elem_of_app. case_decide as Hc.
          * destruct Hc as [<- _].
            rewrite elem_of_app, list_elem_of_singleton, Hs'.
            rewrite list_elem_of_singleton. tauto.
          * rewrite Hs', list_elem_of_singleton. split; [tauto|].
            intros [?|[? [? | ->]]]; [tauto..|].
            exfalso. by apply Hc. }
    destruct (Hloop c Hk) as (H1 & H2 & H3). split_and!; [done..|].
    intros name ps'. rewrite H3. split.
    + intros [?|[? ?]]; auto.
    + intros [?|[? [[? _]|?]]]; auto; done.
Qed.

Lemma parseServices_spec render path Services c :
  profilesKept c →
  let c' := foldl (parseService render path) c Services in
  profilesKept c'
  ∧ profiles.Files c' = profiles.Files c
  ∧ ∀ name ps,
      ps ∈ profileServices c' name
      ↔ ps ∈ profileServices c name
        ∨ ∃ svc, svc ∈ Services ∧ ps = serviceRecord render path svc
                 ∧ registeredUnder svc name.
Proof.
  revert c. induction Services as [|svc l IH] using rev_ind; intros c Hk.
  - simpl. split_and!; [done..|]. intros name ps. split; [auto|].
    by intros [?|(? & ?%elem_of_nil & _)].
  - cbv zeta in *. rewrite foldl_snoc.
    destruct (IH c Hk) as (Hk1 & Hf1 & Hs1).
    destruct (addToProfiles_spec (foldl (parseService render path) c l)
                (serviceRecord render path svc) (sdProfiles svc.2) Hk1)
      as (Hk2 & Hf2 & Hs2).
    unfold parseService at 1 3 5. fold (serviceRecord render path svc).
    split_and!; [done|by rewrite Hf2|].
    intros name ps. rewrite Hs2, Hs1. split.
    + intros [[?|(s & Hs & ? & ?)]|[-> Hr]]; [by left|right..].
      * exists s. by rewrite elem_of_app; auto.
      * exists svc. rewrite elem_of_app, list_elem_of_singleton. auto.
    + intros [?|(s & Hs & -> & Hr)]; [by left; left|].
      apply elem_of_app in Hs as [Hs| ->%list_elem_of_singleton].
      * left. right. by exists s.
      * by right.
Qed.

Lemma loadProfileFiles_ok render fs paths c :
  profilesKept c →
  Forall (λ path, profilesFail fs path = None) paths →
  ∃ c',
    loadProfileFiles render fs paths c = (Some c', None)
    ∧ profilesKept c'
    ∧ profiles.Files c'
      = profiles.Files c ++ filter (λ path, is_Some (fs path)) paths
    ∧ ∀ name ps,
        ps ∈ profileServices c' name
        ↔ ps ∈ profileServices c name
          ∨ ∃ path Services svc,
              path ∈ paths ∧ fs path = Some (ProfilesDecoded Services)
              ∧ svc ∈ Services ∧ ps = serviceRecord render path svc
              ∧ registeredUnder svc name.
Proof.
  intros Hk HF. revert c Hk.
  induction HF as [|path paths Hp _ IH]; intros c Hk.
  - exists c. simpl. rewrite app_nil_r. split_and!; [done..|].
    intros name ps. split; [auto|].
    by intros [?|(? & ? & ? & ?%elem_of_nil & _)].
  - cbn [loadProfileFiles]. rewrite filter_cons. unfold profilesFail in Hp.
    destruct (fs path) as [[err|err|Services]|] eqn:Hfs; try done.
    + cbn [parseComposeProfiles].
      set (c1 := profiles.mkProfilesConfig _ _).
      assert (profilesKept c1) as Hk1 by done.
      destruct (parseServices_spec render path Services c1 Hk1)
        as (Hk2 & Hf2 & Hs2).
      destruct (IH _ Hk2) as (c' & Hc' & Hk' & Hf' & Hs').
      exists c'. rewrite decide_True by by eexists.
      split_and!; [done|done| |].
      * rewrite Hf', Hf2. simpl. by rewrite <-app_assoc.
      * intros name ps. rewrite Hs', Hs2. split.
        -- intros [[?|(svc & ? & ? & ?)]|(p & S & svc & ? & ? & ?)];
             [by left|right..].
           ++ exists path, Services, svc. split_and!; try done. left.
           ++ exists p, S, svc. split_and!; try tauto. by right.
        -- intros [?|(p & S & svc & Hin & Hfp & Hrest)]; [by left; left|].
           apply elem_of_cons in Hin as [-> | Hin].
           ++ rewrite Hfs in Hfp. injection Hfp as <-.
              left. right. exists svc. tauto.
           ++ right. exists p, S, svc. tauto.
    + destruct (IH c Hk) as (c' & Hc' & Hk' & Hf' & Hs').
      exists c'. rewrite decide_False by by intros [? ?].
      split_and!; [done..|].
      intros name ps. rewrite Hs'. split.
      * intros [?|(p & S & svc & ? & ?)]; [by left|right].
        exists p, S, svc. split; [by right|tauto].
      * intros [?|(p & S & svc & Hin & Hfp & Hrest)]; [by left|right].
        apply elem_of_cons in Hin as [-> | Hin]; [congruence|].
        exists p, S, svc. tauto.
Qed.

Lemma loadProfileFiles_fail render fs l1 path l2 err c :
  Forall (λ path, profilesFail fs path = None) l1 →
  profilesFail fs path = Some err →
  profilesKept c →
  loadProfileFiles render fs (l1 ++ path :: l2) c
  = (None, Some ("failed to parse " +:+ path +:+ ": " +:+ err)).
Proof.
  intros HF Hp. revert c.
  induction HF as [|p l1 Hok _ IH]; intros c Hk.
  - cbn [app loadProfileFiles]. unfold profilesFail in Hp.
    destruct (fs path) as [[e|e|S]|]; try done;
      by injection Hp as ->.
  - cbn [app loadProfileFiles]. unfold profilesFail in Hok.
    destruct (fs p) as [[e|e|S]|] eqn:Hfs; try done.
    + cbn [parseComposeProfiles]. apply IH.
      by apply (parseServices_spec render p S
                  (profiles.mkProfilesConfig _ _)).
    + by apply IH.
Qed.

Lemma initialConfig_kept : profilesKept profiles.initialConfig.
Proof.
  split.
  - by eexists.
  - intros name p. unfold profiles.initialConfig. simpl.
    intros [<- <-]%lookup_singleton_Some. done.
Qed.

(** X18. When every candidate file that exists can be read and decoded,
    [LoadProfiles] returns a configuration and no error; it has a
    "default" profile and stores every profile under its name; [Files]
    lists the candidates that exist, in order; and a service record is
    registered under a profile exactly when it comes from a service of
    one of these files that names the profile, or names no profile in
    the case of "default". *)
Theorem LoadProfiles_succeeds (render : value → string)
    (joinPath : string → string → string)
    (fs : string → option loadedProfiles) (basePath : string) :
  let candidates :=
    joinPath basePath
      <$> ["docker-compose.yml"; "docker-compose.yaml"; "compose.yml";
           "compose.yaml"] in
  Forall (λ path, profilesFail fs path = None) candidates →
  ∃ c,
    LoadProfiles render joinPath fs basePath = (Some c, None)
    ∧ profilesKept c
    ∧ profiles.Files c = filter (λ path, is_Some (fs path)) candidates
    ∧ ∀ name ps,
        ps ∈ profileServices c name
        ↔ ∃ path Services svc,
            path ∈ candidates ∧ fs path = Some (ProfilesDecoded Services)
            ∧ svc ∈ Services ∧ ps = serviceRecord render path svc
            ∧ registeredUnder svc name.
Proof.
  intros candidates HF. unfold LoadProfiles. fold candidates.
  destruct (loadProfileFiles_ok render fs candidates profiles.initialConfig
              initialConfig_kept HF) as (c & Hc & Hk & Hf & Hs).
  exists c. split_and!; [done..|].
  intros name ps. rewrite Hs. split; [|auto].
  intros [Hin|?]; [|done]. exfalso. revert Hin.
  unfold profileServices, profiles.initialConfig. simpl.
  destruct (decide (name = "default")) as [-> | Hne].
  - rewrite lookup_singleton_eq. by intros ?%elem_of_nil.
  - rewrite lookup_singleton_ne by done. by intros ?%elem_of_nil.
Qed.

Lemma LoadProfiles_succeeds_witness :
  ∃ c,
    LoadProfiles (λ _, "") sampleJoin sampleProfilesFS "app" = (Some c, None)
    ∧ profilesKept c
    ∧ profiles.Files c = ["app/docker-compose.yml"]
    ∧ profileServices c "dev"
      = [profiles.mkProfileService "debug" ["9229"] [".env"]
           "app/docker-compose.yml"].
Proof.
  destruct (LoadProfiles_succeeds (λ _, "") sampleJoin sampleProfilesFS "app")
    as (c & Hc & Hk & Hf & _).
  - repeat constructor.
  - exists c. split; [exact Hc|]. split; [exact Hk|].
    vm_compute in Hc. injection Hc as <-. split; reflexivity.
Defined.

(** X19. [LoadProfiles] stops at the first candidate file that exists
    but cannot be read or decoded: it returns no configuration, and an
    error that names this file, whatever the later candidates hold. *)
Theorem LoadProfiles_fails (render : value → string)
    (joinPath : string → string → string)
    (fs : string → option loadedProfiles) (basePath : string)
    (before after : list string) (pattern err : string) :
  before ++ pattern :: after
  = ["docker-compose.yml"; "docker-compose.yaml"; "compose.yml";
     "compose.yaml"] →
  Forall (λ p, profilesFail fs (joinPath basePath p) = None) before →
  profilesFail fs (joinPath basePath pattern) = Some err →
  LoadProfiles render joinPath fs basePath
  = (None,
     Some ("failed to parse " +:+ joinPath basePath pattern +:+ ": " +:+ err)).
Proof.
  intros Hsplit Hbefore Hfail. unfold LoadProfiles.
  rewrite <-Hsplit, fmap_app, fmap_cons.
  apply loadProfileFiles_fail; [|done|apply initialConfig_kept].
  by apply Forall_fmap.
Qed.

Lemma LoadProfiles_fails_witness :
  LoadProfiles (λ _, "") sampleJoin sampleProfilesFS "broken"
  = (None,
     Some "failed to parse broken/compose.yml: yaml: did not find expected key").
Proof.
  apply (LoadProfiles_fails (λ _, "") sampleJoin sampleProfilesFS "broken"
           ["docker-compose.yml"; "docker-compose.yaml"] ["compose.yaml"]
           "compose.yml" "yaml: did not find expected key").
  - reflexivity.
  - repeat constructor.
  - reflexivity.
Defined.

(** ** The suggestion helper *)

Lemma wrap_range x : - 2 ^ 63 ≤ wrap x < 2 ^ 63.
Proof.
  unfold wrap. pose proof (Z.mod_pos_bound (x + 2 ^ 63) (2 ^ 64)). lia.
Qed.

Lemma wrap_id x : - 2 ^ 63 ≤ x < 2 ^ 63 → wrap x = x.
Proof. intros Hx. unfold wrap. rewrite Z.mod_small; lia. Qed.

Lemma wrap_add_l x y : wrap (wrap x + y) = wrap (x + y).
Proof.
  unfold wrap.
  replace ((x + 2 ^ 63) `mod` 2 ^ 64 - 2 ^ 63 + y + 2 ^ 63)
    with ((x + 2 ^ 63) `mod` 2 ^ 64 + y) by lia.
  replace (x + y + 2 ^ 63) with (x + 2 ^ 63 + y) by lia.
  by rewrite Zplus_mod_idemp_l.
Qed.

Lemma wrap_add_ne x k : 0 < k < 2 ^ 64 → wrap (x + k) ≠ x.
Proof.
  intros Hk Heq. pose proof (wrap_range (x + k)) as Hr. rewrite Heq in Hr.
  unfold wrap in Heq.
  pose proof (Z.div_mod (x + k + 2 ^ 63) (2 ^ 64)) as Hd.
  pose proof (Z.mod_pos_bound (x + k + 2 ^ 63) (2 ^ 64)) as Hm.
  lia.
Qed.

Lemma portAlternatives_ne port alts alt :
  portAlternatives !! port = Some alts → alt ∈ alts → alt ≠ port.
Proof.
  intros Hl Hin ->. revert Hl Hin. unfold portAlternatives.
  cbn [list_to_map foldr fst snd].
  repeat (rewrite lookup_insert_Some; intros [[<- <-]|[_ Hl]];
          [intros Hin;
           repeat (apply elem_of_cons in Hin as [Hin|Hin]; [done|]);
           by apply elem_of_nil in Hin
          |revert Hl]).
  by rewrite lookup_empty.
Qed.

Lemma getPortAlternatives_ne port alt :
  alt ∈ getPortAlternatives port → alt ≠ port.
Proof.
  unfold getPortAlternatives. rewrite elem_of_app.
  intros [Hin|Hin].
  - destruct (portAlternatives !! port) as [alts|] eqn:Hl; simpl in Hin.
    + by eapply portAlternatives_ne.
    + by apply elem_of_nil in Hin.
  - apply elem_of_cons in Hin as [-> | Hin]; [by apply wrap_add_ne|].
    apply list_elem_of_singleton in Hin as ->. by apply wrap_add_ne.
Qed.

(** What the search of [FindFreePort] yields. *)
Lemma FindFreePort_cases listen suggested maxAttempts :
  (∃ i, 0 ≤ i < maxAttempts
        ∧ FindFreePort listen suggested maxAttempts = wrap (suggested + i)
        ∧ listen (wrap (suggested + i)) = true
        ∧ ∀ j, 0 ≤ j < i → listen (wrap (suggested + j)) = false)
  ∨ (FindFreePort listen suggested maxAttempts = 0
     ∧ ∀ i, 0 ≤ i < maxAttempts → listen (wrap (suggested + i)) = false).
Proof.
  unfold FindFreePort.
  destruct (list_find _ (seqZ 0 maxAttempts)) as [[n i]|] eqn:Hf.
  - left. apply list_find_Some in Hf as (Hn & Hi & Hbefore).
    apply lookup_seqZ in Hn as [-> Hn]. exists (0 + Z.of_nat n). split_and!; try done.
    + lia.
    + intros j Hj.
      specialize (Hbefore (Z.to_nat j) j).
      destruct (listen (wrap (suggested + j))); [|done].
      exfalso. apply Hbefore; [|lia|done].
      apply lookup_seqZ. lia.
  - right. split; [done|]. intros i Hi.
    apply list_find_None in Hf. rewrite Forall_forall in Hf.
    specialize (Hf i). destruct (listen (wrap (suggested + i))); [|done].
    exfalso. apply Hf; [|done]. apply elem_of_seqZ. lia.
Qed.

(** X20. [FindFreePort], for a range of ports that [int] holds: the
    result is either the first port from [suggested] on, among
    [maxAttempts] ports, on which listening succeeds, or it is 0 and
    listening fails on all of them. *)
Theorem FindFreePort_first_free (listen : Z → bool)
    (suggested maxAttempts : Z) :
  - 2 ^ 63 ≤ suggested →
  suggested + maxAttempts ≤ 2 ^ 63 →
  let free := FindFreePort listen suggested maxAttempts in
  (suggested ≤ free < suggested + maxAttempts
   ∧ listen free = true
   ∧ ∀ p, suggested ≤ p < free → listen p = false)
  ∨ (free = 0
     ∧ ∀ p, suggested ≤ p < suggested + maxAttempts → listen p = false).
Proof.
  intros Hlo Hhi free.
  destruct (FindFreePort_cases listen suggested maxAttempts)
    as [(i & Hi & Hr & Hfree & Hbefore)|[Hr Hall]]; fold free in Hr.
  - left. rewrite wrap_id in Hr, Hfree by lia. rewrite Hr.
    split_and!; [lia..|done|].
    intros p Hp. specialize (Hbefore (p - suggested)).
    rewrite wrap_id in Hbefore by lia.
    replace (suggested + (p - suggested)) with p in Hbefore by lia.
    apply Hbefore. lia.
  - right. split; [done|]. intros p Hp. specialize (Hall (p - suggested)).
    rewrite wrap_id in Hall by lia.
    replace (suggested + (p - suggested)) with p in Hall by lia.
    apply Hall. lia.
Qed.

Lemma FindFreePort_first_free_witness :
  let listen := λ p, bool_decide (p = 8083) in
  let free := FindFreePort listen 8081 100 in
  (8081 ≤ free < 8081 + 100
   ∧ listen free = true
   ∧ ∀ p, 8081 ≤ p < free → listen p = false)
  ∨ (free = 0 ∧ ∀ p, 8081 ≤ p < 8081 + 100 → listen p = false).
Proof.
  apply (FindFreePort_first_free (λ p, bool_decide (p = 8083)) 8081 100);
    lia.
Defined.

Lemma suggestFor_lookup listen s port q :
  suggestFor listen s port !! q
  = if decide (q = port) then
      match list_find (λ alt, listen alt = true) (getPortAlternatives port)
      with
      | Some (_, alt) => Some alt
      | None =>
          match s !! port with
          | Some v => Some v
          | None =>
              let free := FindFreePort listen (wrap (port + 1)) 100 in
              if bool_decide (free > 0) then Some free else None
          end
      end
    else s !! q.
Proof.
  unfold suggestFor.
  destruct (list_find _ (getPortAlternatives port)) as [[n alt]|].
  - rewrite lookup_insert_eq. case_decide as Hq.
    + subst q. by rewrite lookup_insert_eq.
    + by rewrite lookup_insert_ne.
  - destruct (s !! port) as [v|] eqn:Hs.
    + case_decide as Hq; [by subst q|done].
    + cbv zeta. case_bool_decide.
      * case_decide as Hq; [subst q; by rewrite lookup_insert_eq|].
        by rewrite lookup_insert_ne.
      * case_decide as Hq; [by subst q|done].
Qed.

(** The entry of a port does not depend on the other ports of the list,
    nor on how often the port is listed. *)
Lemma SuggestFreePorts_lookup listen conflictPorts port :
  SuggestFreePorts listen conflictPorts !! port
  = if decide (port ∈ conflictPorts) then suggestFor listen ∅ port !! port
    else None.
Proof.
  unfold SuggestFreePorts.
  induction conflictPorts as [|p l IH] using rev_ind.
  - cbn [foldl]. rewrite lookup_empty, decide_False; [done|].
    by intros ?%elem_of_nil.
  - rewrite foldl_snoc, suggestFor_lookup.
    destruct (decide (port = p)) as [<-|Hq].
    + rewrite (decide_True (P := port ∈ l ++ [port]))
        by (rewrite elem_of_app, list_elem_of_singleton; auto).
      rewrite (suggestFor_lookup listen ∅ port port), decide_True by done.
      destruct (list_find _ (getPortAlternatives port)) as [[n alt]|] eqn:Hf;
        [done|].
      rewrite IH, lookup_empty. case_decide; [|done].
      rewrite suggestFor_lookup, decide_True, Hf, lookup_empty by done.
      cbv zeta. by case_bool_decide.
    + rewrite IH. case_decide as Hin.
      * rewrite decide_True; [done|]. rewrite elem_of_app. auto.
      * rewrite decide_False; [done|].
        rewrite elem_of_app, list_elem_of_singleton. tauto.
Qed.

(** X21. A port [SuggestFreePorts] suggests for [port] answers a port of
    the list; listening on it succeeds; it is never [port] itself; and
    it is one of the alternatives of [port], or a positive port among
    the hundred that follow [port]. *)
Theorem SuggestFreePorts_sound (listen : Z → bool) (conflictPorts : list Z)
    (port alt : Z) :
  SuggestFreePorts listen conflictPorts !! port = Some alt →
  port ∈ conflictPorts
  ∧ listen alt = true
  ∧ alt ≠ port
  ∧ (alt ∈ getPortAlternatives port
     ∨ (0 < alt ∧ ∃ i, 0 ≤ i < 100 ∧ alt = wrap (port + 1 + i))).
Proof.
  rewrite SuggestFreePorts_lookup. case_decide as Hin; [|done].
  rewrite suggestFor_lookup, decide_True by done.
  destruct (list_find _ (getPortAlternatives port)) as [[n a]|] eqn:Hf.
  - intros [= ->]. apply list_find_Some in Hf as (Hn & Ha & _).
    apply list_elem_of_lookup_2 in Hn.
    split_and!; [done..|by apply getPortAlternatives_ne|by left].
  - rewrite lookup_empty. cbv zeta. case_bool_decide as Hpos; [|done].
    intros [= <-].
    destruct (FindFreePort_cases listen (wrap (port + 1)) 100)
      as [(i & Hi & Hr & Hfree & _)|[Hr _]]; [|lia].
    rewrite wrap_add_l in Hr, Hfree. rewrite Hr.
    split_and!; [done..| |].
    + replace (port + 1 + i) with (port + (1 + i)) by lia.
      apply wrap_add_ne. lia.
    + right. split; [lia|]. by exists i.
Qed.

Lemma SuggestFreePorts_sound_witness :
  let listen := λ p, bool_decide (p = 8081) in
  80 ∈ [80; 8080]
  ∧ listen 8081 = true
  ∧ 8081 ≠ 80
  ∧ (8081 ∈ getPortAlternatives 80
     ∨ (0 < 8081 ∧ ∃ i, 0 ≤ i < 100 ∧ 8081 = wrap (80 + 1 + i))).
Proof.
  apply (SuggestFreePorts_sound (λ p, bool_decide (p = 8081)) [80; 8080]
           80 8081).
  reflexivity.
Defined.

(** X22. For a port of the list, [SuggestFreePorts] suggests the first
    of its alternatives, in their order, on which listening succeeds. *)
Theorem SuggestFreePorts_first_alternative (listen : Z → bool)
    (conflictPorts : list Z) (port alt : Z) (before after : list Z) :
  port ∈ conflictPorts →
  getPortAlternatives port = before ++ alt :: after →
  Forall (λ a, listen a = false) before →
  listen alt = true →
  SuggestFreePorts listen conflictPorts !! port = Some alt.
Proof.
  intros Hin Halts Hbefore Halt.
  rewrite SuggestFreePorts_lookup, decide_True by done.
  rewrite suggestFor_lookup, decide_True by done.
  assert (list_find (λ a, listen a = true) (getPortAlternatives port)
          = Some (length before, alt)) as ->; [|done].
  apply list_find_Some. rewrite Halts. split_and!.
  - by rewrite lookup_app_r, Nat.sub_diag.
  - done.
  - intros j a Hj Hlt. rewrite lookup_app_l in Hj by done.
    rewrite Forall_forall in Hbefore.
    apply list_elem_of_lookup_2, Hbefore in Hj. by rewrite Hj.
Qed.

Lemma SuggestFreePorts_first_alternative_witness :
  SuggestFreePorts (λ p, bool_decide (p = 8081 ∨ p = 9080)) [8080; 80] !! 80
  = Some 8081.
Proof.
  apply (SuggestFreePorts_first_alternative
           (λ p, bool_decide (p = 8081 ∨ p = 9080)) [8080; 80] 80 8081
           [8080; 8000] [9080; 1080; 10080]).
  - apply list_elem_of_further, list_elem_of_here.
  - reflexivity.
  - repeat constructor.
  - reflexivity.
Defined.

(** X23. A port of the list, not negative and a hundred below the
    largest [int], is left without a suggestion exactly when listening
    fails on all its alternatives and on the hundred ports that follow
    it. *)
Theorem SuggestFreePorts_none (listen : Z → bool) (conflictPorts : list Z)
    (port : Z) :
  port ∈ conflictPorts →
  0 ≤ port →
  port + 100 < 2 ^ 63 →
  SuggestFreePorts listen conflictPorts !! port = None
  ↔ (∀ alt, alt ∈ getPortAlternatives port → listen alt = false)
    ∧ ∀ p, port < p ≤ port + 100 → listen p = false.
Proof.
  intros Hin Hlo Hhi.
  rewrite SuggestFreePorts_lookup, decide_True by done.
  rewrite suggestFor_lookup, decide_True by done.
  rewrite lookup_empty. cbv zeta.
  assert (wrap (port + 1) = port + 1) as Hw by (apply wrap_id; lia).
  destruct (list_find _ (getPortAlternatives port)) as [[n a]|] eqn:Hf.
  - apply list_find_Some in Hf as (Hn & Ha & _).
    apply list_elem_of_lookup_2 in Hn. split; [done|].
    intros [Hall _]. apply Hall in Hn. congruence.
  - apply list_find_None in Hf. rewrite Forall_forall in Hf.
    assert (∀ alt, alt ∈ getPortAlternatives port → listen alt = false)
      as Hall.
    { intros alt Halt. apply Hf in Halt. by destruct (listen alt). }
    rewrite Hw.
    destruct (FindFreePort_cases listen (port + 1) 100)
      as [(i & Hi & Hr & Hfree & _)|[Hr Hbusy]].
    + rewrite wrap_id in Hr, Hfree by lia.
      rewrite Hr, bool_decide_true by lia. split; [done|].
      intros [_ Hnear]. rewrite Hnear in Hfree by lia. done.
    + rewrite Hr, bool_decide_false by lia. split; [|done].
      intros _. split; [done|]. intros p Hp.
      specialize (Hbusy (p - (port + 1))).
      rewrite wrap_id in Hbusy by lia.
      replace (port + 1 + (p - (port + 1))) with p in Hbusy by lia.
      apply Hbusy. lia.
Qed.

Lemma SuggestFreePorts_none_witness :
  SuggestFreePorts (λ _, false) [3000; 80] !! 80 = None
  ↔ (∀ alt, alt ∈ getPortAlternatives 80 → (λ _ : Z, false) alt = false)
    ∧ ∀ p, 80 < p ≤ 80 + 100 → (λ _ : Z, false) p = false.
Proof.
  apply (SuggestFreePorts_none (λ _, false) [3000; 80] 80).
  - apply list_elem_of_further, list_elem_of_here.
  - lia.
  - lia.
Defined.

(** ** [parseLabels] *)

Lemma SplitN_2_app a b sep :
  strings.hasByte a sep = false →
  strings.SplitN (a +:+ String sep b) sep 2 = [a; b].
Proof.
  induction a as [|c a IH]; rewrite ?append_String, ?append_empty.
  - intros _. cbn [strings.SplitN]. rewrite bool_decide_true by done.
    by destruct b.
  - cbn [strings.hasByte strings.SplitN].
    intros [Hc Ha]%orb_false_iff. by rewrite Hc, (IH Ha).
Qed.

Lemma SplitN_2_pair s sep k v :
  strings.SplitN s sep 2 = [k; v] →
  s = k +:+ String sep v ∧ strings.hasByte k sep = false.
Proof.
  revert k. induction s as [|c s IH]; intros k; [done|].
  cbn [strings.SplitN]. case_bool_decide as Hc.
  - subst c. destruct s; intros [= <- <-]; done.
  - destruct (strings.SplitN s sep 2) as [|p [|q [|??]]] eqn:Hs; try done.
    intros [= <- <-]. destruct (IH p eq_refl) as [-> Hp].
    split; [done|]. simpl. by rewrite bool_decide_false, Hp.
Qed.

Lemma Split_Join l sep :
  l ≠ [] → Forall (λ p, strings.hasByte p sep = false) l →
  strings.Split (strings.Join l sep) sep = l.
Proof.
  intros Hne HF. induction HF as [|a l Ha _ IH]; [done|].
  destruct l as [|b l].
  - simpl. by apply Split_no_sep.
  - rewrite Join_cons, Split_app by done. by rewrite IH.
Qed.

Lemma foldl_insert_pairs (m : gmap string string) (kvs : list (string * string)) :
  foldl (λ (labels : gmap string string) kv, <[kv.1 := kv.2]> labels) m kvs
  = list_to_map (reverse kvs) ∪ m.
Proof.
  revert m. induction kvs as [|kv kvs IH] using rev_ind; intros m.
  - simpl. by rewrite (left_id_L ∅ (∪)).
  - rewrite foldl_snoc, reverse_snoc, IH. simpl.
    by rewrite insert_union_l.
Qed.

Lemma label_eq kv : label kv = kv.1 +:+ String "=" kv.2.
Proof. reflexivity. Qed.

Lemma hasByte_label_comma kv :
  strings.hasByte kv.1 "," = false → strings.hasByte kv.2 "," = false →
  strings.hasByte (label kv) "," = false.
Proof.
  intros Hk Hv. rewrite label_eq, hasByte_app, Hk. simpl.
  by rewrite Hv.
Qed.

(** X24. [parseLabels] reads back a list of labels joined by commas:
    when no key holds a comma or an equals sign and no value holds a
    comma, the result maps each key to the value of its last label. *)
Theorem parseLabels_Join (kvs : list (string * string)) :
  Forall (λ kv, strings.hasByte kv.1 "," = false
                ∧ strings.hasByte kv.1 "=" = false
                ∧ strings.hasByte kv.2 "," = false) kvs →
  parseLabels (strings.Join (label <$> kvs) ",")
  = list_to_map (reverse kvs).
Proof.
  intros HF. unfold parseLabels.
  destruct kvs as [|kv0 kvs0] eqn:Hkvs; [done|]. rewrite <-Hkvs in *.
  assert (kvs ≠ []) as Hne by (by rewrite Hkvs).
  rewrite bool_decide_false.
  2:{ rewrite Hkvs. cbn [fmap list_fmap]. rewrite label_eq.
      destruct (label <$> kvs0); cbn [strings.Join];
        destruct kv0 as [[|c k] v]; simpl;
        rewrite ?append_String, ?append_empty; done. }
  rewrite Split_Join.
  2:{ by destruct kvs. }
  2:{ apply Forall_fmap. eapply Forall_impl; [exact HF|].
      intros kv (Hk & _ & Hv). by apply hasByte_label_comma. }
  clear Hkvs Hne kv0 kvs0.
  rewrite <-(right_id_L ∅ (∪) (list_to_map (reverse kvs))).
  rewrite <-foldl_insert_pairs. generalize (∅ : gmap string string).
  induction HF as [|kv kvs (_ & Hk & _) _ IH]; intros m; [done|].
  cbn [fmap list_fmap foldl]. rewrite label_eq.
  rewrite SplitN_2_app by done. apply IH.
Qed.

Lemma parseLabels_Join_witness :
  parseLabels
    (strings.Join
       (label <$> [("com.docker.compose.service", "web"); ("tier", "a=b");
                   ("tier", "front")]) ",")
  = list_to_map
      (reverse [("com.docker.compose.service", "web"); ("tier", "a=b");
                ("tier", "front")]).
Proof.
  apply (parseLabels_Join
           [("com.docker.compose.service", "web"); ("tier", "a=b");
            ("tier", "front")]).
  repeat constructor.
Defined.

(** X25. Every entry of [parseLabels] comes from a piece [key=value] of
    the input between two commas, cut at its first equals sign: the key
    holds neither a comma nor an equals sign, and the value holds no
    comma. *)
Theorem parseLabels_entries (labelsStr k v : string) :
  parseLabels labelsStr !! k = Some v →
  k +:+ "=" +:+ v ∈ strings.Split labelsStr ","
  ∧ strings.hasByte k "," = false
  ∧ strings.hasByte k "=" = false
  ∧ strings.hasByte v "," = false.
Proof.
  change (k +:+ "=" +:+ v) with (k +:+ String "=" v).
  unfold parseLabels. case_bool_decide as He; [by rewrite lookup_empty|].
  assert (∀ (m : gmap string string),
    foldl (λ (labels : gmap string string) part,
             match strings.SplitN part "=" 2 with
             | [k; v] => <[k := v]> labels
             | _ => labels
             end) m (strings.Split labelsStr ",") !! k = Some v →
    m !! k = Some v
    ∨ (k +:+ String "=" v ∈ strings.Split labelsStr ","
       ∧ strings.hasByte k "=" = false)) as Hloop.
  { induction (strings.Split labelsStr ",") as [|part l IH] using rev_ind;
      intros m; [by left|].
    rewrite foldl_snoc.
    assert (∀ m' : gmap string string,
      foldl (λ (labels : gmap string string) part,
               match strings.SplitN part "=" 2 with
               | [k; v] => <[k := v]> labels
               | _ => labels
               end) m l !! k = m' !! k →
      m' !! k = Some v →
      m !! k = Some v
      ∨ (k +:+ String "=" v ∈ l ++ [part]
         ∧ strings.hasByte k "=" = false)) as Hsame.
    { intros m' <- [? | [? ?]]%IH; [by left|right]. split; [|done].
      rewrite elem_of_app. by left. }
    destruct (strings.SplitN part "=" 2) as [|k' [|v' [|??]]] eqn:Hs;
      [by apply Hsame..| |by apply Hsame].
    destruct (decide (k' = k)) as [-> | Hne].
    - rewrite lookup_insert_eq. intros [= ->]. right.
      apply SplitN_2_pair in Hs as [-> Hk]. split; [|done].
      rewrite elem_of_app, list_elem_of_singleton. by right.
    - apply Hsame. by rewrite lookup_insert_ne. }
  intros [Hm|[Hin Hk]]%Hloop; [by rewrite lookup_empty in Hm|].
  pose proof (Split_pieces labelsStr ",") as Hp.
  rewrite Forall_forall in Hp. pose proof (Hp _ Hin) as Hc.
  rewrite hasByte_app in Hc. apply orb_false_iff in Hc as [Hkc Hvc].
  simpl in Hvc. done.
Qed.

Lemma parseLabels_entries_witness :
  "tier" +:+ "=" +:+ "a" ∈ strings.Split "tier=a,b,flag" ","
  ∧ strings.hasByte "tier" "," = false
  ∧ strings.hasByte "tier" "=" = false
  ∧ strings.hasByte "a" "," = false.
Proof.
  apply (parseLabels_entries "tier=a,b,flag" "tier" "a"). reflexivity.
Defined.

(** ** [ListProfiles] after [LoadProfiles] *)

Lemma appendService_dom name ps c k :
  is_Some (profiles.Profiles (profiles.appendService name ps c) !! k)
  ↔ is_Some (profiles.Profiles c !! k).
Proof.
  unfold profiles.appendService. simpl. rewrite lookup_alter.
  case_decide as Hk; [subst k|done].
  by rewrite fmap_is_Some.
Qed.

Lemma addToProfiles_dom c ps svcProfiles k :
  is_Some (profiles.Profiles (profiles.addToProfiles c ps svcProfiles) !! k)
  ↔ is_Some (profiles.Profiles c !! k) ∨ k ∈ svcProfiles.
Proof.
  unfold profiles.addToProfiles. case_bool_decide as He.
  - destruct svcProfiles; [|done]. rewrite appendService_dom.
    split; [auto|]. by intros [? | ?%elem_of_nil].
  - clear He. revert c.
    induction svcProfiles as [|n ns IH] using rev_ind; intros c.
    + simpl. split; [auto|]. by intros [? | ?%elem_of_nil].
    + rewrite foldl_snoc, appendService_dom.
      rewrite elem_of_app, list_elem_of_singleton.
      specialize (IH c). set (c1 := foldl _ c ns) in *.
      destruct (profiles.Profiles c1 !! n) as [p|] eqn:Hn.
      * rewrite IH. split; [tauto|].
        intros [? | [? | ->]]; [tauto..|].
        apply IH. by eexists.
      * simpl. rewrite lookup_insert_is_Some. rewrite IH.
        destruct (decide (n = k)) as [-> | Hnk]; [tauto|]. split.
        -- intros [? | [_ [? | ?]]]; [done|tauto..].
        -- intros [? | [? | ->]]; [tauto..|done].
Qed.

Lemma parseServices_dom render path Services c k :
  is_Some (profiles.Profiles (foldl (parseService render path) c Services)
             !! k)
  ↔ is_Some (profiles.Profiles c !! k)
    ∨ ∃ svc, svc ∈ Services ∧ k ∈ sdProfiles svc.2.
Proof.
  induction Services as [|svc l IH] using rev_ind.
  - simpl. split; [auto|]. by intros [? | (? & ?%elem_of_nil & _)].
  - rewrite foldl_snoc. unfold parseService at 1.
    rewrite addToProfiles_dom, IH. split.
    + intros [[? | (s & ? & ?)] | ?]; [by left|right..].
      * exists s. rewrite elem_of_app. auto.
      * exists svc. rewrite elem_of_app, list_elem_of_singleton. auto.
    + intros [? | (s & Hs & ?)]; [by left; left|].
      apply elem_of_app in Hs as [Hs | ->%list_elem_of_singleton].
      * left. right. by exists s.
      * by right.
Qed.

Lemma loadProfileFiles_dom render fs paths c c' k :
  loadProfileFiles render fs paths c = (Some c', None) →
  is_Some (profiles.Profiles c' !! k)
  ↔ is_Some (profiles.Profiles c !! k)
    ∨ ∃ path Services svc,
        path ∈ paths ∧ fs path = Some (ProfilesDecoded Services)
        ∧ svc ∈ Services ∧ k ∈ sdProfiles svc.2.
Proof.
  revert c. induction paths as [|path paths IH]; intros c.
  - simpl. intros [= <-]. split; [auto|].
    by intros [? | (? & ? & ? & ?%elem_of_nil & _)].
  - cbn [loadProfileFiles].
    destruct (fs path) as [[err|err|Services]|] eqn:Hfs; try done.
    + cbn [parseComposeProfiles]. intros Hl%IH. rewrite Hl.
      rewrite parseServices_dom. simpl. split.
      * intros [[? | (svc & ? & ?)] | (p & S & svc & ? & ?)];
          [by left|right..].
        -- exists path, Services, svc. split_and!; try done. left.
        -- exists p, S, svc. split; [by right|tauto].
      * intros [? | (p & S & svc & Hin & Hfp & Hrest)]; [by left; left|].
        apply elem_of_cons in Hin as [-> | Hin].
        -- rewrite Hfs in Hfp. injection Hfp as <-.
           left. right. exists svc. tauto.
        -- right. exists p, S, svc. tauto.
    + intros Hl%IH. rewrite Hl. split.
      * intros [? | (p & S & svc & ? & ?)]; [by left|right].
        exists p, S, svc. split; [by right|tauto].
      * intros [? | (p & S & svc & Hin & Hfp & Hrest)]; [by left|right].
        apply elem_of_cons in Hin as [-> | Hin]; [congruence|].
        exists p, S, svc. tauto.
Qed.

(** X26. After [LoadProfiles] has returned a configuration,
    [ListProfiles] names each profile once, and it names exactly
    "default" and the profiles that some service of a decoded candidate
    file lists. *)
Theorem ListProfiles_LoadProfiles (render : value → string)
    (joinPath : string → string → string)
    (fs : string → option loadedProfiles) (basePath : string)
    (c : profiles.ProfilesConfig) :
  LoadProfiles render joinPath fs basePath = (Some c, None) →
  NoDup (ListProfiles c)
  ∧ ∀ name,
      name ∈ ListProfiles c
      ↔ name = "default"
        ∨ ∃ pattern Services svc,
            pattern ∈ ["docker-compose.yml"; "docker-compose.yaml";
                       "compose.yml"; "compose.yaml"]
            ∧ fs (joinPath basePath pattern) = Some (ProfilesDecoded Services)
            ∧ svc ∈ Services ∧ name ∈ sdProfiles svc.2.
Proof.
  unfold LoadProfiles, ListProfiles. intros Hl. split.
  - apply NoDup_fst_map_to_list.
  - intros name.
    rewrite list_elem_of_fmap.
    assert ((∃ y : string * profiles.Profile,
               name = y.1 ∧ y ∈ map_to_list (profiles.Profiles c))
            ↔ is_Some (profiles.Profiles c !! name)) as ->.
    { split.
      - intros ([k p] & -> & Hin%elem_of_map_to_list). by eexists.
      - intros [p Hp]. exists (name, p). split; [done|].
        by apply elem_of_map_to_list. }
    rewrite (loadProfileFiles_dom _ _ _ _ _ name Hl).
    unfold profiles.initialConfig. cbn [profiles.Profiles].
    rewrite lookup_singleton_is_Some. split.
    + intros [<- | (path & S & svc & Hin & Hfs & Hrest)]; [by left|right].
      apply list_elem_of_fmap in Hin as (pattern & -> & Hin).
      by exists pattern, S, svc.
    + intros [-> | (pattern & S & svc & Hin & Hfs & Hrest)]; [by left|right].
      exists (joinPath basePath pattern), S, svc. split; [|done].
      apply list_elem_of_fmap. by exists pattern.
Qed.

Lemma ListProfiles_LoadProfiles_witness :
  ∃ c,
    LoadProfiles (λ _, "") sampleJoin sampleProfilesFS "app" = (Some c, None)
    ∧ NoDup (ListProfiles c)
    ∧ "dev" ∈ ListProfiles c.
Proof.
  eexists. split; [reflexivity|].
  destruct (ListProfiles_LoadProfiles (λ _, "") sampleJoin sampleProfilesFS
              "app" _ eq_refl) as [Hnd Hin].
  split; [exact Hnd|]. apply Hin. right.
  exists "docker-compose.yml",
    [("web", mkServiceDecl [VString "8080:80"] [] EnvOther);
     ("debug", mkServiceDecl [VInt 9229] ["dev"] (EnvString ".env"))],
    ("debug", mkServiceDecl [VInt 9229] ["dev"] (EnvString ".env")).
  split_and!.
  - apply list_elem_of_here.
  - reflexivity.
  - apply list_elem_of_further, list_elem_of_here.
  - apply list_elem_of_here.
Defined.
